(** * TG-Manager: task storage and tree-manipulation engine

    A shallow embedding of the core of the Telegram task bot:
    - [src/types/cli.ts]          the entity model and the default storage,
    - [src/utils/idGenerator.ts]  the id allocator,
    - [src/utils/stateManager.ts] the state sequence,
    - [src/core/UserStorage.ts]   the per-user storage engine,
    - [src/core/TaskManager.ts]   the task tree manager,
    - [src/core/UserConfig.ts]    the per-user configuration,
    - the Telegram utilities      escaping and splitting of messages,
    followed by the properties established about them.

    How the code is read:
    - a JavaScript number that holds an id is an integer ([Z]); an optional
      property of an object is an [option]; a [Partial<ITask>] argument
      also tells an absent key from a key that holds [undefined];
    - an asynchronous function runs to completion before the next one
      starts, so a method of [UserStorage] or of [TaskManager] is a state
      transformer [M A] over a [World]: the files, the directories, and the
      current contents of the one object every [UserStorage] shares,
      [DEFAULT_STORAGE_DATA]; an exception keeps what was written before it;
    - [loadStorage] returns a reference, either to that shared object or to
      a fresh object out of [JSON.parse] ([Handle]); the manager mutates the
      forest through the reference it was given;
    - a file holds text that is not JSON, a JSON document of any shape, or
      the JSON of a [StorageFile]; the manager is followed on the last kind
      only, which is all the interface [ITask] speaks about;
    - failures of the file system other than a missing file or directory
      (permissions, a full disk, a regular file where a directory is
      expected) are not part of the model: creating a directory always
      succeeds;
    - a method of [UserConfig] reads and writes, besides the world, the
      configuration its object holds in memory ([MC]);
    - a string is the sequence of its code units, each below 256;
      [toLowerCase] is a parameter of the search. *)

From Stdlib Require Import ZArith String Ascii Lia.
From stdpp Require Import gmap strings list sorting fin_maps pretty.

#[local] Open Scope string_scope.
#[local] Open Scope list_scope.
#[local] Open Scope Z_scope.
#[local] Set Warnings "-register-all".

(* ===================================================================== *)
(** * types/cli.ts *)
(* ===================================================================== *)

(** [ITask]: every property is optional; [subtasks] nests the same shape. *)
Inductive Task : Type := mkTask {
  task_name        : option string;
  task_description : option string;
  task_id          : option Z;
  task_subtasks    : option (list Task);
  task_timestamp   : option string;
  task_state       : option string;
  task_priority    : option Z
}.

Record TaskState : Type := mkTaskState {
  name     : string;
  hexColor : string;
  icon     : string
}.

Record Meta : Type := mkMeta { states : list TaskState }.

Record StorageFile : Type := mkStorageFile {
  meta  : Meta;
  datas : list Task
}.

Definition DEFAULT_TASK_STATES : list TaskState :=
  [ mkTaskState "todo"            "#ff8f00" "☐";
    mkTaskState "currently_doing" "#ab47bc" "✹";
    mkTaskState "done"            "#66bb6a" "✔" ].

(** The value [DEFAULT_STORAGE_DATA] is bound to when the module is loaded.
    The object itself is shared and mutable: see [World]. *)
Definition DEFAULT_STORAGE_DATA_init : StorageFile :=
  mkStorageFile (mkMeta DEFAULT_TASK_STATES) [].

(** [Partial<ITask>] as the callers build it: a key is absent ([None]),
    present and [undefined] ([Some None]), or present with a value. *)
Definition field (A : Type) : Type := option (option A).

Record PartialTask : Type := mkPartial {
  p_name        : field string;
  p_description : field string;
  p_id          : field Z;
  p_subtasks    : field (list Task);
  p_timestamp   : field string;
  p_state       : field string;
  p_priority    : field Z
}.

(** Reading a property: an absent key reads as [undefined]. *)
Definition prop {A} (f : field A) : option A :=
  match f with Some v => v | None => None end.

(** One key of [{...base, ...partial}] and of [Object.assign(base, partial)]. *)
Definition override {A} (base : option A) (f : field A) : option A :=
  match f with Some v => v | None => base end.

(** [Object.assign(task, updates)] *)
Definition Object_assign (task : Task) (updates : PartialTask) : Task :=
  mkTask (override (task_name task)        (p_name updates))
         (override (task_description task) (p_description updates))
         (override (task_id task)          (p_id updates))
         (override (task_subtasks task)    (p_subtasks updates))
         (override (task_timestamp task)   (p_timestamp updates))
         (override (task_state task)       (p_state updates))
         (override (task_priority task)    (p_priority updates)).

Definition no_updates : PartialTask :=
  mkPartial None None None None None None None.

(** JavaScript truthiness of an optional number and of an optional string. *)
Definition truthy_num (v : option Z) : bool :=
  match v with Some z => negb (z =? 0) | None => false end.

Definition truthy_str (v : option string) : bool :=
  match v with Some s => negb (String.eqb s "") | None => false end.

(* ===================================================================== *)
(** * utils/idGenerator.ts *)
(* ===================================================================== *)

Definition includes (l : list Z) (x : Z) : bool := bool_decide (x ∈ l).

(** [Math.max(...l)]; [None] stands for the [-Infinity] of no argument. *)
Definition Math_max (l : list Z) : option Z :=
  match l with
  | [] => None
  | x :: r => Some (fold_left Z.max r x)
  end.

(** [while (existingIds.includes(id)) id++], at most [fuel] tests of the
    condition; [None] when they are used up. *)
Fixpoint scan_gap (fuel : nat) (existingIds : list Z) (id : Z) : option Z :=
  match fuel with
  | O => None
  | S fuel' =>
      if includes existingIds id
      then scan_gap fuel' existingIds (id + 1)
      else Some id
  end.

(** [generateTaskId]. The loop is given one test more than the array has
    entries, which [scan_gap_enough] shows is all it can use. *)
Definition generateTaskId (existingIds : list Z) : Z :=
  if bool_decide (length existingIds = 0%nat) then 0
  else
    let maxInArray := Math_max existingIds in
    if bool_decide (maxInArray = Some (Z.of_nat (length existingIds) - 1))
    then Z.of_nat (length existingIds)
    else default 0 (scan_gap (S (length existingIds)) existingIds 0).

(** [extractAllIds]: pre-order, a task before its subtasks. *)
Fixpoint extractFromTask (task : Task) : list Z :=
  match task_id task with Some i => [i] | None => [] end ++
  match task_subtasks task with
  | Some subs => flat_map extractFromTask subs
  | None => []
  end.

Definition extractAllIds (tasks : list Task) : list Z :=
  flat_map extractFromTask tasks.

Definition validateUniqueId (id : Z) (existingIds : list Z) : bool :=
  negb (includes existingIds id).

(* ===================================================================== *)
(** * utils/stateManager.ts *)
(* ===================================================================== *)

(** [availableStates.findIndex(state => state.name === currentState)] *)
Fixpoint findIndex (currentState : option string) (availableStates : list TaskState)
  : option nat :=
  match availableStates with
  | [] => None
  | s :: r =>
      if bool_decide (Some (name s) = currentState) then Some O
      else S <$> findIndex currentState r
  end.

(** Outcome of [getNextState]: it throws a plain [Error] on a state that is
    not configured, returns [null] at the last one, a name otherwise. *)
Inductive NextState : Type :=
| NextUnknown
| NextTypeError
| NextNull
| NextName (n : string).

Definition getNextState (currentState : option string) (availableStates : list TaskState)
  : NextState :=
  match findIndex currentState availableStates with
  | None => NextUnknown
  | Some currentIndex =>
      if bool_decide (S currentIndex = length availableStates) then NextNull
      else match availableStates !! S currentIndex with
           | Some s => NextName (name s)
           | None => NextTypeError
           end
  end.

(** [availableStates[availableStates.length - 1]!.name]; [None] is the
    [TypeError] of reading [name] off [undefined]. *)
Definition getFinalState (availableStates : list TaskState) : option string :=
  name <$> last availableStates.

Definition validateState (state : option string) (availableStates : list TaskState) : bool :=
  existsb (fun s => bool_decide (Some (name s) = state)) availableStates.

(** [availableStates[0]!.name] *)
Definition getDefaultState (availableStates : list TaskState) : option string :=
  name <$> head availableStates.

(* ===================================================================== *)
(** * The file system, the shared default object, and the effects *)
(* ===================================================================== *)

(** A parsed JSON document about which the types say nothing. *)
Inductive json : Type :=
| JNull
| JBool (b : bool)
| JNum (z : Z)
| JStr (s : string)
| JArr (l : list json)
| JObj (kv : list (string * json)).

(** What a file holds, by what [JSON.parse] makes of it. *)
Inductive FileContent : Type :=
| BadJson                          (* [JSON.parse] throws on it *)
| OtherJson (j : json)             (* some document written by another hand *)
| StorageJson (sf : StorageFile).  (* [JSON.stringify(sf, null, 2)] *)

(** A file is named by its directory and its name in it:
    [path.join(dir, file)]. *)
Definition path : Type := string * string.

(** The state the code runs in: the files, the directories, and the current
    contents of the one object every [UserStorage] hands out on a missing
    file, [DEFAULT_STORAGE_DATA]. *)
Record World : Type := mkWorld {
  files : gmap path FileContent;
  dirs  : gset string;
  DEFAULT_STORAGE_DATA : StorageFile
}.

Definition set_files (f : gmap path FileContent → gmap path FileContent) (w : World) : World :=
  mkWorld (f (files w)) (dirs w) (DEFAULT_STORAGE_DATA w).

Definition set_dirs (f : gset string → gset string) (w : World) : World :=
  mkWorld (files w) (f (dirs w)) (DEFAULT_STORAGE_DATA w).

Definition set_default (f : StorageFile → StorageFile) (w : World) : World :=
  mkWorld (files w) (dirs w) (f (DEFAULT_STORAGE_DATA w)).

Inductive Error : Type :=
| TaskNotFoundError (id : Z)
| TaskStateUnknownError (id : Z) (state : option string)
| NoFurtherStateError (id : Z)
| TaskIdDuplicatedError (id : Z)
| UnknownStateError (state : option string)  (* [Error(`Unknown state: ...`)] *)
| TypeError
| SyntaxError                 (* [JSON.parse] on text that is not JSON *)
| InvalidStructure            (* [Error('Invalid tasks.json structure')] *)
| ENOENT
| InitializeFailed            (* "Failed to initialize user storage" *)
| LoadFailed                  (* "Failed to load tasks" *)
| SaveFailed                  (* "Failed to save tasks" *)
| BackupFailed                (* "Failed to create backup" *)
| RestoreFailed               (* "Failed to restore from backup" *)
| NotAnITask                  (* the loaded document is outside [StorageFile] *)
| SharedSubtasks.             (* see [shares_subtasks] *)

Inductive Res (A : Type) : Type :=
| Ok (a : A)
| Throw (e : Error).
Arguments Ok {A} a.
Arguments Throw {A} e.

(** A computation reads and writes the world and returns or throws; what it
    wrote before throwing stays written. *)
Definition M (A : Type) : Type := World → World * Res A.

Definition ret {A} (a : A) : M A := fun w => (w, Ok a).
Definition throw {A} (e : Error) : M A := fun w => (w, Throw e).

Definition bind {A B} (m : M A) (k : A → M B) : M B :=
  fun w =>
    match m w with
    | (w', Ok a) => k a w'
    | (w', Throw e) => (w', Throw e)
    end.

Definition try_catch {A} (m : M A) (handler : Error → M A) : M A :=
  fun w =>
    match m w with
    | (w', Ok a) => (w', Ok a)
    | (w', Throw e) => handler e w'
    end.

Definition lift {A} (r : Res A) : M A := fun w => (w, r).
Definition get_world : M World := fun w => (w, Ok w).
Definition modify_world (f : World → World) : M unit := fun w => (f w, Ok tt).

Declare Scope js_scope.
Delimit Scope js_scope with js.
Notation "x <- m ;; k" := (bind m (fun x => k))
  (at level 100, m at next level, right associativity) : js_scope.
Notation "m ;;; k" := (bind m (fun _ => k))
  (at level 100, right associativity) : js_scope.
#[local] Open Scope js_scope.

(** [for (const x of l) body(x)] *)
Fixpoint for_of {A} (l : list A) (body : A → M unit) : M unit :=
  match l with
  | [] => ret tt
  | x :: r => body x ;;; for_of r body
  end.

(** ** fs.promises *)

Definition fs_mkdir (d : string) : M unit :=
  modify_world (set_dirs (fun ds => {[ d ]} ∪ ds)).

Definition fs_access (p : path) : M unit :=
  w <- get_world ;;
  match files w !! p with
  | Some _ => ret tt
  | None => throw ENOENT
  end.

Definition fs_readFile (p : path) : M FileContent :=
  w <- get_world ;;
  match files w !! p with
  | Some c => ret c
  | None => throw ENOENT
  end.

Definition fs_writeFile (p : path) (c : FileContent) : M unit :=
  w <- get_world ;;
  if bool_decide (p.1 ∈ dirs w)
  then modify_world (set_files (insert p c))
  else throw ENOENT.

Definition fs_rename (src dst : path) : M unit :=
  w <- get_world ;;
  match files w !! src with
  | Some c =>
      if bool_decide (dst.1 ∈ dirs w)
      then modify_world (set_files (fun fs => <[dst := c]> (delete src fs)))
      else throw ENOENT
  | None => throw ENOENT
  end.

Definition fs_copyFile (src dst : path) : M unit :=
  c <- fs_readFile src ;;
  fs_writeFile dst c.

Definition fs_unlink (p : path) : M unit :=
  w <- get_world ;;
  match files w !! p with
  | Some _ => modify_world (set_files (delete p))
  | None => throw ENOENT
  end.

(** The names in a directory, in the order the map enumerates them. *)
Definition dir_names (d : string) (w : World) : list string :=
  omap (fun kv => if bool_decide (kv.1.1 = d) then Some kv.1.2 else None)
       (map_to_list (files w)).

Definition fs_readdir (d : string) : M (list string) :=
  w <- get_world ;;
  if bool_decide (d ∈ dirs w) then ret (dir_names d w) else throw ENOENT.

(* ===================================================================== *)
(** * core/UserStorage.ts *)
(* ===================================================================== *)

(** What [loadStorage] hands to its caller: the shared default object
    itself, or a fresh object out of [JSON.parse]. *)
Inductive Handle : Type :=
| TheDefault
| Parsed (sf : StorageFile)
| ParsedOther (data : json).

(** Reading through the reference. *)
Definition deref (h : Handle) : M StorageFile :=
  match h with
  | TheDefault => w <- get_world ;; ret (DEFAULT_STORAGE_DATA w)
  | Parsed sf => ret sf
  | ParsedOther _ => throw NotAnITask
  end.

(** Mutating the object the reference points to. *)
Definition mutate (h : Handle) (f : StorageFile → StorageFile) : M Handle :=
  match h with
  | TheDefault => modify_world (set_default f) ;;; ret TheDefault
  | Parsed sf => ret (Parsed (f sf))
  | ParsedOther _ => throw NotAnITask
  end.

Definition set_datas (ds : list Task) (sf : StorageFile) : StorageFile :=
  mkStorageFile (meta sf) ds.

(** Property access on a parsed value other than [null]. *)
Definition get_prop (j : json) (k : string) : option json :=
  match j with
  | JObj kv => snd <$> List.find (fun e => String.eqb (fst e) k) kv
  | _ => None
  end.

Definition truthy (v : option json) : bool :=
  match v with
  | None | Some JNull | Some (JBool false) => false
  | Some (JNum z) => negb (z =? 0)
  | Some (JStr s) => negb (String.eqb s "")
  | Some _ => true
  end.

Definition Array_isArray (v : option json) : bool :=
  match v with Some (JArr _) => true | _ => false end.

(** [!data.meta || !data.datas || !Array.isArray(data.meta.states)
     || !Array.isArray(data.datas)] *)
Definition invalid_structure (data : json) : bool :=
  negb (truthy (get_prop data "meta"))
  || negb (truthy (get_prop data "datas"))
  || negb (Array_isArray (get_prop data "meta" ≫= fun m => get_prop m "states"))
  || negb (Array_isArray (get_prop data "datas")).

(** [iso.replace(/[:.]/g, '-')] *)
Fixpoint replace_colon_dot (s : string) : string :=
  match s with
  | EmptyString => EmptyString
  | String c r =>
      String (if Ascii.eqb c ":" || Ascii.eqb c "." then "-"%char else c)
             (replace_colon_dot r)
  end.

Definition backupName (iso : string) : string :=
  "tasks-" +:+ replace_colon_dot iso +:+ ".json".

Definition startsWith (s pre : string) : bool := String.prefix pre s.
Definition endsWith (s suf : string) : bool :=
  String.prefix (String.rev suf) (String.rev s).

(** The order of [Array.prototype.sort()] on strings. *)
Definition str_le (a b : string) : Prop := String.leb a b = true.

#[global] Instance str_le_dec a b : Decision (str_le a b).
Proof. unfold str_le. apply _. Defined.

Definition isBackupName (file : string) : bool :=
  startsWith file "tasks-" && endsWith file ".json".

Section UserStorage.
(** [constructor(userId)] *)
Variable userId : string.

Definition userDir : string := "users/" +:+ userId.
Definition tasksFile : path := (userDir, "tasks.json").
Definition backupDir : string := userDir +:+ "/.backups".
Definition tempFile : path := (userDir, "tasks.json.tmp").

Definition initialize : M unit :=
  try_catch
    (fs_mkdir userDir ;;;
     fs_mkdir backupDir ;;;
     try_catch (fs_access tasksFile)
       (fun _ =>
          w <- get_world ;;
          fs_writeFile tasksFile (StorageJson (DEFAULT_STORAGE_DATA w))))
    (fun _ => throw InitializeFailed).

Definition loadStorage : M Handle :=
  try_catch
    (fileContent <- fs_readFile tasksFile ;;
     match fileContent with
     | BadJson => throw SyntaxError
     | StorageJson sf => ret (Parsed sf)
     | OtherJson JNull => throw TypeError
     | OtherJson data =>
         if invalid_structure data then throw InvalidStructure
         else ret (ParsedOther data)
     end)
    (fun error =>
       match error with
       | ENOENT => initialize ;;; ret TheDefault
       | _ => throw LoadFailed
       end).

Definition saveStorage (data : StorageFile) : M unit :=
  try_catch
    (fs_mkdir userDir ;;;
     fs_mkdir backupDir ;;;
     fs_writeFile tempFile (StorageJson data) ;;;
     fs_rename tempFile tasksFile)
    (fun _ => throw SaveFailed).

(** [createBackup]; [iso] is what [new Date().toISOString()] returns. *)
Definition createBackup (iso : string) : M path :=
  try_catch
    (let backupFile := (backupDir, backupName iso) in
     try_catch
       (fs_copyFile tasksFile backupFile ;;; ret backupFile)
       (fun error =>
          match error with
          | ENOENT =>
              w <- get_world ;;
              fs_writeFile backupFile (StorageJson (DEFAULT_STORAGE_DATA w)) ;;;
              ret backupFile
          | _ => throw error
          end))
    (fun _ => throw BackupFailed).

Definition restoreFromBackup (backupPath : path) : M unit :=
  try_catch (fs_copyFile backupPath tasksFile) (fun _ => throw RestoreFailed).

Definition listBackups : M (list string) :=
  try_catch
    (fs <- fs_readdir backupDir ;;
     ret (reverse (merge_sort str_le (filter (fun file => isBackupName file) fs))))
    (fun _ => ret []).

Definition cleanupBackups (keepCount : nat) : M unit :=
  try_catch
    (backups <- listBackups ;;
     if bool_decide (keepCount < length backups)%nat
     then for_of (drop keepCount backups)
                 (fun backup => fs_unlink (backupDir, backup))
     else ret tt)
    (fun _ => ret tt).

Definition cleanupBackups_default : M unit := cleanupBackups 10.
End UserStorage.

(* ===================================================================== *)
(** * core/TaskManager.ts *)
(* ===================================================================== *)

(** ** The private helpers, on the forest in memory *)

(** [for (const x of l) { if (body(x) succeeds) return it }] *)
Fixpoint first_some {A B} (body : A → option B) (l : list A) : option B :=
  match l with
  | [] => None
  | x :: r =>
      match body x with
      | Some y => Some y
      | None => first_some body r
      end
  end.

(** The same loop when [body] mutates the element it succeeds on: the array
    afterwards, or [None] when no element was touched. *)
Fixpoint modify_first {A} (body : A → option A) (l : list A) : option (list A) :=
  match l with
  | [] => None
  | x :: r =>
      match body x with
      | Some x' => Some (x' :: r)
      | None => cons x <$> modify_first body r
      end
  end.

Definition with_subtasks (task : Task) (subs : option (list Task)) : Task :=
  mkTask (task_name task) (task_description task) (task_id task) subs
         (task_timestamp task) (task_state task) (task_priority task).

(** One turn of the loop of [findTaskById]. [None] is the
    [TaskNotFoundError] that the caller catches or lets through. *)
Fixpoint findInTask (id : Z) (task : Task) : option Task :=
  if bool_decide (task_id task = Some id) then Some task
  else match task_subtasks task with
       | Some subs => first_some (findInTask id) subs
       | None => None
       end.

Definition findTaskById (id : Z) (tasks : list Task) : option Task :=
  first_some (findInTask id) tasks.

(** [findTaskById] returns a reference into the forest and its callers
    mutate the task through it: [modifyTaskById id f tasks] is the forest
    after [f] has been applied in place to the task [findTaskById id tasks]
    returns, [None] when it throws. *)
Fixpoint modifyInTask (id : Z) (f : Task → Task) (task : Task) : option Task :=
  if bool_decide (task_id task = Some id) then Some (f task)
  else match task_subtasks task with
       | Some subs =>
           (fun subs' => with_subtasks task (Some subs'))
             <$> modify_first (modifyInTask id f) subs
       | None => None
       end.

Definition modifyTaskById (id : Z) (f : Task → Task) (tasks : list Task)
  : option (list Task) :=
  modify_first (modifyInTask id f) tasks.

(** [i = tasks.findIndex(t => t.id === targetId); if (i !== -1) tasks.splice(i, 1)] *)
Fixpoint splice_id (targetId : Z) (tasks : list Task) : option (list Task) :=
  match tasks with
  | [] => None
  | t :: r =>
      if bool_decide (task_id t = Some targetId) then Some r
      else cons t <$> splice_id targetId r
  end.

(** One turn of the loop of [removeFromSubtasks]; [None] is [false]. *)
Fixpoint removeInTask (targetId : Z) (task : Task) : option Task :=
  match task_subtasks task with
  | Some subs =>
      match splice_id targetId subs with
      | Some subs' => Some (with_subtasks task (Some subs'))
      | None =>
          (fun subs' => with_subtasks task (Some subs'))
            <$> modify_first (removeInTask targetId) subs
      end
  | None => None
  end.

Definition removeFromSubtasks (tasks : list Task) (targetId : Z) : option (list Task) :=
  modify_first (removeInTask targetId) tasks.

(** [applyUpdatesRecursive], for updates that carry no subtasks of their
    own to recurse into (see [shares_subtasks]). *)
Fixpoint applyUpdatesRecursive (updates : PartialTask) (task : Task) : Task :=
  let task' := Object_assign task updates in
  match p_subtasks updates with
  | Some _ => task'
  | None =>
      match task_subtasks task with
      | Some subs => with_subtasks task' (Some (map (applyUpdatesRecursive updates) subs))
      | None => task'
      end
  end.

(** Updates with a non-empty [subtasks] array put one and the same array
    into every task they are assigned to; the forest is then no longer a
    tree (and [applyUpdatesRecursive] does not return on it). *)
Definition shares_subtasks (updates : PartialTask) : bool :=
  match p_subtasks updates with
  | Some (Some (_ :: _)) => true
  | _ => false
  end.

(** [if (recursive && task.subtasks) this.applyUpdatesRecursive(task, updates);
     else Object.assign(task, updates)] *)
Definition apply_updates (updates : PartialTask) (recursive : bool) (task : Task) : Task :=
  if recursive && bool_decide (is_Some (task_subtasks task))
  then applyUpdatesRecursive updates task
  else Object_assign task updates.

(** [if (!parent.subtasks) parent.subtasks = []; parent.subtasks.push(task)] *)
Definition push_subtask (task : Task) (parent : Task) : Task :=
  with_subtasks parent (Some (default [] (task_subtasks parent) ++ [task])).

(** [taskData.id && !allIds.includes(taskData.id) ? taskData.id
     : generateTaskId(allIds)] *)
Definition choose_id (taskData : PartialTask) (allIds : list Z) : Z :=
  match prop (p_id taskData) with
  | Some i =>
      if truthy_num (Some i) && negb (includes allIds i) then i
      else generateTaskId allIds
  | None => generateTaskId allIds
  end.

(** [taskData.state || getDefaultState(storageData.meta.states)] *)
Definition state_or_default (taskData : PartialTask) (sts : list TaskState)
  : Res (option string) :=
  if truthy_str (prop (p_state taskData)) then Ok (prop (p_state taskData))
  else match getDefaultState sts with
       | Some s => Ok (Some s)
       | None => Throw TypeError
       end.

(** [{ id, name: taskData.name || 'Untitled Task', state: ...,
       timestamp: generateTimestamp(), ...taskData }] *)
Definition task_literal (id : Z) (now : string) (state0 : option string)
    (taskData : PartialTask) : Task :=
  mkTask (override (if truthy_str (prop (p_name taskData)) then prop (p_name taskData)
                    else Some "Untitled Task") (p_name taskData))
         (override None (p_description taskData))
         (override (Some id) (p_id taskData))
         (override None (p_subtasks taskData))
         (override (Some now) (p_timestamp taskData))
         (override state0 (p_state taskData))
         (override None (p_priority taskData)).

(** ** The public operations *)

Section TaskManager.
(** [constructor(storage)], with [storage = new UserStorage(userId)] *)
Variable userId : string.

(** [for (const x of l)] over a body that mutates [storageData]. *)
Fixpoint for_of_on (storageData : Handle) {A} (l : list A)
    (body : Handle → A → M Handle) : M Handle :=
  match l with
  | [] => ret storageData
  | x :: r => h <- body storageData x ;; for_of_on h r body
  end.

(** [addTask]; [now] is what [generateTimestamp()] returns. *)
Definition addTask (now : string) (taskData : PartialTask) (parentId : option Z) : M Z :=
  storageData <- loadStorage userId ;;
  sd <- deref storageData ;;
  let allIds := extractAllIds (datas sd) in
  let id := choose_id taskData allIds in
  state0 <- lift (state_or_default taskData (states (meta sd))) ;;
  let task := task_literal id now state0 taskData in
  if negb (validateState (task_state task) (states (meta sd)))
  then throw (TaskStateUnknownError id (task_state task))
  else
    h <- match parentId with
         | Some pid =>
             match modifyTaskById pid (push_subtask task) (datas sd) with
             | Some ds => mutate storageData (set_datas ds)
             | None => throw (TaskNotFoundError pid)
             end
         | None => mutate storageData (set_datas (datas sd ++ [task]))
         end ;;
    sd' <- deref h ;;
    saveStorage userId sd' ;;;
    ret id.

(** [editTask]. A call whose updates would put one array of subtasks into
    several tasks is not followed: it ends in [SharedSubtasks] at once. *)
Definition editTask (taskIds : list Z) (updates : PartialTask) (recursive : bool) : M unit :=
  if shares_subtasks updates then throw SharedSubtasks
  else
    storageData <- loadStorage userId ;;
    h <- for_of_on storageData taskIds (fun storageData taskId =>
           sd <- deref storageData ;;
           match findTaskById taskId (datas sd) with
           | None => throw (TaskNotFoundError taskId)
           | Some _ =>
               if truthy_str (prop (p_state updates))
                  && negb (validateState (prop (p_state updates)) (states (meta sd)))
               then throw (TaskStateUnknownError taskId (prop (p_state updates)))
               else
                 match modifyTaskById taskId (apply_updates updates recursive) (datas sd) with
                 | Some ds => mutate storageData (set_datas ds)
                 | None => throw (TaskNotFoundError taskId)
                 end
           end) ;;
    sd' <- deref h ;;
    saveStorage userId sd'.

Definition deleteTask (taskIds : list Z) : M unit :=
  storageData <- loadStorage userId ;;
  h <- for_of_on storageData taskIds (fun storageData taskId =>
         sd <- deref storageData ;;
         match splice_id taskId (datas sd) with
         | Some ds => mutate storageData (set_datas ds)
         | None =>
             match removeFromSubtasks (datas sd) taskId with
             | Some ds => mutate storageData (set_datas ds)
             | None => throw (TaskNotFoundError taskId)
             end
         end) ;;
  sd' <- deref h ;;
  saveStorage userId sd'.

Definition state_update (s : string) : PartialTask :=
  mkPartial None None None None None (Some (Some s)) None.

(** One turn of the loop of [incrementTask]. *)
Definition incrementTask_turn (storageData : Handle) (recursive : bool) (taskId : Z)
  : M unit :=
  sd <- deref storageData ;;
  match findTaskById taskId (datas sd) with
  | None => throw (TaskNotFoundError taskId)
  | Some task =>
      match getNextState (task_state task) (states (meta sd)) with
      | NextUnknown => throw (UnknownStateError (task_state task))
      | NextTypeError => throw TypeError
      | NextNull => throw (NoFurtherStateError taskId)
      | NextName nextState =>
          if negb (truthy_str (Some nextState))
          then throw (NoFurtherStateError taskId)
          else editTask [taskId] (state_update nextState) recursive
      end
  end.

Definition incrementTask (taskIds : list Z) (recursive : bool) : M unit :=
  storageData <- loadStorage userId ;;
  for_of taskIds (incrementTask_turn storageData recursive).

Definition completeTask (taskIds : list Z) (recursive : bool) : M unit :=
  storageData <- loadStorage userId ;;
  sd <- deref storageData ;;
  match getFinalState (states (meta sd)) with
  | None => throw TypeError
  | Some finalState => editTask taskIds (state_update finalState) recursive
  end.

(** One turn of the loop of [moveTask]; [storageData] is the object loaded
    before the loop. *)
Definition moveTask_turn (storageData : Handle) (newParentId : Z) (taskId : Z)
  : M unit :=
  sd <- deref storageData ;;
  match findTaskById taskId (datas sd) with
  | None => throw (TaskNotFoundError taskId)
  | Some task =>
      let taskCopy := task in
      deleteTask [taskId] ;;;
      updatedStorage <- loadStorage userId ;;
      usd <- deref updatedStorage ;;
      match modifyTaskById newParentId (push_subtask taskCopy) (datas usd) with
      | None => throw (TaskNotFoundError newParentId)
      | Some ds =>
          h <- mutate updatedStorage (set_datas ds) ;;
          usd' <- deref h ;;
          saveStorage userId usd'
      end
  end.

Definition moveTask (taskIds : list Z) (newParentId : Z) : M unit :=
  storageData <- loadStorage userId ;;
  sd <- deref storageData ;;
  match findTaskById newParentId (datas sd) with
  | None => throw (TaskNotFoundError newParentId)
  | Some _ => for_of taskIds (moveTask_turn storageData newParentId)
  end.

Definition getTask (taskId : Z) : M Task :=
  storageData <- loadStorage userId ;;
  sd <- deref storageData ;;
  match findTaskById taskId (datas sd) with
  | Some task => ret task
  | None => throw (TaskNotFoundError taskId)
  end.

Definition getAllTasks : M (list Task) :=
  storageData <- loadStorage userId ;;
  sd <- deref storageData ;;
  ret (datas sd).
End TaskManager.

(* ===================================================================== *)
(** * The rest of utils/stateManager.ts *)
(* ===================================================================== *)

(** [availableStates.find(state => state.name === stateName) || null] *)
Definition getStateInfo (stateName : option string) (availableStates : list TaskState)
  : option TaskState :=
  List.find (fun s => bool_decide (Some (name s) = stateName)) availableStates.

(** [stateName === getFinalState(availableStates)]; [None] is the
    [TypeError] of [getFinalState] on no state. *)
Definition isFinalState (stateName : option string) (availableStates : list TaskState)
  : option bool :=
  (fun finalState => bool_decide (stateName = Some finalState))
    <$> getFinalState availableStates.

(** [stateInfo?.icon || '?'] *)
Definition getStateIcon (stateName : option string) (availableStates : list TaskState)
  : string :=
  match getStateInfo stateName availableStates with
  | Some s => if String.eqb (icon s) "" then "?" else icon s
  | None => "?"
  end.

(* ===================================================================== *)
(** * The rest of core/UserStorage.ts *)
(* ===================================================================== *)

(** [isEmpty]: [storage.datas.length === 0], and [true] on any failure. *)
Definition isEmpty (userId : string) : M bool :=
  try_catch
    (storage <- loadStorage userId ;;
     match storage with
     | TheDefault =>
         w <- get_world ;; ret (bool_decide (datas (DEFAULT_STORAGE_DATA w) = []))
     | Parsed sf => ret (bool_decide (datas sf = []))
     | ParsedOther data =>
         match get_prop data "datas" with
         | Some (JArr l) => ret (bool_decide (l = []))
         | _ => throw TypeError
         end
     end)
    (fun _ => ret true).

(* ===================================================================== *)
(** * The rest of core/TaskManager.ts *)
(* ===================================================================== *)

(** [getSubtasks]: [parent.subtasks || []] *)
Definition getSubtasks (userId : string) (parentId : Z) : M (list Task) :=
  parent <- getTask userId parentId ;;
  ret (default [] (task_subtasks parent)).

Definition getMeta (userId : string) : M Meta :=
  storageData <- loadStorage userId ;;
  sd <- deref storageData ;;
  ret (meta sd).

(** ** searchTasks *)

(** [s.split(sep)] for a separator of one character: the pieces between
    the separators, empty ones included. *)
Fixpoint split_char (sep : ascii) (s : string) : list string :=
  match s with
  | EmptyString => [EmptyString]
  | String c r =>
      if Ascii.eqb c sep then EmptyString :: split_char sep r
      else match split_char sep r with
           | piece :: pieces => String c piece :: pieces
           | [] => [String c EmptyString]
           end
  end.

(** [s.includes(term)] *)
Fixpoint str_includes (s term : string) : bool :=
  String.prefix term s
  || match s with
     | EmptyString => false
     | String _ r => str_includes r term
     end.

(** [TaskSearchResult]: the task, the ids of the tasks above it from the
    root down, and the fields that matched. *)
Record TaskSearchResult : Type := mkSearchResult {
  result_task    : Task;
  result_path    : list (option Z);
  result_matches : list string
}.

Section searchTasks.
(** [String.prototype.toLowerCase] *)
Variable toLowerCase : string → string.

(** [query.toLowerCase().split(' ').filter(term => term.length > 0)] *)
Definition searchTerms (query : string) : list string :=
  List.filter (fun term => negb (String.eqb term "")) (split_char " " (toLowerCase query)).

(** [text && searchTerms.some(term => text.toLowerCase().includes(term))] *)
Definition some_term_in (terms : list string) (text : option string) : bool :=
  match text with
  | Some s => negb (String.eqb s "")
              && existsb (fun term => str_includes (toLowerCase s) term) terms
  | None => false
  end.

(** The [matches] array [searchInTask] builds for one task. *)
Definition matches_of (terms : list string) (includeDescriptions : bool) (task : Task)
  : list string :=
  (if some_term_in terms (task_name task) then ["name"] else [])
  ++ (if includeDescriptions && some_term_in terms (task_description task)
      then ["description"] else []).

(** [searchInTask(task, path)]: what it pushes onto [results]. *)
Fixpoint searchInTask (terms : list string) (includeDescriptions : bool)
    (path : list (option Z)) (task : Task) : list TaskSearchResult :=
  (match matches_of terms includeDescriptions task with
   | [] => []
   | matches => [mkSearchResult task path matches]
   end)
  ++ match task_subtasks task with
     | Some subs =>
         flat_map (searchInTask terms includeDescriptions (path ++ [task_id task])) subs
     | None => []
     end.

Definition searchTasks (userId : string) (query : string) (includeDescriptions : bool)
  : M (list TaskSearchResult) :=
  storageData <- loadStorage userId ;;
  sd <- deref storageData ;;
  ret (flat_map (searchInTask (searchTerms query) includeDescriptions []) (datas sd)).
End searchTasks.

(** ** getStats *)

(** A property of the [stats] object: a count, or the text that [+ 1] makes
    of a property inherited from [Object.prototype]. *)
Inductive StatValue : Type :=
| Count (n : nat)
| NotACount.

(** The properties every object literal inherits, other than [__proto__]. *)
Definition Object_prototype_keys : list string :=
  [ "constructor"; "hasOwnProperty"; "isPrototypeOf"; "propertyIsEnumerable";
    "toLocaleString"; "toString"; "valueOf";
    "__defineGetter__"; "__defineSetter__"; "__lookupGetter__"; "__lookupSetter__" ].

(** [stats[state] = (stats[state] || 0) + 1]. Writing a text to [__proto__]
    changes nothing. *)
Definition bump (stats : gmap string StatValue) (state : string) : gmap string StatValue :=
  if String.eqb state "__proto__" then stats
  else match stats !! state with
       | Some (Count n) => <[state := Count (S n)]> stats
       | Some NotACount => <[state := NotACount]> stats
       | None =>
           if bool_decide (state ∈ Object_prototype_keys)
           then <[state := NotACount]> stats
           else <[state := Count 1]> stats
       end.

(** [task.state || 'unknown'] *)
Definition state_or_unknown (task : Task) : string :=
  match task_state task with
  | Some s => if String.eqb s "" then "unknown" else s
  | None => "unknown"
  end.

(** [countInTask]: the [stats] object and [totalTasks] after it. *)
Fixpoint countInTask (acc : gmap string StatValue * nat) (task : Task)
  : gmap string StatValue * nat :=
  let acc' := (bump acc.1 (state_or_unknown task), S acc.2) in
  match task_subtasks task with
  | Some subs => fold_left countInTask subs acc'
  | None => acc'
  end.

Definition getStats (userId : string) : M (gmap string StatValue) :=
  storageData <- loadStorage userId ;;
  sd <- deref storageData ;;
  let '(stats, totalTasks) := fold_left countInTask (datas sd) (∅, O) in
  ret (<["total" := Count totalTasks]> stats).

(* ===================================================================== *)
(** * core/UserConfig.ts *)
(* ===================================================================== *)

(** [this.config]: the own properties of the object. A key that holds
    [undefined] is not represented; the callers give none. *)
Abbreviation Config := (gmap string json) (only parsing).

Definition DEFAULT_USER_CONFIG : Config := {[ "hideCompleted" := JBool false ]}.

Inductive ConfigError : Type :=
| Raised (e : Error)              (* an error of the file system or of JSON *)
| FailedToLoadConfig
| FailedToSaveConfig
| FailedToInitializeConfig.

Inductive ResC (A : Type) : Type :=
| OkC (a : A)
| ThrowC (e : ConfigError).
Arguments OkC {A} a.
Arguments ThrowC {A} e.

(** A method of a [UserConfig]: it reads and writes [this.config] and the
    world, and returns or throws; both keep what was written before a
    throw. *)
Definition MC (A : Type) : Type := Config → World → (Config * World) * ResC A.

Definition retC {A} (a : A) : MC A := fun c w => ((c, w), OkC a).
Definition throwC {A} (e : ConfigError) : MC A := fun c w => ((c, w), ThrowC e).

Definition bindC {A B} (m : MC A) (k : A → MC B) : MC B :=
  fun c w =>
    match m c w with
    | ((c', w'), OkC a) => k a c' w'
    | ((c', w'), ThrowC e) => ((c', w'), ThrowC e)
    end.

Definition try_catchC {A} (m : MC A) (handler : ConfigError → MC A) : MC A :=
  fun c w =>
    match m c w with
    | ((c', w'), OkC a) => ((c', w'), OkC a)
    | ((c', w'), ThrowC e) => handler e c' w'
    end.

(** A call into the file system. *)
Definition fsC {A} (m : M A) : MC A :=
  fun c w =>
    match m w with
    | (w', Ok a) => ((c, w'), OkC a)
    | (w', Throw e) => ((c, w'), ThrowC (Raised e))
    end.

Definition get_config : MC Config := fun c w => ((c, w), OkC c).
Definition set_config (c' : Config) : MC unit := fun _ w => ((c', w), OkC tt).

Declare Scope config_scope.
Delimit Scope config_scope with config.
Notation "x <- m ;; k" := (bindC m (fun x => k))
  (at level 100, m at next level, right associativity) : config_scope.
Notation "m ;;; k" := (bindC m (fun _ => k))
  (at level 100, right associativity) : config_scope.

(** The own enumerable properties a spread [...v] copies. *)
Definition spread (v : option json) : Config :=
  match v with
  | Some (JObj kv) => list_to_map kv
  | Some (JArr l) => list_to_map (imap (fun i x => (pretty i, x)) l)
  | Some (JStr s) =>
      list_to_map (imap (fun i ch => (pretty i, JStr (String ch EmptyString)))
                        (list_ascii_of_string s))
  | _ => ∅
  end.

Definition isConfigBackupName (file : string) : bool :=
  startsWith file "config-" && endsWith file ".json".

(** [`config-${Date.now()}.json`] *)
Definition configBackupName (millis : N) : string :=
  "config-" +:+ pretty millis +:+ ".json".

(** [JSON.stringify({ version: '1.0', config, updatedAt }, null, 2)] *)
Definition configDocument (config : Config) (updatedAt : string) : FileContent :=
  OtherJson (JObj [ ("version", JStr "1.0");
                    ("config", JObj (map_to_list config));
                    ("updatedAt", JStr updatedAt) ]).

Section UserConfig.
(** [constructor(userId)] *)
Variable userId : string.

Definition configFile : path := (userDir userId, "config.json").
Definition configTempFile : path := (userDir userId, "config.json.tmp").

(** [loadConfig] *)
Definition loadConfig : MC unit :=
  try_catchC
    (fileContent <- fsC (fs_readFile configFile) ;;
     match fileContent with
     | BadJson => throwC (Raised SyntaxError)
     | OtherJson JNull => throwC (Raised TypeError)
     | OtherJson configData =>
         set_config (spread (get_prop configData "config") ∪ DEFAULT_USER_CONFIG)
     | StorageJson _ => set_config (spread None ∪ DEFAULT_USER_CONFIG)
     end)%config
    (fun _ => throwC FailedToLoadConfig).

(** The private [cleanupBackups]: all but the five greatest names go. *)
Definition cleanupConfigBackups : MC unit :=
  try_catchC
    (files <- fsC (fs_readdir (backupDir userId)) ;;
     let configBackups :=
       reverse (merge_sort str_le (filter (fun f => isConfigBackupName f) files)) in
     fsC (for_of (drop 5 configBackups)
                 (fun backupFile => fs_unlink (backupDir userId, backupFile))))%config
    (fun _ => retC tt).

(** [saveConfig]; [now] is what [generateTimestamp()] returns and [millis]
    what [Date.now()] returns. *)
Definition saveConfig (now : string) (millis : N) : MC unit :=
  try_catchC
    (config <- get_config ;;
     let configData := configDocument config now in
     try_catchC
       (fsC (fs_access configFile) ;;;
        fsC (fs_copyFile configFile (backupDir userId, configBackupName millis)))
       (fun _ => retC tt) ;;;
     fsC (fs_writeFile configTempFile configData) ;;;
     fsC (fs_rename configTempFile configFile) ;;;
     cleanupConfigBackups)%config
    (fun _ => throwC FailedToSaveConfig).

(** [initialize] of a [UserConfig] *)
Definition initializeConfig (now : string) (millis : N) : MC unit :=
  try_catchC
    (fsC (fs_mkdir (userDir userId)) ;;;
     fsC (fs_mkdir (backupDir userId)) ;;;
     try_catchC loadConfig (fun _ => saveConfig now millis))%config
    (fun _ => throwC FailedToInitializeConfig).

(** [getConfig]: a copy of [this.config] *)
Definition getConfig : MC Config := get_config.

(** [updateConfig]; the updates are the keys that hold a value. *)
Definition updateConfig (updates : Config) (now : string) (millis : N) : MC unit :=
  (config <- get_config ;;
   set_config (updates ∪ config) ;;;
   saveConfig now millis)%config.

(** [get hideCompleted] *)
Definition hideCompleted : MC (option json) :=
  (config <- get_config ;; retC (config !! "hideCompleted"))%config.

Definition setHideCompleted (value : bool) (now : string) (millis : N) : MC unit :=
  updateConfig {[ "hideCompleted" := JBool value ]} now millis.

Definition toggleHideCompleted (now : string) (millis : N) : MC bool :=
  (config <- get_config ;;
   let newValue := negb (truthy (config !! "hideCompleted")) in
   setHideCompleted newValue now millis ;;;
   retC newValue)%config.

Definition resetToDefaults (now : string) (millis : N) : MC unit :=
  (set_config DEFAULT_USER_CONFIG ;;;
   saveConfig now millis)%config.
End UserConfig.

(* ===================================================================== *)
(** * The Telegram utilities: escaping and splitting *)
(* ===================================================================== *)

(** A string is the sequence of its UTF-16 code units, here below 256. *)

Definition backslash : ascii := "092"%char.
Definition newline : ascii := "010"%char.

Definition one_of (chars : string) (c : ascii) : bool :=
  existsb (Ascii.eqb c) (list_ascii_of_string chars).

(** The class of [/[_*[\]()~`>#+=|{}.!-]/]. *)
Definition markdownV2_special : ascii → bool := one_of "_*[]()~`>#+=|{}.!-".

(** The class of [/[_*[\]()~`]/]. *)
Definition markdown_special : ascii → bool := one_of "_*[]()~`".

(** [text.replace(/[class]/g, '\\$&')]: a backslash before every match. *)
Fixpoint escape_matches (special : ascii → bool) (text : string) : string :=
  match text with
  | EmptyString => EmptyString
  | String c r =>
      if special c then String backslash (String c (escape_matches special r))
      else String c (escape_matches special r)
  end.

Definition escapeMarkdownV2 (text : string) : string :=
  escape_matches markdownV2_special text.

Definition escapeMarkdown (text : string) : string :=
  escape_matches markdown_special text.

(** [WhiteSpace] and [LineTerminator] below 256. *)
Definition is_space (c : ascii) : bool :=
  let n := nat_of_ascii c in
  bool_decide (9 ≤ n ≤ 13)%nat || bool_decide (n = 32%nat) || bool_decide (n = 160%nat).

Fixpoint trimStart (s : string) : string :=
  match s with
  | EmptyString => EmptyString
  | String c r => if is_space c then trimStart r else s
  end.

Definition trimEnd (s : string) : string := String.rev (trimStart (String.rev s)).

(** [s.trim()] *)
Definition trim (s : string) : string := trimEnd (trimStart s).

(** [s.length] *)
Definition js_length (s : string) : Z := Z.of_nat (String.length s).

(** [if (s)] on a string *)
Definition nonempty (s : string) : bool := negb (String.eqb s "").

(** [word.substring(0, n)]: a negative [n] counts as 0. *)
Definition substring_to (n : Z) (word : string) : string :=
  substring 0 (Z.to_nat n) word.

(** [if (current) { parts.push(current.trim()) }] *)
Definition push_trimmed (parts : list string) (current : string) : list string :=
  if nonempty current then parts ++ [trim current] else parts.

(** One turn of the loop over the words of a line that is too long: the
    array [parts] and [currentLine] after it. *)
Definition word_step (maxLength : Z) (acc : list string * string) (word : string)
  : list string * string :=
  let '(parts, currentLine) := acc in
  if js_length currentLine + js_length word + 1 >? maxLength
  then (push_trimmed parts currentLine
          ++ [if js_length word >? maxLength
              then substring_to (maxLength - 3) word +:+ "..."
              else word],
        EmptyString)
  else (parts,
        currentLine +:+ (if nonempty currentLine then " " else "") +:+ word).

(** One turn of the loop over the lines: the array [parts] and
    [currentPart] after it. *)
Definition line_step (maxLength : Z) (acc : list string * string) (line : string)
  : list string * string :=
  let '(parts, currentPart) := acc in
  if js_length currentPart + js_length line + 1 >? maxLength
  then
    let parts' := push_trimmed parts currentPart in
    if js_length line >? maxLength
    then fold_left (word_step maxLength) (split_char " " line) (parts', EmptyString)
    else (parts', line)
  else (parts,
        currentPart +:+ (if nonempty currentPart then String newline EmptyString else "")
        +:+ line).

Definition splitLongMessage (text : string) (maxLength : Z) : list string :=
  if js_length text <=? maxLength then [text]
  else
    let '(parts, currentPart) :=
      fold_left (line_step maxLength) (split_char newline text) ([], EmptyString) in
    match push_trimmed parts currentPart with
    | [] => [EmptyString]
    | parts' => parts'
    end.

(** [maxLength = 4000] when the caller gives none. *)
Definition splitLongMessage_default (text : string) : list string :=
  splitLongMessage text 4000.

(* ===================================================================== *)
(** * Vocabulary of the properties *)
(* ===================================================================== *)

(** [r] is the smallest non-negative integer that [l] does not hold. *)
Definition least_unused (l : list Z) (r : Z) : Prop :=
  0 ≤ r ∧ (r ∉ l) ∧ (∀ k, 0 ≤ k < r → k ∈ l).

(** The forest has no two tasks with the same id, at any depth. *)
Definition unique_ids (tasks : list Task) : Prop := NoDup (extractAllIds tasks).

(** [d] is [t] or one of the tasks nested in it; [d] is a node of the forest. *)
Inductive subtask_of (d : Task) : Task → Prop :=
| subtask_here : subtask_of d d
| subtask_below c t subs :
    task_subtasks t = Some subs → c ∈ subs → subtask_of d c → subtask_of d t.

Definition in_forest (d : Task) (tasks : list Task) : Prop :=
  ∃ t, t ∈ tasks ∧ subtask_of d t.

(** The file of tasks of a user holds the typed document [sf]. *)
Definition stored (userId : string) (sf : StorageFile) (w : World) : Prop :=
  files w !! tasksFile userId = Some (StorageJson sf).

(** The user has a stored forest, and no two of its tasks share an id. *)
Definition stored_unique (userId : string) (w : World) : Prop :=
  ∃ sf, stored userId sf w ∧ unique_ids (datas sf).

(** [k] calls of [incrementTask] on one id, one after the other. *)
Fixpoint increments (userId : string) (taskId : Z) (recursive : bool) (k : nat) : M unit :=
  match k with
  | O => ret tt
  | S k' => increments userId taskId recursive k' ;;; incrementTask userId [taskId] recursive
  end.

(** The world once [saveStorage userId data] has run in [w]. *)
Definition after_save (userId : string) (data : StorageFile) (w : World) : World :=
  mkWorld
    (<[tasksFile userId := StorageJson data]>
       (delete (tempFile userId) (<[tempFile userId := StorageJson data]> (files w))))
    ({[ backupDir userId ]} ∪ ({[ userDir userId ]} ∪ dirs w))
    (DEFAULT_STORAGE_DATA w).

(** A loop over a forest held in a fresh object, as a fold that stops at the
    first throw. *)
Fixpoint fold_res {A S} (step : S → A → Res S) (l : list A) (s : S) : Res S :=
  match l with
  | [] => Ok s
  | x :: r =>
      match step s x with
      | Ok s' => fold_res step r s'
      | Throw e => Throw e
      end
  end.

(** [addTask] on the forest: the id returned and the forest to save. *)
Definition add_step (now : string) (taskData : PartialTask) (parentId : option Z)
    (sf : StorageFile) : Res (Z * list Task) :=
  let id := choose_id taskData (extractAllIds (datas sf)) in
  match state_or_default taskData (states (meta sf)) with
  | Throw e => Throw e
  | Ok state0 =>
      let task := task_literal id now state0 taskData in
      if negb (validateState (task_state task) (states (meta sf)))
      then Throw (TaskStateUnknownError id (task_state task))
      else match parentId with
           | Some pid =>
               match modifyTaskById pid (push_subtask task) (datas sf) with
               | Some ds => Ok (id, ds)
               | None => Throw (TaskNotFoundError pid)
               end
           | None => Ok (id, datas sf ++ [task])
           end
  end.

(** One turn of the loop of [editTask] on the forest. *)
Definition edit_step (sts : list TaskState) (updates : PartialTask) (recursive : bool)
    (tasks : list Task) (taskId : Z) : Res (list Task) :=
  match findTaskById taskId tasks with
  | None => Throw (TaskNotFoundError taskId)
  | Some _ =>
      if truthy_str (prop (p_state updates))
         && negb (validateState (prop (p_state updates)) sts)
      then Throw (TaskStateUnknownError taskId (prop (p_state updates)))
      else match modifyTaskById taskId (apply_updates updates recursive) tasks with
           | Some ds => Ok ds
           | None => Throw (TaskNotFoundError taskId)
           end
  end.

(** One turn of the loop of [deleteTask] on the forest. *)
Definition delete_step (tasks : list Task) (taskId : Z) : Res (list Task) :=
  match splice_id taskId tasks with
  | Some ds => Ok ds
  | None =>
      match removeFromSubtasks tasks taskId with
      | Some ds => Ok ds
      | None => Throw (TaskNotFoundError taskId)
      end
  end.


(** The errors a batch that holds an unknown id can end in. *)
Definition unknown_id_failure (sts : list TaskState) (taskIds : list Z)
    (updates : PartialTask) (e : Error) : Prop :=
  match e with
  | TaskNotFoundError i => i ∈ taskIds
  | TaskStateUnknownError i s =>
      i ∈ taskIds ∧ s = prop (p_state updates)
      ∧ truthy_str s = true ∧ validateState s sts = false
  | _ => False
  end.

(** ** Sample data for the concrete runs *)

Definition sample_task (i : Z) (st : string) : Task :=
  mkTask (Some "task") None (Some i) None (Some "01/01/2024") (Some st) None.

Definition sample_node (i : Z) (st : string) (subs : list Task) : Task :=
  mkTask (Some "task") None (Some i) (Some subs) (Some "01/01/2024") (Some st) None.

(** A user whose directories exist and whose file holds the forest [ds]. *)
Definition sample_world (userId : string) (sts : list TaskState) (ds : list Task) : World :=
  mkWorld {[ tasksFile userId := StorageJson (mkStorageFile (mkMeta sts) ds) ]}
          {[ userDir userId; backupDir userId ]}
          DEFAULT_STORAGE_DATA_init.

(** A process that has just started and has no user yet. *)
Definition fresh_world : World := mkWorld ∅ ∅ DEFAULT_STORAGE_DATA_init.

Definition with_id (i : Z) (taskData : PartialTask) : PartialTask :=
  mkPartial (p_name taskData) (p_description taskData) (Some (Some i))
            (p_subtasks taskData) (p_timestamp taskData) (p_state taskData)
            (p_priority taskData).

Definition named (s : string) : PartialTask :=
  mkPartial (Some (Some s)) None None None None None None.

(** ** Vocabulary of the further properties *)

(** Every task of the forest, a task before its subtasks. *)
Fixpoint all_of_task (task : Task) : list Task :=
  task :: match task_subtasks task with
          | Some subs => flat_map all_of_task subs
          | None => []
          end.

Definition all_tasks (tasks : list Task) : list Task := flat_map all_of_task tasks.

(** [d] sits in the tree of [t], under the tasks whose ids are [p], from
    [t] down to the task that holds [d]. *)
Inductive located (d : Task) : list (option Z) → Task → Prop :=
| located_here : located d [] d
| located_below t subs c p :
    task_subtasks t = Some subs → c ∈ subs → located d p c →
    located d (task_id t :: p) t.

(** The names of the backups of the configuration, the greatest first. *)
Definition configBackups (userId : string) (w : World) : list string :=
  reverse (merge_sort str_le
             (filter (fun f => isConfigBackupName f) (dir_names (backupDir userId) w))).

(** A lower-casing of the letters A to Z, for the concrete runs. *)
Definition ascii_lower (s : string) : string :=
  string_of_list_ascii
    (map (fun c => let n := nat_of_ascii c in
                   if bool_decide (65 ≤ n ≤ 90)%nat then ascii_of_nat (n + 32) else c)
         (list_ascii_of_string s)).

(** How [getStats] shows that [c] tasks are in a state: no property when
    there is none, the count otherwise. *)
Definition as_stat (c : nat) : option StatValue :=
  match c with
  | O => None
  | S _ => Some (Count c)
  end.

(** The tasks of the forest that [getStats] counts under [s]. *)
Definition tasks_in_state (s : string) (tasks : list Task) : list Task :=
  filter (fun t => state_or_unknown t = s) (all_tasks tasks).

(** What [countInTask] does for one task before it turns to the subtasks. *)
Definition count_step (acc : gmap string StatValue * nat) (task : Task)
  : gmap string StatValue * nat :=
  (bump acc.1 (state_or_unknown task), S acc.2).


(** A task with a name of its own, for the concrete searches. *)
Definition titled (i : Z) (title : string) (subs : option (list Task)) : Task :=
  mkTask (Some title) None (Some i) subs (Some "01/01/2024") (Some "todo") None.

(** The world once [saveConfig] has copied [old], the configuration file it
    found, to the backup named after [millis]. *)
Definition with_config_backup (userId : string) (millis : N) (old : option FileContent)
    (w : World) : World :=
  match old with
  | Some c => set_files (insert (backupDir userId, configBackupName millis) c) w
  | None => w
  end.

(** Reading an escaped text back: a backslash that stands before a
    character of the class is dropped. *)
Fixpoint unescape (special : ascii → bool) (text : string) : string :=
  match text with
  | EmptyString => EmptyString
  | String c r =>
      match r with
      | String d r' =>
          if Ascii.eqb c backslash && special d
          then String d (unescape special r')
          else String c (unescape special r)
      | EmptyString => text
      end
  end.

(** The number of characters of the class in a text. *)
Fixpoint count_matches (special : ascii → bool) (text : string) : nat :=
  match text with
  | EmptyString => O
  | String c r => ((if special c then 1 else 0) + count_matches special r)%nat
  end.

(* ===================================================================== *)
(** * Properties of the id allocator *)
(* ===================================================================== *)

Lemma includes_spec l x : includes l x = true ↔ x ∈ l.
Proof. unfold includes. apply bool_decide_eq_true. Qed.

Lemma includes_false l x : includes l x = false ↔ x ∉ l.
Proof. unfold includes. apply bool_decide_eq_false. Qed.

Lemma fold_left_max_spec (r : list Z) (x : Z) :
  (fold_left Z.max r x = x ∨ fold_left Z.max r x ∈ r)
  ∧ x ≤ fold_left Z.max r x
  ∧ ∀ y, y ∈ r → y ≤ fold_left Z.max r x.
Proof.
  revert x. induction r as [|a r IH]; intros x; simpl.
  - split; [by left|]. split; [lia|]. intros y Hy. by apply elem_of_nil in Hy.
  - destruct (IH (Z.max x a)) as (Hm & Hle & Hall). split; [|split].
    + destruct Hm as [Hm|Hm].
      * rewrite Hm. destruct (Z.max_spec x a) as [[_ E]|[_ E]]; rewrite E.
        -- right. apply list_elem_of_here.
        -- by left.
      * right. by apply list_elem_of_further.
    + lia.
    + intros y Hy. apply elem_of_cons in Hy as [->|Hy]; [lia|by apply Hall].
Qed.

Lemma Math_max_spec (l : list Z) (m : Z) :
  Math_max l = Some m → m ∈ l ∧ ∀ y, y ∈ l → y ≤ m.
Proof.
  destruct l as [|x r]; simpl; [done|]. intros [= <-].
  destruct (fold_left_max_spec r x) as (Hm & Hle & Hall). split.
  - destruct Hm as [->|Hm]; [apply list_elem_of_here|by apply list_elem_of_further].
  - intros y Hy. apply elem_of_cons in Hy as [->|Hy]; [done|by apply Hall].
Qed.

(** What the loop returns is unused, and everything it stepped over is used. *)
Lemma scan_gap_Some fuel l id r :
  scan_gap fuel l id = Some r →
  id ≤ r ∧ (r ∉ l) ∧ (∀ k, id ≤ k < r → k ∈ l).
Proof.
  revert id. induction fuel as [|fuel IH]; intros id; simpl; [done|].
  destruct (includes l id) eqn:E.
  - intros H. apply IH in H as (Hle & Hr & Hk). split; [lia|]. split; [done|].
    intros k Hk'. destruct (decide (k = id)) as [->|]; [by apply includes_spec|].
    apply Hk. lia.
  - intros [= <-]. split; [lia|]. split; [by apply includes_false|]. lia.
Qed.

(** When the tests are used up, every one of them found its id in use. *)
Lemma scan_gap_None fuel l id :
  scan_gap fuel l id = None → ∀ k, id ≤ k < id + Z.of_nat fuel → k ∈ l.
Proof.
  revert id. induction fuel as [|fuel IH]; intros id; simpl; [lia|].
  destruct (includes l id) eqn:E; [|done].
  intros H k Hk. destruct (decide (k = id)) as [->|]; [by apply includes_spec|].
  apply (IH _ H). lia.
Qed.

(** The loop of [generateTaskId] ends within [length l + 1] tests. *)
Lemma scan_gap_enough (l : list Z) (id : Z) :
  is_Some (scan_gap (S (length l)) l id).
Proof.
  destruct (scan_gap (S (length l)) l id) eqn:E; [by eexists|]. exfalso.
  pose proof (scan_gap_None _ _ _ E) as Hall.
  assert (Hsub : seqZ id (Z.of_nat (S (length l))) ⊆+ l).
  { apply NoDup_submseteq; [apply NoDup_seqZ|].
    intros x Hx. apply elem_of_seqZ in Hx. apply Hall. lia. }
  apply submseteq_length in Hsub. rewrite length_seqZ in Hsub. lia.
Qed.

Lemma scan_gap_more_fuel fuel fuel' l id r :
  scan_gap fuel l id = Some r → (fuel ≤ fuel')%nat → scan_gap fuel' l id = Some r.
Proof.
  revert fuel' id. induction fuel as [|fuel IH]; intros fuel' id; simpl; [done|].
  intros H Hle. destruct fuel' as [|fuel']; [lia|]. simpl.
  destruct (includes l id); [|done]. apply IH; [done|lia].
Qed.

(** A list without repetition that stays within [0 .. length - 1] holds
    every one of these numbers. *)
Lemma full_range (l : list Z) :
  NoDup l → (∀ x, x ∈ l → 0 ≤ x < Z.of_nat (length l)) →
  ∀ k, 0 ≤ k < Z.of_nat (length l) → k ∈ l.
Proof.
  intros Hnd Hrange k Hk.
  assert (Hsub : l ⊆+ seqZ 0 (Z.of_nat (length l))).
  { apply NoDup_submseteq; [done|]. intros x Hx. apply elem_of_seqZ.
    specialize (Hrange x Hx). lia. }
  apply submseteq_length_Permutation in Hsub.
  - rewrite Hsub. apply elem_of_seqZ. lia.
  - rewrite length_seqZ. lia.
Qed.

Lemma least_unused_unique l r r' : least_unused l r → least_unused l r' → r = r'.
Proof.
  intros (H0 & Hr & Hk) (H0' & Hr' & Hk').
  destruct (Z.lt_trichotomy r r') as [Hlt|[->|Hlt]]; [|done|].
  - exfalso. apply Hr. apply Hk'. lia.
  - exfalso. apply Hr'. apply Hk. lia.
Qed.

(** Whatever the array holds, the id returned is not in it. *)
Lemma generateTaskId_fresh (l : list Z) : generateTaskId l ∉ l.
Proof.
  unfold generateTaskId. case_bool_decide as Hlen.
  - destruct l; [apply not_elem_of_nil|done].
  - case_bool_decide as Hmax.
    + intros Hin. apply Math_max_spec in Hmax as [_ Hall].
      specialize (Hall _ Hin). lia.
    + destruct (scan_gap_enough l 0) as [r Hr]. rewrite Hr. simpl.
      by apply scan_gap_Some in Hr as (_ & ? & _).
Qed.

(** C6: on a duplicate-free list of non-negative integers [generateTaskId]
    returns the smallest non-negative integer that is not in the list: [0]
    on the empty list, [n] on a permutation of [0 .. n-1], the lowest gap
    otherwise. *)
Theorem generateTaskId_least_unused (l : list Z) :
  NoDup l → (∀ x, x ∈ l → 0 ≤ x) →
  least_unused l (generateTaskId l)
  ∧ (l = [] → generateTaskId l = 0)
  ∧ (∀ n : nat, l ≡ₚ seqZ 0 (Z.of_nat n) → generateTaskId l = Z.of_nat n)
  ∧ (∀ g, 0 ≤ g → g ∉ l → (∀ k, 0 ≤ k < g → k ∈ l) → generateTaskId l = g).
Proof.
  intros Hnd Hpos.
  assert (Hleast : least_unused l (generateTaskId l)).
  { split; [|split; [apply generateTaskId_fresh|]].
    - unfold generateTaskId. case_bool_decide; [lia|]. case_bool_decide; [lia|].
      destruct (scan_gap_enough l 0) as [r Hr]. rewrite Hr. simpl.
      by apply scan_gap_Some in Hr as (? & _ & _).
    - unfold generateTaskId. case_bool_decide as Hlen; [lia|].
      case_bool_decide as Hmax.
      + apply Math_max_spec in Hmax as [_ Hall]. apply full_range; [done|].
        intros x Hx. specialize (Hall x Hx). specialize (Hpos x Hx). lia.
      + destruct (scan_gap_enough l 0) as [r Hr]. rewrite Hr. simpl.
        by apply scan_gap_Some in Hr as (_ & _ & ?). }
  split; [done|]. split; [by intros ->|]. split.
  - intros n Hperm. apply (least_unused_unique l); [done|].
    split; [lia|]. split.
    + rewrite Hperm, elem_of_seqZ. lia.
    + intros k Hk. rewrite Hperm, elem_of_seqZ. lia.
  - intros g Hg Hnot Hbelow. apply (least_unused_unique l); [done|]. by split.
Qed.

Lemma generateTaskId_least_unused_witness :
  NoDup [0; 3; 1] ∧ generateTaskId [0; 3; 1] = 2.
Proof.
  assert (Hnd : NoDup [0; 3; 1]) by (apply (bool_decide_unpack _); vm_compute; exact I).
  assert (Hpos : ∀ x, x ∈ [0; 3; 1] → 0 ≤ x).
  { apply Forall_forall. repeat constructor; lia. }
  split; [exact Hnd|].
  destruct (generateTaskId_least_unused [0; 3; 1] Hnd Hpos) as (_ & _ & _ & Hgap).
  apply Hgap; [lia| |].
  - apply (bool_decide_unpack _). vm_compute. exact I.
  - intros k Hk. apply (bool_decide_unpack _).
    assert (k = 0 ∨ k = 1) as [-> | ->] by lia; vm_compute; exact I.
Defined.

(* ===================================================================== *)
(** * Properties of the storage engine *)
(* ===================================================================== *)

Ltac run := unfold bind, try_catch, ret, throw, get_world, modify_world in *; simpl in *.

Lemma tempFile_neq_tasksFile u : tempFile u ≠ tasksFile u.
Proof. unfold tempFile, tasksFile. intros [=]. Qed.

(** On a file that holds a typed document, [loadStorage] parses it into a
    fresh object and touches nothing. *)
Lemma loadStorage_stored u sf w :
  stored u sf w → loadStorage u w = (w, Ok (Parsed sf)).
Proof.
  unfold stored, loadStorage, fs_readFile. intros H. run. by rewrite H.
Qed.

(** [saveStorage] does not fail: it makes the two directories, writes the
    temporary file and renames it over the file of tasks. *)
Lemma saveStorage_run u data w :
  saveStorage u data w = (after_save u data w, Ok tt).
Proof.
  unfold saveStorage, fs_mkdir, fs_writeFile, fs_rename. run.
  rewrite bool_decide_eq_true_2 by set_solver. simpl.
  rewrite lookup_insert_eq. simpl.
  rewrite bool_decide_eq_true_2 by set_solver. done.
Qed.

Lemma after_save_stored u data w : stored u data (after_save u data w).
Proof. unfold stored, after_save. simpl. apply lookup_insert_eq. Qed.

(** A loop whose turns only compute on a fresh object is the fold of its
    turns; the world is not touched. *)
Lemma for_of_on_parsed {A} (step : Meta → list Task → A → Res (list Task))
    (body : Handle → A → M Handle) (l : list A) :
  (∀ sf a w, body (Parsed sf) a w =
     match step (meta sf) (datas sf) a with
     | Ok ds => (w, Ok (Parsed (set_datas ds sf)))
     | Throw e => (w, Throw e)
     end) →
  ∀ sf w, for_of_on (Parsed sf) l body w =
    match fold_res (step (meta sf)) l (datas sf) with
    | Ok ds => (w, Ok (Parsed (set_datas ds sf)))
    | Throw e => (w, Throw e)
    end.
Proof.
  intros Hbody. induction l as [|a l IH]; intros sf w; simpl.
  - unfold ret. by destruct sf.
  - unfold bind. rewrite Hbody. destruct (step (meta sf) (datas sf) a) as [ds|e]; [|done].
    rewrite IH. simpl. by destruct (fold_res (step (meta sf)) l ds).
Qed.

(** [editTask] on a stored forest: the fold of [edit_step], saved when it
    went through, and no trace of it when it did not. *)
Lemma editTask_stored u sf w taskIds updates recursive :
  stored u sf w → shares_subtasks updates = false →
  editTask u taskIds updates recursive w =
    match fold_res (edit_step (states (meta sf)) updates recursive) taskIds (datas sf) with
    | Ok ds => (after_save u (set_datas ds sf) w, Ok tt)
    | Throw e => (w, Throw e)
    end.
Proof.
  intros Hst Hsh. unfold editTask. rewrite Hsh. unfold bind at 1.
  rewrite (loadStorage_stored _ _ _ Hst). unfold bind at 1.
  rewrite (for_of_on_parsed (fun m => edit_step (states m) updates recursive)).
  - destruct (fold_res _ taskIds (datas sf)) as [ds|e]; [|done].
    run. apply saveStorage_run.
  - intros sf' a w'. unfold edit_step. run.
    destruct (findTaskById a (datas sf')); [|done].
    destruct (truthy_str _ && _); [done|].
    by destruct (modifyTaskById _ _ _).
Qed.

(** [deleteTask] on a stored forest, likewise. *)
Lemma deleteTask_stored u sf w taskIds :
  stored u sf w →
  deleteTask u taskIds w =
    match fold_res delete_step taskIds (datas sf) with
    | Ok ds => (after_save u (set_datas ds sf) w, Ok tt)
    | Throw e => (w, Throw e)
    end.
Proof.
  intros Hst. unfold deleteTask. unfold bind at 1.
  rewrite (loadStorage_stored _ _ _ Hst). unfold bind at 1.
  rewrite (for_of_on_parsed (fun _ => delete_step)).
  - destruct (fold_res _ taskIds (datas sf)) as [ds|e]; [|done].
    run. apply saveStorage_run.
  - intros sf' a w'. unfold delete_step. run.
    destruct (splice_id a (datas sf')); [done|].
    by destruct (removeFromSubtasks _ _).
Qed.

(* ===================================================================== *)
(** * Properties of the forest operations *)
(* ===================================================================== *)

(** Induction on a task with the hypothesis for all of its subtasks. *)
Lemma Task_nested_ind (P : Task → Prop) :
  (∀ t, (∀ subs, task_subtasks t = Some subs → Forall P subs) → P t) →
  ∀ t, P t.
Proof.
  intros step. fix IH 1. intros [n d i subs ts st pr]. apply step. simpl.
  destruct subs as [l|]; [|intros ? [=]].
  assert (HF : Forall P l).
  { induction l as [|x l IHl]; constructor; [apply IH|exact IHl]. }
  intros ? [= <-]. exact HF.
Qed.

Lemma first_some_None {A B} (body : A → option B) l :
  first_some body l = None ↔ Forall (fun x => body x = None) l.
Proof.
  induction l as [|x l IH]; simpl; [by split; [constructor|]|].
  destruct (body x) eqn:E.
  - split; [done|]. intros H. apply Forall_cons in H as [H _]. congruence.
  - rewrite IH. split; [by constructor|]. by intros [_ ?]%Forall_cons.
Qed.

Lemma first_some_Some {A B} (body : A → option B) l y :
  first_some body l = Some y → ∃ x, x ∈ l ∧ body x = Some y.
Proof.
  induction l as [|x l IH]; simpl; [done|]. destruct (body x) eqn:E.
  - intros [= <-]. exists x. split; [apply list_elem_of_here|done].
  - intros H. destruct (IH H) as (x' & ? & ?). exists x'.
    split; [by apply list_elem_of_further|done].
Qed.

Lemma modify_first_None {A} (body : A → option A) l :
  modify_first body l = None ↔ Forall (fun x => body x = None) l.
Proof.
  induction l as [|x l IH]; simpl; [by split; [constructor|]|].
  destruct (body x) eqn:E.
  - split; [done|]. intros H. apply Forall_cons in H as [H _]. congruence.
  - destruct (modify_first body l); simpl.
    + split; [done|]. intros [_ H]%Forall_cons. apply IH in H. done.
    + split; [|done]. intros _. constructor; [done|]. by apply IH.
Qed.

(** The array after the loop differs from the one before in one element. *)
Lemma modify_first_Some {A} (body : A → option A) l l' :
  modify_first body l = Some l' →
  ∃ pre x x' post, l = pre ++ x :: post ∧ l' = pre ++ x' :: post
                   ∧ body x = Some x' ∧ Forall (fun y => body y = None) pre.
Proof.
  revert l'. induction l as [|a l IH]; intros l'; simpl; [done|].
  destruct (body a) eqn:E.
  - intros [= <-]. exists [], a, a0, l. by repeat split.
  - destruct (modify_first body l) as [l0|] eqn:E'; simpl; [|done].
    intros [= <-]. destruct (IH _ eq_refl) as (pre & x & x' & post & -> & -> & Hb & Hpre).
    exists (a :: pre), x, x', post. repeat split; [done|]. by constructor.
Qed.

Lemma extractAllIds_cons t ts :
  extractAllIds (t :: ts) = extractFromTask t ++ extractAllIds ts.
Proof. done. Qed.

Lemma extractAllIds_app ts1 ts2 :
  extractAllIds (ts1 ++ ts2) = extractAllIds ts1 ++ extractAllIds ts2.
Proof. unfold extractAllIds. apply flat_map_app. Qed.

Lemma extractFromTask_unfold t :
  extractFromTask t =
    match task_id t with Some i => [i] | None => [] end
    ++ extractAllIds (default [] (task_subtasks t)).
Proof. destruct t as [n d i [subs|] ts st pr]; done. Qed.

(** [findTaskById] throws exactly on the ids that [extractAllIds] does not
    list. *)
Lemma findInTask_None id t : findInTask id t = None ↔ id ∉ extractFromTask t.
Proof.
  induction t as [t IH] using Task_nested_ind.
  rewrite extractFromTask_unfold.
  destruct t as [n d i subs ts st pr]. simpl in *.
  assert (Hsubs : ∀ l, Forall (fun t => findInTask id t = None ↔ id ∉ extractFromTask t) l →
            first_some (findInTask id) l = None ↔ id ∉ extractAllIds l).
  { intros l Hl. rewrite first_some_None. induction Hl as [|x l Hx Hl IHl].
    - split; [intros _; apply not_elem_of_nil|constructor].
    - rewrite extractAllIds_cons, not_elem_of_app, Forall_cons. by rewrite Hx, IHl. }
  case_bool_decide as Hid.
  - subst i. split; [done|]. intros H. exfalso. apply H. apply list_elem_of_here.
  - destruct subs as [subs|]; simpl.
    + rewrite (Hsubs subs (IH _ eq_refl)). rewrite not_elem_of_app.
      split; [|by intros [_ ?]]. intros H. split; [|done].
      destruct i as [i|]; [|apply not_elem_of_nil].
      apply not_elem_of_cons. split; [congruence|apply not_elem_of_nil].
    + split; [|done]. intros _. rewrite app_nil_r.
      destruct i as [i|]; [|apply not_elem_of_nil].
      apply not_elem_of_cons. split; [congruence|apply not_elem_of_nil].
Qed.

Lemma findTaskById_None id ts : findTaskById id ts = None ↔ id ∉ extractAllIds ts.
Proof.
  unfold findTaskById. rewrite first_some_None.
  induction ts as [|t ts IH].
  - split; [intros _; apply not_elem_of_nil|constructor].
  - rewrite extractAllIds_cons, not_elem_of_app, Forall_cons.
    by rewrite findInTask_None, IH.
Qed.

Lemma findTaskById_is_Some id ts : is_Some (findTaskById id ts) ↔ id ∈ extractAllIds ts.
Proof.
  rewrite <- not_eq_None_Some, findTaskById_None.
  split; [apply dec_stable|by intros ? ?].
Qed.

Lemma elem_of_flat_map {A B} (f : A → list B) (l : list A) (x : B) :
  x ∈ flat_map f l ↔ ∃ y, y ∈ l ∧ x ∈ f y.
Proof.
  rewrite list_elem_of_In, in_flat_map.
  split; intros (y & Hy & Hx); exists y; split; by apply list_elem_of_In.
Qed.

Lemma subtask_of_ids d t x :
  subtask_of d t → x ∈ extractFromTask d → x ∈ extractFromTask t.
Proof.
  induction 1 as [|c t subs Hsubs Hc _ IH]; [done|]. intros Hx.
  rewrite (extractFromTask_unfold t), Hsubs. simpl. apply elem_of_app. right.
  unfold extractAllIds. apply elem_of_flat_map. exists c. split; [done|by apply IH].
Qed.

Lemma in_forest_ids d ts x :
  in_forest d ts → x ∈ extractFromTask d → x ∈ extractAllIds ts.
Proof.
  intros (t & Ht & Hd) Hx. unfold extractAllIds.
  apply elem_of_flat_map. exists t. split; [done|by eapply subtask_of_ids].
Qed.

Lemma own_id_listed t i : task_id t = Some i → i ∈ extractFromTask t.
Proof.
  intros H. rewrite extractFromTask_unfold, H. apply elem_of_app. left.
  apply list_elem_of_here.
Qed.

(** In a list whose images do not overlap, an element is known by any
    member of its image. *)
Lemma flat_map_NoDup_inj {A B} (f : A → list B) (l : list A) c c' x :
  NoDup (flat_map f l) → c ∈ l → c' ∈ l → x ∈ f c → x ∈ f c' → c = c'.
Proof.
  induction l as [|a l IH]; simpl; [by intros _ ?%elem_of_nil|].
  intros (_ & Hdisj & Hnd)%NoDup_app Hc Hc' Hx Hx'.
  assert (Hin : ∀ y, y ∈ l → x ∈ f y → x ∈ flat_map f l).
  { intros y Hy Hxy. apply elem_of_flat_map. by exists y. }
  apply elem_of_cons in Hc as [->|Hc]; apply elem_of_cons in Hc' as [->|Hc'].
  - done.
  - exfalso. eapply Hdisj; [exact Hx|]. by eapply Hin.
  - exfalso. eapply Hdisj; [exact Hx'|]. by eapply Hin.
  - by apply IH.
Qed.

(** With unique ids, a node of a task is known by its id. *)
Lemma subtask_of_unique id t d d' :
  NoDup (extractFromTask t) → subtask_of d t → subtask_of d' t →
  task_id d = Some id → task_id d' = Some id → d = d'.
Proof.
  revert d d'. induction t as [t IH] using Task_nested_ind.
  intros d d' Hnd Hd Hd' Hid Hid'.
  rewrite extractFromTask_unfold in Hnd.
  assert (Hbelow : ∀ e c subs, task_subtasks t = Some subs → c ∈ subs →
            subtask_of e c → task_id e = Some id → id ∈ extractAllIds subs).
  { intros e c subs Hs Hc He Hide. eapply in_forest_ids; [by exists c|].
    by apply own_id_listed. }
  inversion Hd as [|c tt subs Hs Hc Hdc]; inversion Hd' as [|c' tt' subs' Hs' Hc' Hdc']; subst.
  - done.
  - exfalso. rewrite Hid, Hs' in Hnd. simpl in Hnd.
    apply NoDup_cons in Hnd as [Hnot _]. apply Hnot. by eapply Hbelow.
  - exfalso. rewrite Hid', Hs in Hnd. simpl in Hnd.
    apply NoDup_cons in Hnd as [Hnot _]. apply Hnot. by eapply Hbelow.
  - rewrite Hs in Hs'. injection Hs' as <-. rewrite Hs in Hnd. simpl in Hnd.
    apply NoDup_app in Hnd as (_ & _ & Hnd).
    assert (c = c') as <-.
    { eapply (flat_map_NoDup_inj extractFromTask subs c c' id); try done.
      - eapply subtask_of_ids; [exact Hdc|]. by apply own_id_listed.
      - eapply subtask_of_ids; [exact Hdc'|]. by apply own_id_listed. }
    specialize (IH _ Hs). rewrite Forall_forall in IH.
    apply (IH c Hc); try done.
    clear -Hnd Hc. induction subs as [|a subs IHs]; [by apply elem_of_nil in Hc|].
    rewrite extractAllIds_cons in Hnd. apply NoDup_app in Hnd as (Ha & _ & Hr).
    apply elem_of_cons in Hc as [->|Hc]; [done|by apply IHs].
Qed.

Lemma NoDup_extract_member ts t :
  NoDup (extractAllIds ts) → t ∈ ts → NoDup (extractFromTask t).
Proof.
  induction ts as [|a ts IH]; [by intros _ ?%elem_of_nil|].
  rewrite extractAllIds_cons. intros (Ha & _ & Hr)%NoDup_app Ht.
  apply elem_of_cons in Ht as [->|Ht]; [done|by apply IH].
Qed.

Lemma in_forest_unique id ts d d' :
  unique_ids ts → in_forest d ts → in_forest d' ts →
  task_id d = Some id → task_id d' = Some id → d = d'.
Proof.
  intros Hnd (t & Ht & Hd) (t' & Ht' & Hd') Hid Hid'.
  assert (t = t') as <-.
  { eapply (flat_map_NoDup_inj extractFromTask ts t t' id); try done.
    - eapply subtask_of_ids; [exact Hd|]. by apply own_id_listed.
    - eapply subtask_of_ids; [exact Hd'|]. by apply own_id_listed. }
  eapply subtask_of_unique; try done. by eapply NoDup_extract_member.
Qed.

(** What [findTaskById] returns is a node of the forest that carries the id. *)
Lemma findInTask_Some id t x :
  findInTask id t = Some x → subtask_of x t ∧ task_id x = Some id.
Proof.
  revert x. induction t as [t IH] using Task_nested_ind. intros x.
  destruct t as [n d i subs ts st pr]. simpl in *.
  case_bool_decide as Hid.
  - intros [= <-]. split; [constructor|done].
  - destruct subs as [subs|]; [|done]. intros H.
    apply first_some_Some in H as (c & Hc & Hx).
    specialize (IH _ eq_refl). rewrite Forall_forall in IH.
    destruct (IH c Hc x Hx) as [Hsub Hxid]. split; [|done].
    by eapply subtask_below.
Qed.

Lemma findTaskById_Some id ts x :
  findTaskById id ts = Some x → in_forest x ts ∧ task_id x = Some id.
Proof.
  intros H. apply first_some_Some in H as (t & Ht & Hx).
  apply findInTask_Some in Hx as [Hsub Hid]. split; [by exists t|done].
Qed.

(** The mutation through the reference goes through exactly when the
    lookup does. *)
Lemma modifyInTask_None id f t : modifyInTask id f t = None ↔ findInTask id t = None.
Proof.
  induction t as [t IH] using Task_nested_ind.
  destruct t as [n d i subs ts st pr]. simpl in *.
  case_bool_decide; [done|]. destruct subs as [subs|]; [|done].
  rewrite fmap_None, modify_first_None, first_some_None.
  specialize (IH _ eq_refl). clear -IH.
  induction IH as [|c l Hc _ IHl]; [done|]. rewrite !Forall_cons. by rewrite Hc, IHl.
Qed.

Lemma modifyTaskById_None id f ts :
  modifyTaskById id f ts = None ↔ findTaskById id ts = None.
Proof.
  unfold modifyTaskById, findTaskById. rewrite modify_first_None, first_some_None.
  induction ts as [|t ts IH]; [done|]. rewrite !Forall_cons.
  by rewrite modifyInTask_None, IH.
Qed.

(** After the mutation, the lookup returns the mutated task, as long as
    the mutation leaves it its id. *)
Lemma findInTask_modify id f t t' x :
  findInTask id t = Some x → modifyInTask id f t = Some t' →
  task_id (f x) = Some id → findInTask id t' = Some (f x).
Proof.
  revert t' x. induction t as [t IH] using Task_nested_ind. intros t' x.
  destruct t as [n d i subs ts st pr]. simpl in *.
  case_bool_decide as Hid.
  - intros [= <-] [= <-] Hfid. destruct (f _) as [n' d' i' subs' ts' st' pr'].
    simpl in *. by rewrite bool_decide_eq_true_2.
  - destruct subs as [subs|]; [|done]. intros Hfind Hmod Hfid.
    apply fmap_Some in Hmod as (subs' & Hmod & ->). simpl.
    rewrite bool_decide_eq_false_2 by done.
    specialize (IH _ eq_refl).
    apply modify_first_Some in Hmod as (pre & c & c' & post & -> & -> & Hc & Hpre).
    apply Forall_app in IH as [_ IH]. apply Forall_cons in IH as [IHc _].
    assert (Hpre' : first_some (findInTask id) pre = None).
    { apply first_some_None. eapply Forall_impl; [exact Hpre|].
      intros y. by rewrite modifyInTask_None. }
    revert Hfind Hpre'. clear -IHc Hc Hfid.
    induction pre as [|p pre IHp]; simpl.
    + destruct (findInTask id c) as [y|] eqn:Ey.
      * intros [= <-] _. by rewrite (IHc _ _ eq_refl Hc Hfid).
      * apply (modifyInTask_None id f) in Ey. congruence.
    + destruct (findInTask id p); [done|]. apply IHp.
Qed.

Lemma findTaskById_modify id f ts ts' x :
  findTaskById id ts = Some x → modifyTaskById id f ts = Some ts' →
  task_id (f x) = Some id → findTaskById id ts' = Some (f x).
Proof.
  unfold findTaskById, modifyTaskById. intros Hfind Hmod Hfid.
  apply modify_first_Some in Hmod as (pre & c & c' & post & -> & -> & Hc & Hpre).
  assert (Hpre' : first_some (findInTask id) pre = None).
  { apply first_some_None. eapply Forall_impl; [exact Hpre|].
    intros y. by rewrite modifyInTask_None. }
  revert Hfind Hpre'. clear -Hc Hfid.
  induction pre as [|p pre IHp]; simpl.
  - destruct (findInTask id c) as [y|] eqn:Ey.
    + intros [= <-] _. by rewrite (findInTask_modify _ _ _ _ _ Ey Hc Hfid).
    + apply (modifyInTask_None id f) in Ey. congruence.
  - destruct (findInTask id p); [done|]. apply IHp.
Qed.

(** A mutation that adds at most the ids [extra] to the task it is applied
    to adds at most these to the forest. *)
Lemma modifyInTask_ids id f extra t t' :
  (∀ x, extractFromTask (f x) ⊆+ extractFromTask x ++ extra) →
  modifyInTask id f t = Some t' →
  extractFromTask t' ⊆+ extractFromTask t ++ extra.
Proof.
  intros Hf. revert t'. induction t as [t IH] using Task_nested_ind. intros t'.
  destruct t as [n d i subs ts st pr]. simpl in *.
  case_bool_decide as Hid; [by intros [= <-]|].
  destruct subs as [subs|]; [|done]. intros Hmod.
  apply fmap_Some in Hmod as (subs' & Hmod & ->).
  unfold with_subtasks. simpl. rewrite <- app_assoc. apply submseteq_skips_l.
  specialize (IH _ eq_refl).
  apply modify_first_Some in Hmod as (pre & c & c' & post & -> & -> & Hc & _).
  apply Forall_app in IH as [_ IH]. apply Forall_cons in IH as [IHc _].
  rewrite !flat_map_app. simpl. rewrite <- !app_assoc. apply submseteq_skips_l.
  etrans; [apply submseteq_skips_r, (IHc _ Hc)|].
  rewrite <- !app_assoc. apply submseteq_skips_l.
  apply Permutation_submseteq, Permutation_app_comm.
Qed.

Lemma modifyTaskById_ids id f extra ts ts' :
  (∀ x, extractFromTask (f x) ⊆+ extractFromTask x ++ extra) →
  modifyTaskById id f ts = Some ts' →
  extractAllIds ts' ⊆+ extractAllIds ts ++ extra.
Proof.
  intros Hf Hmod.
  apply modify_first_Some in Hmod as (pre & c & c' & post & -> & -> & Hc & _).
  rewrite !extractAllIds_app, !extractAllIds_cons, <- !app_assoc.
  apply submseteq_skips_l.
  etrans; [apply submseteq_skips_r, (modifyInTask_ids _ _ _ _ _ Hf Hc)|].
  rewrite <- !app_assoc. apply submseteq_skips_l.
  apply Permutation_submseteq, Permutation_app_comm.
Qed.

(** What [deleteTask] removes for an id is one node that carries it, with
    all that is nested in it. *)
Lemma splice_id_Some id ts ts' :
  splice_id id ts = Some ts' →
  ∃ d, d ∈ ts ∧ task_id d = Some id
       ∧ extractAllIds ts ≡ₚ extractFromTask d ++ extractAllIds ts'.
Proof.
  revert ts'. induction ts as [|t ts IH]; intros ts'; simpl; [done|].
  case_bool_decide as Hid.
  - intros [= <-]. exists t. split; [apply list_elem_of_here|]. by split.
  - intros H. apply fmap_Some in H as (r & Hr & ->).
    destruct (IH _ Hr) as (d & Hd & Hdid & Hperm). exists d.
    split; [by apply list_elem_of_further|]. split; [done|].
    rewrite !extractAllIds_cons, Hperm.
    rewrite !app_assoc. apply Permutation_app_tail, Permutation_app_comm.
Qed.

Lemma removeInTask_Some id t t' :
  removeInTask id t = Some t' →
  ∃ d, subtask_of d t ∧ task_id d = Some id
       ∧ extractFromTask t ≡ₚ extractFromTask d ++ extractFromTask t'.
Proof.
  revert t'. induction t as [t IH] using Task_nested_ind. intros t'.
  destruct t as [n dd i subs ts st pr]. simpl in *.
  destruct subs as [subs|]; [|done].
  destruct (splice_id id subs) as [subs'|] eqn:Esp.
  - intros [= <-]. apply splice_id_Some in Esp as (d & Hd & Hdid & Hperm).
    exists d. split; [|split; [done|]].
    + eapply subtask_below; [done|exact Hd|constructor].
    + rewrite !extractFromTask_unfold. simpl. rewrite Hperm.
      rewrite <- (extractFromTask_unfold d). apply Permutation_app_swap_app.
  - intros H. apply fmap_Some in H as (subs' & Hmod & ->).
    specialize (IH _ eq_refl).
    apply modify_first_Some in Hmod as (pre & c & c' & post & -> & -> & Hc & _).
    apply Forall_app in IH as [_ IH]. apply Forall_cons in IH as [IHc _].
    destruct (IHc _ Hc) as (d & Hd & Hdid & Hperm). exists d.
    split; [|split; [done|]].
    + eapply subtask_below; [done| |exact Hd]. set_solver.
    + unfold with_subtasks. simpl. rewrite !flat_map_app. simpl.
      rewrite Hperm, <- !app_assoc.
      rewrite (Permutation_app_swap_app (flat_map extractFromTask pre)).
      apply Permutation_app_swap_app.
Qed.

Lemma delete_step_Ok id ts ts' :
  delete_step ts id = Ok ts' →
  ∃ d, in_forest d ts ∧ task_id d = Some id
       ∧ extractAllIds ts ≡ₚ extractFromTask d ++ extractAllIds ts'.
Proof.
  unfold delete_step. destruct (splice_id id ts) as [ds|] eqn:Esp.
  - intros [= <-]. apply splice_id_Some in Esp as (d & Hd & Hdid & Hperm).
    exists d. split; [|done]. exists d. split; [done|constructor].
  - destruct (removeFromSubtasks ts id) as [ds|] eqn:Erm; [|done].
    intros [= <-]. unfold removeFromSubtasks in Erm.
    apply modify_first_Some in Erm as (pre & c & c' & post & -> & -> & Hc & _).
    apply removeInTask_Some in Hc as (d & Hd & Hdid & Hperm). exists d.
    split; [|split; [done|]].
    + exists c. split; [set_solver|done].
    + rewrite !extractAllIds_app, !extractAllIds_cons, Hperm.
      rewrite <- !app_assoc. apply Permutation_app_swap_app.
Qed.

(** Deleting keeps the ids unique. *)
Lemma delete_step_unique id ts ts' :
  unique_ids ts → delete_step ts id = Ok ts' → unique_ids ts'.
Proof.
  unfold unique_ids. intros Hnd H.
  apply delete_step_Ok in H as (d & _ & _ & Hperm).
  rewrite Hperm in Hnd. by apply NoDup_app in Hnd as (_ & _ & ?).
Qed.

(** With unique ids, what [deleteTask] removes is the task [findTaskById]
    returns for the id. *)
Lemma delete_step_found id ts ts' x :
  unique_ids ts → findTaskById id ts = Some x → delete_step ts id = Ok ts' →
  extractAllIds ts ≡ₚ extractFromTask x ++ extractAllIds ts'.
Proof.
  intros Hnd Hfind Hdel.
  apply findTaskById_Some in Hfind as [Hx Hxid].
  apply delete_step_Ok in Hdel as (d & Hd & Hdid & Hperm).
  by rewrite (in_forest_unique id ts x d Hnd Hx Hd Hxid Hdid).
Qed.

(** ** The updates of [editTask] *)

(** Updates that carry no id and no subtasks to share bring no id into the
    task they are merged into. *)
Lemma own_id_sub (i : option Z) (f : field Z) :
  prop f = None →
  match override i f with Some j => [j] | None => [] end
  ⊆+ match i with Some j => [j] | None => [] end.
Proof.
  destruct f as [[?|]|]; simpl; [done| |done]. intros _. apply submseteq_nil_l.
Qed.

Lemma Object_assign_ids t updates :
  prop (p_id updates) = None → shares_subtasks updates = false →
  extractFromTask (Object_assign t updates) ⊆+ extractFromTask t.
Proof.
  intros Hi Hs. rewrite !extractFromTask_unfold. unfold Object_assign. simpl.
  apply submseteq_app; [by apply own_id_sub|].
  unfold shares_subtasks in Hs.
  destruct (p_subtasks updates) as [[[|? ?]|]|]; simpl; try done; apply submseteq_nil_l.
Qed.

Lemma applyUpdatesRecursive_ids t updates :
  prop (p_id updates) = None → shares_subtasks updates = false →
  extractFromTask (applyUpdatesRecursive updates t) ⊆+ extractFromTask t.
Proof.
  intros Hi Hs. induction t as [t IH] using Task_nested_ind.
  destruct (p_subtasks updates) as [given|] eqn:Eg.
  - replace (applyUpdatesRecursive updates t) with (Object_assign t updates).
    + by apply Object_assign_ids.
    + destruct t. simpl. by rewrite Eg.
  - destruct t as [n d i subs ts st pr]. simpl in *. rewrite Eg.
    destruct subs as [subs|]; simpl.
    + apply submseteq_app; [by apply own_id_sub|]. specialize (IH _ eq_refl).
      induction IH as [|c l Hc _ IHl]; [done|]. simpl. by apply submseteq_app.
    + rewrite Eg. simpl. rewrite !app_nil_r. by apply own_id_sub.
Qed.

Lemma apply_updates_ids t updates recursive :
  prop (p_id updates) = None → shares_subtasks updates = false →
  extractFromTask (apply_updates updates recursive t) ⊆+ extractFromTask t.
Proof.
  intros Hi Hs. unfold apply_updates.
  destruct (recursive && _); [by apply applyUpdatesRecursive_ids|by apply Object_assign_ids].
Qed.

Lemma applyUpdatesRecursive_fields t updates :
  task_id (applyUpdatesRecursive updates t) = override (task_id t) (p_id updates)
  ∧ task_state (applyUpdatesRecursive updates t) = override (task_state t) (p_state updates).
Proof.
  destruct t as [n d i subs ts st pr]. simpl.
  destruct (p_subtasks updates); [done|]. by destruct subs.
Qed.

Lemma apply_updates_id t updates recursive :
  task_id (apply_updates updates recursive t) = override (task_id t) (p_id updates).
Proof.
  unfold apply_updates. destruct (recursive && _); [|done].
  apply applyUpdatesRecursive_fields.
Qed.

Lemma apply_updates_state t updates recursive :
  task_state (apply_updates updates recursive t) = override (task_state t) (p_state updates).
Proof.
  unfold apply_updates. destruct (recursive && _); [|done].
  apply applyUpdatesRecursive_fields.
Qed.

Lemma push_subtask_ids task parent :
  extractFromTask (push_subtask task parent)
  = extractFromTask parent ++ extractFromTask task.
Proof.
  rewrite !(extractFromTask_unfold (push_subtask _ _)), (extractFromTask_unfold parent).
  unfold push_subtask. simpl. rewrite extractAllIds_app. simpl.
  by rewrite app_nil_r, app_assoc.
Qed.

Lemma edit_step_ids sts updates recursive ts taskId ts' :
  prop (p_id updates) = None → shares_subtasks updates = false →
  edit_step sts updates recursive ts taskId = Ok ts' →
  extractAllIds ts' ⊆+ extractAllIds ts.
Proof.
  intros Hi Hs. unfold edit_step. destruct (findTaskById taskId ts); [|done].
  destruct (_ && _); [done|].
  destruct (modifyTaskById taskId _ ts) as [ds|] eqn:Em; [|done]. intros [= <-].
  rewrite <- (app_nil_r (extractAllIds ts)).
  eapply modifyTaskById_ids; [|exact Em]. intros x. rewrite app_nil_r.
  by apply apply_updates_ids.
Qed.

Lemma fold_edit_step_ids sts updates recursive taskIds ts ts' :
  prop (p_id updates) = None → shares_subtasks updates = false →
  fold_res (edit_step sts updates recursive) taskIds ts = Ok ts' →
  extractAllIds ts' ⊆+ extractAllIds ts.
Proof.
  intros Hi Hs. revert ts. induction taskIds as [|a l IH]; intros ts; simpl.
  - by intros [= <-].
  - destruct (edit_step sts updates recursive ts a) as [ds|] eqn:Es; [|done].
    intros H. rewrite (IH _ H). by eapply edit_step_ids.
Qed.

(** ** The operations on a stored forest *)

Lemma addTask_stored u sf w now taskData parentId :
  stored u sf w →
  addTask u now taskData parentId w =
    match add_step now taskData parentId sf with
    | Ok (id, ds) => (after_save u (set_datas ds sf) w, Ok id)
    | Throw e => (w, Throw e)
    end.
Proof.
  intros Hst. unfold addTask, add_step. unfold bind at 1.
  rewrite (loadStorage_stored _ _ _ Hst). run. unfold lift.
  destruct (state_or_default taskData (states (meta sf))) as [state0|e]; [|done].
  destruct (negb (validateState _ _)); [done|].
  destruct parentId as [pid|]; simpl.
  - destruct (modifyTaskById pid _ (datas sf)) as [ds|]; [|done]. simpl.
    by rewrite saveStorage_run.
  - by rewrite saveStorage_run.
Qed.

(* ===================================================================== *)
(** * addTask and the explicit id *)
(* ===================================================================== *)

(** C3: given the explicit id [1], which the forest already uses, [addTask]
    allocates [0] and returns it, but the task it appends is stored under
    the id [1] of the caller, which the spread of [taskData] puts back. *)
Theorem addTask_colliding_id_stored_not_returned :
  let w := sample_world "u" DEFAULT_TASK_STATES [sample_task 1 "todo"] in
  let r := addTask "u" "02/01/2024" (with_id 1 (named "B")) None w in
  generateTaskId [1] = 0
  ∧ r.2 = Ok 0
  ∧ ∃ sf, stored "u" sf r.1 ∧ task_id <$> datas sf = [Some 1; Some 1].
Proof.
  simpl. split; [done|]. split; [by vm_compute|].
  eexists. split; [vm_compute; reflexivity|done].
Qed.

(** An explicit id that differs from [0] and is not in use is the id
    stored and the id returned. *)
Lemma addTask_unused_id u sf w now taskData i :
  stored u sf w → prop (p_id taskData) = Some i → i ≠ 0 →
  i ∉ extractAllIds (datas sf) →
  ∀ w' r, addTask u now taskData None w = (w', Ok r) →
    r = i ∧ ∃ t, stored u (set_datas (datas sf ++ [t]) sf) w' ∧ task_id t = Some i.
Proof.
  intros Hst Hid Hnz Hfresh w' r. rewrite (addTask_stored _ _ _ _ _ _ Hst).
  unfold add_step, choose_id. rewrite Hid. simpl.
  rewrite (proj2 (Z.eqb_neq i 0) Hnz). simpl.
  rewrite (proj2 (includes_false _ _) Hfresh). simpl.
  destruct (state_or_default _ _) as [state0|]; [|done].
  destruct (negb _); [done|]. intros [= <- <-]. split; [done|].
  eexists. split; [apply after_save_stored|].
  simpl. destruct (p_id taskData) as [[?|]|]; simpl in *; congruence.
Qed.

(** C4, as it reads: a colliding explicit id makes [addTask] fail with
    [TaskIdDuplicatedError] and leave the world as it was. It does not. *)
Lemma addTask_collision_is_not_rejected :
  ¬ (∀ u sf w now taskData parentId i,
       stored u sf w → prop (p_id taskData) = Some i →
       i ∈ extractAllIds (datas sf) →
       addTask u now taskData parentId w = (w, Throw (TaskIdDuplicatedError i))).
Proof.
  intros H.
  specialize (H "u" (mkStorageFile (mkMeta DEFAULT_TASK_STATES) [sample_task 1 "todo"])
                (sample_world "u" DEFAULT_TASK_STATES [sample_task 1 "todo"])
                "02/01/2024" (with_id 1 (named "B")) None 1).
  assert (Hr : (addTask "u" "02/01/2024" (with_id 1 (named "B")) None
                  (sample_world "u" DEFAULT_TASK_STATES [sample_task 1 "todo"])).2
               = Ok 0) by (by vm_compute).
  rewrite H in Hr; [done|by vm_compute|done|].
  apply list_elem_of_here.
Qed.

(** C4, amended: [addTask] has no step that rejects an id. On a file of
    tasks that cannot be read it fails with "Failed to load tasks" and writes
    nothing. On a stored forest it fails only when no default state is
    configured, when the state of the new task is not configured, or when
    the parent does not resolve; nothing is written then, and it never
    fails with [TaskIdDuplicatedError]: for an explicit id that is in use
    the id it computes, and returns when it succeeds, is the one
    [generateTaskId] allocates, which is not in use. *)
Theorem addTask_failures u w now taskData parentId :
  (∀ c, files w !! tasksFile u = Some c →
        c = BadJson ∨ (∃ data, c = OtherJson data ∧ invalid_structure data = true) →
        addTask u now taskData parentId w = (w, Throw LoadFailed))
  ∧ (∀ sf, stored u sf w →
       (∀ w' e, addTask u now taskData parentId w = (w', Throw e) →
          w' = w
          ∧ (∀ i, e ≠ TaskIdDuplicatedError i)
          ∧ (e = TypeError ∧ getDefaultState (states (meta sf)) = None
             ∨ (∃ s, e = TaskStateUnknownError
                           (choose_id taskData (extractAllIds (datas sf))) s
                     ∧ validateState s (states (meta sf)) = false)
             ∨ (∃ pid, parentId = Some pid ∧ e = TaskNotFoundError pid
                       ∧ findTaskById pid (datas sf) = None)))
       ∧ (∀ i, prop (p_id taskData) = Some i → i ∈ extractAllIds (datas sf) →
            choose_id taskData (extractAllIds (datas sf))
            = generateTaskId (extractAllIds (datas sf))
            ∧ (generateTaskId (extractAllIds (datas sf)) ∉ extractAllIds (datas sf))
            ∧ ∀ w' r, addTask u now taskData parentId w = (w', Ok r) →
                      r = generateTaskId (extractAllIds (datas sf)) ∧ r ≠ i)).
Proof.
  split.
  { intros c Hc Hbad.
    assert (Hload : loadStorage u w = (w, Throw LoadFailed)).
    { unfold loadStorage, fs_readFile. run. rewrite Hc. simpl.
      destruct Hbad as [->|(data & -> & Hinv)]; [done|].
      destruct data; try done; by rewrite Hinv. }
    unfold addTask, bind. by rewrite Hload. }
  intros sf Hst. split.
  - intros w' e. rewrite (addTask_stored _ _ _ _ _ _ Hst). unfold add_step.
    unfold state_or_default.
    destruct (truthy_str (prop (p_state taskData))); simpl.
    + destruct (validateState _ _) eqn:Ev; simpl.
      * destruct parentId as [pid|]; [|done].
        destruct (modifyTaskById pid _ _) eqn:Em; [done|].
        intros [= <- <-]. split; [done|]. split; [done|]. right. right.
        exists pid. by apply modifyTaskById_None in Em.
      * intros [= <- <-]. split; [done|]. split; [done|]. right. left. by eexists.
    + destruct (getDefaultState _) as [s|] eqn:Ed; simpl.
      * destruct (validateState _ _) eqn:Ev; simpl.
        -- destruct parentId as [pid|]; [|done].
           destruct (modifyTaskById pid _ _) eqn:Em; [done|].
           intros [= <- <-]. split; [done|]. split; [done|]. right. right.
           exists pid. by apply modifyTaskById_None in Em.
        -- intros [= <- <-]. split; [done|]. split; [done|]. right. left. by eexists.
      * intros [= <- <-]. split; [done|]. split; [done|]. by left.
  - intros i Hid Hin.
    assert (Hchoose : choose_id taskData (extractAllIds (datas sf))
                      = generateTaskId (extractAllIds (datas sf))).
    { unfold choose_id. rewrite Hid.
      rewrite (proj2 (includes_spec _ _) Hin). by rewrite andb_false_r. }
    pose proof (generateTaskId_fresh (extractAllIds (datas sf))) as Hfresh.
    split; [done|]. split; [done|].
    intros w' r. rewrite (addTask_stored _ _ _ _ _ _ Hst). unfold add_step.
    rewrite Hchoose.
    destruct (state_or_default _ _) as [state0|]; [|done].
    destruct (negb _); [done|].
    destruct parentId as [pid|].
    + destruct (modifyTaskById pid _ _); [|done].
      intros [= <- <-]. split; [done|]. intros E. apply Hfresh. by rewrite E.
    + intros [= <- <-]. split; [done|]. intros E. apply Hfresh. by rewrite E.
Qed.

Lemma addTask_failures_witness :
  let w := sample_world "u" DEFAULT_TASK_STATES [sample_task 1 "todo"] in
  addTask "u" "02/01/2024" (with_id 1 (named "B")) (Some 7) w
  = (w, Throw (TaskNotFoundError 7))
  ∧ (∀ i, TaskNotFoundError 7 ≠ TaskIdDuplicatedError i)
  ∧ (addTask "u" "02/01/2024" (with_id 1 (named "B")) None w).2
    = Ok (generateTaskId [1]).
Proof.
  intros w.
  assert (Hst : stored "u" (mkStorageFile (mkMeta DEFAULT_TASK_STATES) [sample_task 1 "todo"]) w)
    by (by vm_compute).
  assert (Hrun : addTask "u" "02/01/2024" (with_id 1 (named "B")) (Some 7) w
                 = (w, Throw (TaskNotFoundError 7))).
  { rewrite (addTask_stored _ _ _ _ _ _ Hst). by vm_compute. }
  destruct (addTask_failures "u" w "02/01/2024" (with_id 1 (named "B")) (Some 7))
    as [_ Hstored].
  destruct (Hstored _ Hst) as [Hfail _].
  split; [exact Hrun|]. split; [exact (proj1 (proj2 (Hfail _ _ Hrun)))|].
  by vm_compute.
Defined.

(* ===================================================================== *)
(** * editTask *)
(* ===================================================================== *)

(** A failed [editTask] has written nothing. *)
Lemma editTask_throw_unsaved u sf w taskIds updates recursive w' e :
  stored u sf w →
  editTask u taskIds updates recursive w = (w', Throw e) → w' = w.
Proof.
  intros Hst. destruct (shares_subtasks updates) eqn:Hsh.
  - unfold editTask. rewrite Hsh. by intros [= <- _].
  - rewrite (editTask_stored _ _ _ _ _ _ Hst Hsh).
    destruct (fold_res _ _ _); [done|]. by intros [= <- _].
Qed.

Lemma fold_edit_step_unknown sts updates recursive taskIds ts id0 :
  prop (p_id updates) = None → shares_subtasks updates = false →
  id0 ∈ taskIds → findTaskById id0 ts = None →
  ∃ e, fold_res (edit_step sts updates recursive) taskIds ts = Throw e
       ∧ unknown_id_failure sts taskIds updates e.
Proof.
  intros Hi Hs. revert ts. induction taskIds as [|a l IH]; intros ts Hin Hnone.
  { by apply elem_of_nil in Hin. }
  simpl. destruct (edit_step sts updates recursive ts a) as [ds|e] eqn:Es.
  - assert (Hne : a ≠ id0).
    { intros ->. unfold edit_step in Es. by rewrite Hnone in Es. }
    apply elem_of_cons in Hin as [->|Hin]; [done|].
    destruct (IH ds Hin) as (e & He & Hfail).
    + apply findTaskById_None. intros Hx. apply findTaskById_None in Hnone.
      apply Hnone. eapply elem_of_submseteq; [exact Hx|]. by eapply edit_step_ids.
    + exists e. split; [done|].
      destruct e; simpl in *; try done.
      * by apply list_elem_of_further.
      * destruct Hfail as (? & ? & ? & ?). repeat split; try done.
        by apply list_elem_of_further.
  - exists e. split; [done|]. unfold edit_step in Es.
    destruct (findTaskById a ts).
    + destruct (truthy_str _ && negb _) eqn:Eb.
      * injection Es as <-. apply andb_true_iff in Eb as [Ht Hv].
        apply negb_true_iff in Hv. simpl. repeat split; try done.
        apply list_elem_of_here.
      * destruct (modifyTaskById _ _ _); [done|]. injection Es as <-.
        apply list_elem_of_here.
    + injection Es as <-. apply list_elem_of_here.
Qed.

(** C5, as it reads: a batch with an id that resolves to no node fails with
    [TaskNotFoundError] and writes nothing. Two batches that do otherwise:
    one is stopped by the unknown state before it reaches the unknown id,
    the other gives the unknown id to a task on its way and goes through. *)
Lemma editTask_unknown_id_not_always_TaskNotFound :
  ¬ (∀ u sf w taskIds updates recursive id0,
       stored u sf w → shares_subtasks updates = false →
       id0 ∈ taskIds → findTaskById id0 (datas sf) = None →
       ∃ i, editTask u taskIds updates recursive w = (w, Throw (TaskNotFoundError i)))
  ∧ (let w := sample_world "u" DEFAULT_TASK_STATES [sample_task 1 "todo"] in
     findTaskById 5 [sample_task 1 "todo"] = None
     ∧ (editTask "u" [1; 5] (with_id 5 no_updates) false w).2 = Ok tt).
Proof.
  split.
  - intros H.
    destruct (H "u" (mkStorageFile (mkMeta DEFAULT_TASK_STATES) [sample_task 1 "todo"])
                (sample_world "u" DEFAULT_TASK_STATES [sample_task 1 "todo"])
                [1; 99] (state_update "bogus") false 99) as [i Hi];
      [by vm_compute|done|set_solver|by vm_compute|].
    assert (Hr : (editTask "u" [1; 99] (state_update "bogus") false
                    (sample_world "u" DEFAULT_TASK_STATES [sample_task 1 "todo"])).2
                 = Throw (TaskStateUnknownError 1 (Some "bogus"))) by (by vm_compute).
    rewrite Hi in Hr. done.
  - simpl. split; by vm_compute.
Qed.

(** C5, amended: when the updates carry no id and no subtasks array to
    share, a batch with an id that resolves to no node fails and writes
    nothing; the error is [TaskNotFoundError] for an id of the batch, or
    [TaskStateUnknownError] when the updates carry a non-empty state that is
    not configured. *)
Theorem editTask_unknown_id_unsaved u sf w taskIds updates recursive id0 :
  stored u sf w →
  prop (p_id updates) = None → shares_subtasks updates = false →
  id0 ∈ taskIds → findTaskById id0 (datas sf) = None →
  ∃ e, editTask u taskIds updates recursive w = (w, Throw e)
       ∧ unknown_id_failure (states (meta sf)) taskIds updates e.
Proof.
  intros Hst Hi Hs Hin Hnone. rewrite (editTask_stored _ _ _ _ _ _ Hst Hs).
  destruct (fold_edit_step_unknown (states (meta sf)) updates recursive
              taskIds (datas sf) id0 Hi Hs Hin Hnone) as (e & -> & Hfail).
  by exists e.
Qed.

Lemma editTask_unknown_id_unsaved_witness :
  let w := sample_world "u" DEFAULT_TASK_STATES [sample_task 1 "todo"] in
  ∃ e, editTask "u" [1; 99] (named "renamed") false w = (w, Throw e)
       ∧ unknown_id_failure DEFAULT_TASK_STATES [1; 99] (named "renamed") e.
Proof.
  intros w.
  apply (editTask_unknown_id_unsaved "u"
           (mkStorageFile (mkMeta DEFAULT_TASK_STATES) [sample_task 1 "todo"])
           w [1; 99] (named "renamed") false 99).
  - by vm_compute.
  - reflexivity.
  - reflexivity.
  - apply (bool_decide_unpack _). by vm_compute.
  - by vm_compute.
Defined.




(* ===================================================================== *)
(** * The ids of the forest stay unique *)
(* ===================================================================== *)

Lemma submseteq_NoDup {A} (l k : list A) : l ⊆+ k → NoDup k → NoDup l.
Proof.
  intros (k' & Hperm & Hsub)%submseteq_sublist_r Hnd.
  rewrite Hperm. by eapply sublist_NoDup.
Qed.

Lemma stored_unique_after_save u sf ds w :
  unique_ids ds → stored_unique u (after_save u (set_datas ds sf) w).
Proof. intros H. exists (set_datas ds sf). split; [apply after_save_stored|done]. Qed.

Lemma fold_delete_step_unique taskIds ts ts' :
  unique_ids ts → fold_res delete_step taskIds ts = Ok ts' → unique_ids ts'.
Proof.
  revert ts. induction taskIds as [|a l IH]; intros ts Hnd; simpl.
  - by intros [= <-].
  - destruct (delete_step ts a) as [ds|] eqn:Ed; [|done].
    apply IH. by eapply delete_step_unique.
Qed.

Lemma deleteTask_unique u w taskIds :
  stored_unique u w → stored_unique u (deleteTask u taskIds w).1.
Proof.
  intros (sf & Hst & Hnd). rewrite (deleteTask_stored _ _ _ _ Hst).
  destruct (fold_res delete_step taskIds (datas sf)) as [ds|e] eqn:Ef; simpl.
  - apply stored_unique_after_save. by eapply fold_delete_step_unique.
  - by exists sf.
Qed.

Lemma editTask_unique u w taskIds updates recursive :
  prop (p_id updates) = None → shares_subtasks updates = false →
  stored_unique u w → stored_unique u (editTask u taskIds updates recursive w).1.
Proof.
  intros Hi Hs (sf & Hst & Hnd). rewrite (editTask_stored _ _ _ _ _ _ Hst Hs).
  destruct (fold_res _ taskIds (datas sf)) as [ds|e] eqn:Ef; simpl.
  - apply stored_unique_after_save.
    eapply submseteq_NoDup; [|exact Hnd]. by eapply fold_edit_step_ids.
  - by exists sf.
Qed.

(** A loop whose turns keep an invariant of the world keeps it. *)
Lemma for_of_invariant {A} (I : World → Prop) (l : list A) (body : A → M unit) w :
  (∀ a w, I w → I (body a w).1) → I w → I (for_of l body w).1.
Proof.
  intros Hbody. revert w. induction l as [|a l IH]; intros w Hw; simpl.
  - done.
  - unfold bind. specialize (Hbody a w Hw).
    destruct (body a w) as [w1 [[]|e]]; simpl in *; [by apply IH|done].
Qed.

Lemma incrementTask_unique u w taskIds recursive :
  stored_unique u w → stored_unique u (incrementTask u taskIds recursive w).1.
Proof.
  intros Hw. pose proof Hw as (sf & Hst & Hnd). unfold incrementTask.
  unfold bind at 1. rewrite (loadStorage_stored _ _ _ Hst).
  apply for_of_invariant; [|done]. clear. intros taskId w Hw.
  unfold incrementTask_turn. run.
  destruct (findTaskById taskId (datas sf)) as [task|]; [|done].
  destruct (getNextState _ _) as [| | |nextState]; try done.
  destruct (negb _); [done|]. by apply editTask_unique.
Qed.

Lemma completeTask_unique u w taskIds recursive :
  stored_unique u w → stored_unique u (completeTask u taskIds recursive w).1.
Proof.
  intros Hw. pose proof Hw as (sf & Hst & Hnd). unfold completeTask.
  unfold bind at 1. rewrite (loadStorage_stored _ _ _ Hst). run.
  destruct (getFinalState _) as [finalState|]; [|done]. by apply editTask_unique.
Qed.

Lemma choose_id_fresh taskData allIds :
  (∀ i, prop (p_id taskData) = Some i → i ∉ allIds) →
  match override (Some (choose_id taskData allIds)) (p_id taskData) with
  | Some j => j ∉ allIds
  | None => True
  end.
Proof.
  intros Hfresh. unfold choose_id.
  destruct (p_id taskData) as [[i|]|]; simpl in *.
  - by apply Hfresh.
  - done.
  - apply generateTaskId_fresh.
Qed.

Lemma addTask_unique u sf w now taskData parentId :
  stored u sf w → unique_ids (datas sf) →
  extractAllIds (default [] (prop (p_subtasks taskData))) = [] →
  (∀ i, prop (p_id taskData) = Some i → i ∉ extractAllIds (datas sf)) →
  stored_unique u (addTask u now taskData parentId w).1.
Proof.
  intros Hst Hnd Hsubs Hfresh. rewrite (addTask_stored _ _ _ _ _ _ Hst).
  unfold add_step.
  destruct (state_or_default _ _) as [state0|]; simpl; [|by exists sf].
  set (task := task_literal _ _ _ _).
  assert (Hnew : NoDup (extractAllIds (datas sf) ++ extractFromTask task)).
  { rewrite (extractFromTask_unfold task). unfold task, task_literal. simpl.
    replace (override None (p_subtasks taskData)) with (prop (p_subtasks taskData))
      by (by destruct (p_subtasks taskData)).
    rewrite Hsubs, app_nil_r.
    pose proof (choose_id_fresh taskData _ Hfresh) as Hc.
    destruct (override _ (p_id taskData)) as [j|]; [|by rewrite app_nil_r].
    apply NoDup_app. split; [done|]. split; [|apply NoDup_singleton].
    intros x Hx ->%list_elem_of_singleton. done. }
  destruct (negb _); simpl; [by exists sf|].
  destruct parentId as [pid|].
  - destruct (modifyTaskById pid _ (datas sf)) as [ds|] eqn:Em; simpl; [|by exists sf].
    apply stored_unique_after_save. eapply submseteq_NoDup; [|exact Hnew].
    eapply modifyTaskById_ids; [|exact Em]. intros x. by rewrite push_subtask_ids.
  - simpl. apply stored_unique_after_save. unfold unique_ids.
    by rewrite extractAllIds_app, extractAllIds_cons, app_nil_r.
Qed.

(** One turn of [moveTask] on a stored forest [sf], the task being looked
    up in the forest [sf0] loaded before the loop. *)
Lemma moveTask_turn_stored u sf0 sf w newParentId taskId :
  stored u sf w →
  moveTask_turn u (Parsed sf0) newParentId taskId w =
    match findTaskById taskId (datas sf0) with
    | None => (w, Throw (TaskNotFoundError taskId))
    | Some task =>
        match delete_step (datas sf) taskId with
        | Throw e => (w, Throw e)
        | Ok ds =>
            match modifyTaskById newParentId (push_subtask task) ds with
            | None => (after_save u (set_datas ds sf) w,
                       Throw (TaskNotFoundError newParentId))
            | Some ds' =>
                (after_save u (set_datas ds' sf) (after_save u (set_datas ds sf) w),
                 Ok tt)
            end
        end
    end.
Proof.
  intros Hst. unfold moveTask_turn. run.
  destruct (findTaskById taskId (datas sf0)) as [task|]; [|done].
  rewrite (deleteTask_stored _ _ _ _ Hst). simpl.
  destruct (delete_step (datas sf) taskId) as [ds|]; [|done].
  rewrite (loadStorage_stored _ _ _ (after_save_stored _ _ _)). simpl.
  destruct (modifyTaskById newParentId _ ds) as [ds'|]; [|done].
  by rewrite saveStorage_run.
Qed.

Lemma moveTask_stored u sf w taskIds newParentId :
  stored u sf w →
  moveTask u taskIds newParentId w =
    match findTaskById newParentId (datas sf) with
    | None => (w, Throw (TaskNotFoundError newParentId))
    | Some _ => for_of taskIds (moveTask_turn u (Parsed sf) newParentId) w
    end.
Proof.
  intros Hst. unfold moveTask. unfold bind at 1.
  rewrite (loadStorage_stored _ _ _ Hst). run.
  by destruct (findTaskById newParentId (datas sf)).
Qed.

Lemma moveTask_single_unique u w taskId newParentId :
  stored_unique u w → stored_unique u (moveTask u [taskId] newParentId w).1.
Proof.
  intros Hw. pose proof Hw as (sf & Hst & Hnd).
  rewrite (moveTask_stored _ _ _ _ _ Hst).
  destruct (findTaskById newParentId (datas sf)); [|done]. simpl.
  unfold bind. rewrite (moveTask_turn_stored _ _ _ _ _ _ Hst).
  destruct (findTaskById taskId (datas sf)) as [task|] eqn:Efind; [|done].
  destruct (delete_step (datas sf) taskId) as [ds|] eqn:Ed; [|done].
  destruct (modifyTaskById newParentId _ ds) as [ds'|] eqn:Em; simpl.
  - apply stored_unique_after_save.
    pose proof (delete_step_found _ _ _ _ Hnd Efind Ed) as Hperm.
    unfold unique_ids in *. rewrite Hperm in Hnd.
    eapply submseteq_NoDup.
    + eapply modifyTaskById_ids; [|exact Em]. intros x. by rewrite push_subtask_ids.
    + by rewrite (Permutation_app_comm (extractAllIds ds)).
  - apply stored_unique_after_save. by eapply delete_step_unique.
Qed.

(** C2, as it reads: every operation of the manager keeps the ids unique,
    also [editTask] with an id among the updates. It does not: giving the
    task 1 the id 0 of another task stores two tasks with the id 0. *)
Lemma editTask_id_update_breaks_uniqueness :
  ¬ (∀ u w taskIds updates recursive,
       shares_subtasks updates = false →
       stored_unique u w →
       stored_unique u (editTask u taskIds updates recursive w).1).
Proof.
  intros H.
  destruct (H "u" (sample_world "u" DEFAULT_TASK_STATES
                     [sample_task 0 "todo"; sample_task 1 "todo"])
              [1] (with_id 0 no_updates) false eq_refl) as (sf & Hst & Hnd).
  - eexists. split; [by vm_compute|].
    apply (bool_decide_unpack _). by vm_compute.
  - unfold stored in Hst. vm_compute in Hst. injection Hst as <-.
    unfold unique_ids in Hnd. vm_compute in Hnd.
    apply NoDup_cons in Hnd as [Hnot _]. apply Hnot, list_elem_of_here.
Qed.

(** C2, amended: on a stored forest without two tasks of the same id, the
    forest stored afterwards has none either, for [deleteTask],
    [incrementTask] and [completeTask]; for [editTask] when the updates
    carry no id and no subtasks array to share; for [addTask] when the data
    carry no id or one that is not in use, and no subtasks with ids; and for
    [moveTask] of one id. *)
Theorem operations_keep_ids_unique u sf w :
  stored u sf w → unique_ids (datas sf) →
  (∀ taskIds, stored_unique u (deleteTask u taskIds w).1)
  ∧ (∀ taskIds recursive, stored_unique u (incrementTask u taskIds recursive w).1)
  ∧ (∀ taskIds recursive, stored_unique u (completeTask u taskIds recursive w).1)
  ∧ (∀ taskIds updates recursive,
       prop (p_id updates) = None → shares_subtasks updates = false →
       stored_unique u (editTask u taskIds updates recursive w).1)
  ∧ (∀ now taskData parentId,
       extractAllIds (default [] (prop (p_subtasks taskData))) = [] →
       (∀ i, prop (p_id taskData) = Some i → i ∉ extractAllIds (datas sf)) →
       stored_unique u (addTask u now taskData parentId w).1)
  ∧ (∀ taskId newParentId, stored_unique u (moveTask u [taskId] newParentId w).1).
Proof.
  intros Hst Hnd. assert (Hw : stored_unique u w) by (by exists sf).
  split; [intros; by apply deleteTask_unique|].
  split; [intros; by apply incrementTask_unique|].
  split; [intros; by apply completeTask_unique|].
  split; [intros; by apply editTask_unique|].
  split; [intros; by apply (addTask_unique u sf)|].
  intros; by apply moveTask_single_unique.
Qed.

Lemma operations_keep_ids_unique_witness :
  stored_unique "u"
    (moveTask "u" [1] 5
       (sample_world "u" DEFAULT_TASK_STATES
          [sample_node 2 "todo" [sample_task 1 "todo"]; sample_task 5 "todo"])).1.
Proof.
  apply (operations_keep_ids_unique "u"
           (mkStorageFile (mkMeta DEFAULT_TASK_STATES)
              [sample_node 2 "todo" [sample_task 1 "todo"]; sample_task 5 "todo"])).
  - by vm_compute.
  - apply (bool_decide_unpack _). by vm_compute.
Defined.

(** [moveTask] of several ids looks every task up in the forest it loaded
    before the loop: moving the task 1 out of the task 2 and then the task 2
    itself brings the old copy of 1 back with it. *)
Lemma moveTask_batch_duplicates_moved_subtask :
  let w := sample_world "u" DEFAULT_TASK_STATES
             [sample_node 2 "todo" [sample_task 1 "todo"]; sample_task 5 "todo"] in
  let r := moveTask "u" [1; 2] 5 w in
  r.2 = Ok tt ∧ ∃ sf, stored "u" sf r.1 ∧ extractAllIds (datas sf) = [5; 1; 2; 1].
Proof.
  simpl. split; [by vm_compute|]. eexists. split; [vm_compute; reflexivity|done].
Qed.

(* ===================================================================== *)
(** * moveTask under a task of the moved subtree *)
(* ===================================================================== *)

Lemma splice_id_None id ts :
  splice_id id ts = None → Forall (fun t => task_id t ≠ Some id) ts.
Proof.
  induction ts as [|t ts IH]; simpl; [constructor|].
  case_bool_decide; [done|]. intros Hr%fmap_None. constructor; [done|by apply IH].
Qed.

Lemma no_id_in_forest id ts :
  Forall (fun t => task_id t ≠ Some id) ts →
  Forall (fun t => id ∉ extractAllIds (default [] (task_subtasks t))) ts →
  id ∉ extractAllIds ts.
Proof.
  induction 1 as [|t ts Ht _ IH]; intros Hsub; [apply not_elem_of_nil|].
  apply Forall_cons in Hsub as [Hs Hr].
  rewrite extractAllIds_cons, extractFromTask_unfold. rewrite !not_elem_of_app.
  split; [|by apply IH]. split; [|done].
  destruct (task_id t) as [i|]; [|apply not_elem_of_nil].
  apply not_elem_of_cons. split; [congruence|apply not_elem_of_nil].
Qed.

Lemma removeInTask_None id t :
  removeInTask id t = None → id ∉ extractAllIds (default [] (task_subtasks t)).
Proof.
  induction t as [t IH] using Task_nested_ind.
  destruct t as [n d i subs ts st pr]. simpl in *.
  destruct subs as [subs|]; [|intros _; apply not_elem_of_nil].
  destruct (splice_id id subs) eqn:Esp; [done|]. intros Hm%fmap_None.
  apply modify_first_None in Hm. simpl. apply no_id_in_forest.
  - by apply splice_id_None.
  - specialize (IH _ eq_refl). clear Esp.
    induction IH as [|c l Hc _ IHl]; [constructor|].
    apply Forall_cons in Hm as [Hm1 Hm2]. constructor; [by apply Hc|by apply IHl].
Qed.

(** [deleteTask] throws only on an id that no task of the forest has. *)
Lemma delete_step_Throw id ts e :
  delete_step ts id = Throw e → e = TaskNotFoundError id ∧ id ∉ extractAllIds ts.
Proof.
  unfold delete_step. destruct (splice_id id ts) eqn:Esp; [done|].
  destruct (removeFromSubtasks ts id) eqn:Erm; [done|]. intros [= <-].
  split; [done|]. apply no_id_in_forest; [by apply splice_id_None|].
  apply modify_first_None in Erm. eapply Forall_impl; [exact Erm|].
  intros t. apply removeInTask_None.
Qed.




(* ===================================================================== *)
(** * incrementTask along the sequence of states *)
(* ===================================================================== *)

Lemma findIndex_NoDup sts k sk :
  NoDup (name <$> sts) → sts !! k = Some sk →
  findIndex (Some (name sk)) sts = Some k.
Proof.
  revert k. induction sts as [|s r IH]; intros k Hnd Hk; [done|].
  rewrite fmap_cons in Hnd. apply NoDup_cons in Hnd as [Hnot Hnd].
  destruct k as [|k]; simpl in *.
  - injection Hk as ->. by rewrite bool_decide_eq_true_2.
  - rewrite bool_decide_eq_false_2.
    + by rewrite (IH k Hnd Hk).
    + intros [= E]. apply Hnot. rewrite E. apply list_elem_of_fmap.
      exists sk. split; [done|]. by eapply list_elem_of_lookup_2.
Qed.

Lemma getNextState_step sts k sk sk' :
  NoDup (name <$> sts) → sts !! k = Some sk → sts !! S k = Some sk' →
  getNextState (Some (name sk)) sts = NextName (name sk').
Proof.
  intros Hnd Hk Hk'. unfold getNextState. rewrite (findIndex_NoDup _ _ _ Hnd Hk).
  apply lookup_lt_Some in Hk' as Hlt.
  rewrite bool_decide_eq_false_2 by lia. by rewrite Hk'.
Qed.

Lemma getNextState_last sts k sk :
  NoDup (name <$> sts) → sts !! k = Some sk → S k = length sts →
  getNextState (Some (name sk)) sts = NextNull.
Proof.
  intros Hnd Hk Hlen. unfold getNextState. rewrite (findIndex_NoDup _ _ _ Hnd Hk).
  by rewrite bool_decide_eq_true_2.
Qed.

Lemma validateState_member sts k s :
  sts !! k = Some s → validateState (Some (name s)) sts = true.
Proof.
  intros Hk. unfold validateState. apply existsb_exists. exists s.
  split; [|by apply bool_decide_eq_true_2].
  apply list_elem_of_In. by eapply list_elem_of_lookup_2.
Qed.

Lemma incrementTask_single u sf w taskId recursive :
  stored u sf w →
  incrementTask u [taskId] recursive w =
    match incrementTask_turn u (Parsed sf) recursive taskId w with
    | (w', Ok _) => (w', Ok tt)
    | (w', Throw e) => (w', Throw e)
    end.
Proof.
  intros Hst. unfold incrementTask. unfold bind at 1.
  rewrite (loadStorage_stored _ _ _ Hst). simpl. unfold bind.
  by destruct (incrementTask_turn _ _ _ _ _) as [w' [[]|e]].
Qed.

(** One call on a task that is not in the last state, when the name of the
    next state is not empty, stores the task in the next state. *)
Lemma incrementTask_advances u sf w taskId recursive t k sk sk' :
  stored u sf w → NoDup (name <$> states (meta sf)) →
  findTaskById taskId (datas sf) = Some t →
  states (meta sf) !! k = Some sk → states (meta sf) !! S k = Some sk' →
  task_state t = Some (name sk) → name sk' ≠ "" →
  ∃ ds t',
    incrementTask u [taskId] recursive w = (after_save u (set_datas ds sf) w, Ok tt)
    ∧ findTaskById taskId ds = Some t'
    ∧ task_state t' = Some (name sk').
Proof.
  intros Hst Hnd Hfind Hk Hk' Hstate Hne.
  rewrite (incrementTask_single _ _ _ _ _ Hst). unfold incrementTask_turn. run.
  rewrite Hfind, Hstate, (getNextState_step _ _ _ _ Hnd Hk Hk').
  rewrite (proj2 (String.eqb_neq _ _) Hne). simpl.
  rewrite (editTask_stored u sf w [taskId] (state_update (name sk')) recursive Hst eq_refl).
  simpl. unfold edit_step.
  rewrite Hfind. simpl. rewrite (proj2 (String.eqb_neq _ _) Hne). simpl.
  rewrite (validateState_member _ _ _ Hk'). simpl.
  destruct (modifyTaskById taskId _ (datas sf)) as [ds|] eqn:Em.
  2:{ apply modifyTaskById_None in Em. congruence. }
  exists ds, (apply_updates (state_update (name sk')) recursive t).
  split; [done|]. split.
  - eapply findTaskById_modify; [exact Hfind|exact Em|].
    rewrite apply_updates_id. simpl. by apply findTaskById_Some in Hfind as [_ ?].
  - by rewrite apply_updates_state.
Qed.

(** One call on a task in the last state fails and writes nothing. *)
Lemma incrementTask_at_last u sf w taskId recursive t k sk :
  stored u sf w → NoDup (name <$> states (meta sf)) →
  findTaskById taskId (datas sf) = Some t →
  states (meta sf) !! k = Some sk → S k = length (states (meta sf)) →
  task_state t = Some (name sk) →
  incrementTask u [taskId] recursive w = (w, Throw (NoFurtherStateError taskId)).
Proof.
  intros Hst Hnd Hfind Hk Hlen Hstate.
  rewrite (incrementTask_single _ _ _ _ _ Hst). unfold incrementTask_turn. run.
  by rewrite Hfind, Hstate, (getNextState_last _ _ _ Hnd Hk Hlen).
Qed.

(** C7, as it reads: with [n] states of distinct names, a task in the first
    state can be incremented. Not when the second state has the empty name:
    the call takes it for no state at all. *)
Lemma incrementTask_stops_at_empty_name :
  ¬ (∀ u sf w taskId t recursive,
       stored u sf w → NoDup (name <$> states (meta sf)) →
       (1 < length (states (meta sf)))%nat →
       findTaskById taskId (datas sf) = Some t →
       task_state t = getDefaultState (states (meta sf)) →
       ∃ w', incrementTask u [taskId] recursive w = (w', Ok tt)).
Proof.
  intros H.
  pose (sts := [mkTaskState "todo" "#ff8f00" "☐"; mkTaskState "" "#ab47bc" "✹";
                mkTaskState "done" "#66bb6a" "✔"]).
  destruct (H "u" (mkStorageFile (mkMeta sts) [sample_task 1 "todo"])
              (sample_world "u" sts [sample_task 1 "todo"]) 1
              (sample_task 1 "todo") false) as [w' Hw'].
  - by vm_compute.
  - apply (bool_decide_unpack _). by vm_compute.
  - simpl. lia.
  - by vm_compute.
  - done.
  - assert (Hr : (incrementTask "u" [1] false
                    (sample_world "u" sts [sample_task 1 "todo"])).2
                 = Throw (NoFurtherStateError 1)) by (by vm_compute).
    by rewrite Hw' in Hr.
Qed.

(** C7, amended: with [n] states of distinct names of which all but the
    first are non-empty, and a task in the first state, [k] calls of
    [incrementTask] on its id succeed for every [k < n] and leave the task
    stored in the state number [k]; after [n - 1] calls the task is in the
    last state, and the next call fails with [NoFurtherStateError] and
    leaves the world as it is. *)
Theorem incrementTask_walks_the_states u sf w taskId t recursive :
  stored u sf w →
  NoDup (name <$> states (meta sf)) →
  Forall (fun s => name s ≠ "") (tail (states (meta sf))) →
  findTaskById taskId (datas sf) = Some t →
  task_state t = getDefaultState (states (meta sf)) →
  ∀ k, (k < length (states (meta sf)))%nat →
    ∃ wk sfk tk,
      increments u taskId recursive k w = (wk, Ok tt)
      ∧ stored u sfk wk ∧ meta sfk = meta sf
      ∧ findTaskById taskId (datas sfk) = Some tk
      ∧ task_state tk = name <$> states (meta sf) !! k
      ∧ (S k = length (states (meta sf)) →
         incrementTask u [taskId] recursive wk
         = (wk, Throw (NoFurtherStateError taskId))).
Proof.
  intros Hst Hnd Hne Hfind Hstate k.
  induction k as [|k IH]; intros Hlt.
  - exists w, sf, t. split; [done|]. split; [done|]. split; [done|].
    split; [done|]. split.
    + rewrite Hstate. unfold getDefaultState. by destruct (states (meta sf)).
    + intros Hlen. destruct (states (meta sf)) as [|s0 r] eqn:Es; [done|].
      eapply (incrementTask_at_last _ _ _ _ _ _ 0%nat s0);
        try done; rewrite ?Hstate, ?Es; done.
  - destruct IH as (wk & sfk & tk & Hrun & Hstk & Hmeta & Hfk & Hsk & _); [lia|].
    destruct (lookup_lt_is_Some_2 (states (meta sf)) k) as [sk Hk]; [lia|].
    destruct (lookup_lt_is_Some_2 (states (meta sf)) (S k)) as [sk' Hk']; [lia|].
    assert (Hne' : name sk' ≠ "").
    { rewrite Forall_forall in Hne. apply Hne.
      destruct (states (meta sf)) as [|s0 r]; [done|]. simpl in *.
      by eapply list_elem_of_lookup_2. }
    rewrite Hk in Hsk. simpl in Hsk.
    destruct (incrementTask_advances u sfk wk taskId recursive tk k sk sk')
      as (ds & t' & Hinc & Hfind' & Hst'); try done; try (by rewrite Hmeta).
    exists (after_save u (set_datas ds sfk) wk), (set_datas ds sfk), t'.
    split; [|split; [apply after_save_stored|split; [done|split; [done|split]]]].
    + simpl. unfold bind. by rewrite Hrun, Hinc.
    + by rewrite Hk'.
    + intros Hlen.
      eapply (incrementTask_at_last _ (set_datas ds sfk) _ _ _ t' (S k) sk');
        try done; simpl; try (by rewrite Hmeta).
      apply after_save_stored.
Qed.

Lemma incrementTask_walks_the_states_witness :
  let w := sample_world "u" DEFAULT_TASK_STATES [sample_task 1 "todo"] in
  ∃ wk sfk tk,
    increments "u" 1 false 2 w = (wk, Ok tt)
    ∧ stored "u" sfk wk
    ∧ findTaskById 1 (datas sfk) = Some tk
    ∧ task_state tk = Some "done"
    ∧ incrementTask "u" [1] false wk = (wk, Throw (NoFurtherStateError 1)).
Proof.
  intros w.
  destruct (incrementTask_walks_the_states "u"
              (mkStorageFile (mkMeta DEFAULT_TASK_STATES) [sample_task 1 "todo"])
              w 1 (sample_task 1 "todo") false) with (k := 2%nat)
    as (wk & sfk & tk & Hrun & Hst & _ & Hfind & Hstate & Hlast).
  - by vm_compute.
  - apply (bool_decide_unpack _). by vm_compute.
  - simpl. repeat constructor; discriminate.
  - by vm_compute.
  - reflexivity.
  - simpl. lia.
  - exists wk, sfk, tk. repeat split; try done. by apply Hlast.
Defined.

(* ===================================================================== *)
(** * loadStorage *)
(* ===================================================================== *)

(** The world once [initialize] has created the file of a user. *)
Lemma loadStorage_missing u w :
  files w !! tasksFile u = None →
  loadStorage u w =
    (mkWorld (<[tasksFile u := StorageJson (DEFAULT_STORAGE_DATA w)]> (files w))
             ({[ backupDir u ]} ∪ ({[ userDir u ]} ∪ dirs w))
             (DEFAULT_STORAGE_DATA w),
     Ok TheDefault).
Proof.
  intros Hnone. unfold loadStorage, initialize, fs_readFile, fs_access, fs_mkdir,
    fs_writeFile. run. rewrite Hnone. simpl. rewrite Hnone. simpl.
  by rewrite bool_decide_eq_true_2 by set_solver.
Qed.

(** In a process in which [DEFAULT_STORAGE_DATA] is as the module defines
    it, a missing file is created and the default storage returned. *)
Lemma loadStorage_missing_pristine u w :
  files w !! tasksFile u = None →
  DEFAULT_STORAGE_DATA w = DEFAULT_STORAGE_DATA_init →
  ∃ w', (storageData <- loadStorage u ;; deref storageData) w
        = (w', Ok DEFAULT_STORAGE_DATA_init)
        ∧ stored u DEFAULT_STORAGE_DATA_init w'.
Proof.
  intros Hnone Hdef. eexists. unfold bind.
  rewrite (loadStorage_missing _ _ Hnone). simpl. run. rewrite Hdef.
  split; [done|]. unfold stored. simpl. apply lookup_insert_eq.
Qed.

(** The documents [loadStorage] lets through are those with an array under
    [meta.states] and an array under [datas]. *)
Lemma invalid_structure_false data :
  invalid_structure data = false ↔
  ∃ m sts ds, get_prop data "meta" = Some m
              ∧ get_prop m "states" = Some (JArr sts)
              ∧ get_prop data "datas" = Some (JArr ds).
Proof.
  unfold invalid_structure. rewrite !orb_false_iff, !negb_false_iff. split.
  - intros [[[Hm Hd] Hs] Ha].
    destruct (get_prop data "meta") as [m|]; [|done]. simpl in Hs.
    destruct (get_prop m "states") as [[]|] eqn:Es; try done.
    destruct (get_prop data "datas") as [[]|]; try done. by eexists _, _, _.
  - intros (m & sts & ds & -> & Hs & ->). simpl. rewrite Hs.
    by destruct m.
Qed.

(** A file that exists but is not JSON, or whose top level lacks one of the
    two arrays, makes [loadStorage] fail and is left as it is. *)
Lemma loadStorage_corrupt u w c :
  files w !! tasksFile u = Some c →
  c = BadJson ∨ (∃ data, c = OtherJson data ∧ invalid_structure data = true) →
  loadStorage u w = (w, Throw LoadFailed).
Proof.
  intros Hc Hbad. unfold loadStorage, fs_readFile. run. rewrite Hc. simpl.
  destruct Hbad as [->|(data & -> & Hinv)]; [done|].
  destruct data; try done; by rewrite Hinv.
Qed.

(** C8: [loadStorage] on a missing file returns the object
    [DEFAULT_STORAGE_DATA] itself, and [addTask] pushes into what it is
    given. After one [addTask] for a user without a file, [loadStorage] for
    another user without a file writes and returns a forest that holds the
    task of the first user, not the empty one. *)
Theorem loadStorage_missing_file_returns_used_default :
  let r1 := addTask "a" "01/01/2024" (named "A") None fresh_world in
  let r2 := (storageData <- loadStorage "b" ;; deref storageData) r1.1 in
  r1.2 = Ok 0
  ∧ files r1.1 !! tasksFile "b" = None
  ∧ ∃ sd, r2.2 = Ok sd
          ∧ stored "b" sd r2.1
          ∧ meta sd = mkMeta DEFAULT_TASK_STATES
          ∧ task_name <$> datas sd = [Some "A"].
Proof.
  simpl. split; [by vm_compute|]. split; [by vm_compute|].
  eexists. split; [vm_compute; reflexivity|]. split; [by vm_compute|done].
Qed.

(* ===================================================================== *)
(** * saveStorage and the backups *)
(* ===================================================================== *)

Lemma string_length_app (a b : string) :
  String.length (a +:+ b) = (String.length a + String.length b)%nat.
Proof. induction a as [|c a IH]; simpl; [done|by rewrite IH]. Qed.

Lemma backupDir_neq_userDir u : backupDir u ≠ userDir u.
Proof.
  unfold backupDir. intros E. apply (f_equal String.length) in E.
  rewrite string_length_app in E. simpl in E. lia.
Qed.

(** [saveStorage] reads and writes nothing in the directory of backups. *)
Lemma after_save_backups u data w backup :
  files (after_save u data w) !! (backupDir u, backup) = files w !! (backupDir u, backup).
Proof.
  pose proof (backupDir_neq_userDir u) as Hne. unfold after_save. simpl.
  rewrite lookup_insert_ne by (unfold tasksFile; congruence).
  rewrite lookup_delete_ne by (unfold tempFile; congruence).
  by rewrite lookup_insert_ne by (unfold tempFile; congruence).
Qed.

(** C1, as it reads: a save over an existing file leaves a copy of it in the
    directory of backups. It leaves none. *)
Lemma saveStorage_makes_no_backup :
  ¬ (∀ u sf w data,
       stored u sf w →
       ∃ backup, files (saveStorage u data w).1 !! (backupDir u, backup)
                 = Some (StorageJson sf)).
Proof.
  intros H.
  destruct (H "u" (mkStorageFile (mkMeta DEFAULT_TASK_STATES) [sample_task 1 "todo"])
              (sample_world "u" DEFAULT_TASK_STATES [sample_task 1 "todo"])
              DEFAULT_STORAGE_DATA_init) as [backup Hb]; [by vm_compute|].
  rewrite saveStorage_run in Hb. simpl fst in Hb. rewrite after_save_backups in Hb.
  simpl in Hb. rewrite lookup_singleton_ne in Hb; [done|].
  pose proof (backupDir_neq_userDir "u"). unfold tasksFile. congruence.
Qed.

(** [createBackup] copies the file of tasks, as it is, under a name made of
    the time of the call. *)
Lemma createBackup_copies u w c iso :
  files w !! tasksFile u = Some c → backupDir u ∈ dirs w →
  createBackup u iso w
  = (set_files (insert (backupDir u, backupName iso) c) w,
     Ok (backupDir u, backupName iso)).
Proof.
  intros Hc Hd. unfold createBackup, fs_copyFile, fs_readFile, fs_writeFile. run.
  rewrite Hc. simpl. by rewrite bool_decide_eq_true_2.
Qed.

(** ** The order of the backups *)

Lemma ascii_compare_Lt_trans a b c :
  Ascii.compare a b = Lt → Ascii.compare b c = Lt → Ascii.compare a c = Lt.
Proof. unfold Ascii.compare. rewrite !N.compare_lt_iff. lia. Qed.

Lemma string_compare_trans a b c :
  String.compare a b ≠ Gt → String.compare b c ≠ Gt → String.compare a c ≠ Gt.
Proof.
  revert b c. induction a as [|x a IH]; intros [|y b] [|z c]; simpl; try done.
  destruct (Ascii.compare x y) eqn:Exy; [| |done].
  - apply Ascii.compare_eq_iff in Exy as ->.
    destruct (Ascii.compare y z); [apply IH|done|done].
  - destruct (Ascii.compare y z) eqn:Eyz; [| |done].
    + apply Ascii.compare_eq_iff in Eyz as ->. by rewrite Exy.
    + by rewrite (ascii_compare_Lt_trans _ _ _ Exy Eyz).
Qed.

#[global] Instance str_le_trans : Transitive str_le.
Proof.
  intros a b c. unfold str_le, String.leb. intros Hab Hbc.
  pose proof (string_compare_trans a b c) as H.
  destruct (String.compare a b), (String.compare b c), (String.compare a c);
    try done; exfalso; by apply H.
Qed.

#[global] Instance str_le_total : Total str_le.
Proof. intros a b. apply String.leb_total. Qed.

#[global] Instance str_le_antisym : AntiSymm eq str_le.
Proof. intros a b. apply String.leb_antisym. Qed.

Lemma StronglySorted_reverse {A} (R : relation A) (l : list A) :
  StronglySorted R l → StronglySorted (flip R) (reverse l).
Proof.
  induction 1 as [|x l _ IH Hx]; [constructor|].
  rewrite reverse_cons. apply StronglySorted_app. split; [|split; [done|]].
  - intros y z Hy ->%list_elem_of_singleton. rewrite Forall_forall in Hx.
    apply Hx. by apply elem_of_reverse.
  - repeat constructor.
Qed.

(** ** The directory of backups *)

Lemma elem_of_dir_names d w n : n ∈ dir_names d w ↔ is_Some (files w !! (d, n)).
Proof.
  unfold dir_names. rewrite list_elem_of_omap. split.
  - intros ([[d' n'] c] & Hin & Hf). simpl in Hf. case_bool_decide; [|done].
    simplify_eq. apply elem_of_map_to_list in Hin. by eexists.
  - intros [c Hc]. exists ((d, n), c). split; [by apply elem_of_map_to_list|].
    simpl. by rewrite bool_decide_eq_true_2.
Qed.

Lemma NoDup_omap_inj {A B} (f : A → option B) (l : list A) :
  NoDup l →
  (∀ x y z, x ∈ l → y ∈ l → f x = Some z → f y = Some z → x = y) →
  NoDup (omap f l).
Proof.
  induction 1 as [|x l Hx Hnd IH]; intros Hinj; simpl; [constructor|].
  assert (Hrec : NoDup (omap f l)).
  { apply IH. intros a b z Ha Hb. apply Hinj; by apply list_elem_of_further. }
  destruct (f x) as [z|] eqn:Ez; [|done]. constructor; [|done].
  intros (y & Hy & Hfy)%list_elem_of_omap. apply Hx.
  rewrite (Hinj x y z); try done; [apply list_elem_of_here|by apply list_elem_of_further].
Qed.

Lemma NoDup_dir_names d w : NoDup (dir_names d w).
Proof.
  unfold dir_names. apply NoDup_omap_inj; [apply NoDup_map_to_list|].
  intros [[d1 n1] c1] [[d2 n2] c2] z H1 H2. simpl.
  repeat case_bool_decide; try done. intros [= ->] [= ->]. simplify_eq.
  apply elem_of_map_to_list in H1, H2. congruence.
Qed.

Lemma fs_readdir_run d w : d ∈ dirs w → fs_readdir d w = (w, Ok (dir_names d w)).
Proof. intros Hd. unfold fs_readdir. run. by rewrite bool_decide_eq_true_2. Qed.

(** What [listBackups] returns in a world whose directory of backups
    exists: the names of the backups, the greatest first. *)
Lemma listBackups_run u w :
  backupDir u ∈ dirs w →
  listBackups u w
  = (w, Ok (reverse (merge_sort str_le
              (filter (fun file => isBackupName file) (dir_names (backupDir u) w))))).
Proof. intros Hd. unfold listBackups. run. by rewrite (fs_readdir_run _ _ Hd). Qed.

Lemma listBackups_descending u w l :
  backupDir u ∈ dirs w → listBackups u w = (w, Ok l) →
  StronglySorted (flip str_le) l ∧ NoDup l
  ∧ ∀ n, n ∈ l ↔ isBackupName n ∧ is_Some (files w !! (backupDir u, n)).
Proof.
  intros Hd. rewrite (listBackups_run _ _ Hd). intros [= <-]. split; [|split].
  - apply StronglySorted_reverse, StronglySorted_merge_sort; apply _.
  - rewrite reverse_Permutation, merge_sort_Permutation.
    apply NoDup_filter, NoDup_dir_names.
  - intros n. rewrite elem_of_reverse, merge_sort_Permutation.
    rewrite list_elem_of_filter. by rewrite elem_of_dir_names.
Qed.

Lemma fs_unlink_run p w c :
  files w !! p = Some c → fs_unlink p w = (set_files (delete p) w, Ok tt).
Proof. intros Hc. unfold fs_unlink. run. by rewrite Hc. Qed.

(** Unlinking distinct files that exist removes them and nothing else. *)
Lemma unlink_all d (D : list string) w :
  NoDup D → (∀ b, b ∈ D → is_Some (files w !! (d, b))) →
  ∃ w', for_of D (fun b => fs_unlink (d, b)) w = (w', Ok tt)
        ∧ dirs w' = dirs w
        ∧ DEFAULT_STORAGE_DATA w' = DEFAULT_STORAGE_DATA w
        ∧ ∀ p, files w' !! p
               = if bool_decide (p.1 = d ∧ p.2 ∈ D) then None else files w !! p.
Proof.
  intros Hnd. revert w. induction Hnd as [|b D Hb Hnd IH]; intros w Hex.
  - exists w. split; [done|]. split; [done|]. split; [done|]. intros p.
    rewrite bool_decide_eq_false_2; [done|]. intros [_ H]. by apply elem_of_nil in H.
  - destruct (Hex b) as [c Hc]; [apply list_elem_of_here|].
    destruct (IH (set_files (delete (d, b)) w)) as (w' & Hrun & Hdirs & Hdef & Hfiles).
    { intros b' Hb'. simpl. rewrite lookup_delete_ne by (intros [= ->]; done).
      apply Hex. by apply list_elem_of_further. }
    exists w'. split; [|split; [done|split; [done|]]].
    + simpl. unfold bind at 1. rewrite (fs_unlink_run _ _ _ Hc). exact Hrun.
    + intros [pd pn]. rewrite Hfiles. simpl.
      destruct (decide (pd = d ∧ pn ∈ b :: D)) as [[-> Hin]|Hn].
      * rewrite (bool_decide_eq_true_2 (d = d ∧ pn ∈ b :: D)) by done.
        destruct (decide (pn ∈ D)) as [HinD|HninD].
        -- by rewrite bool_decide_eq_true_2.
        -- rewrite bool_decide_eq_false_2 by (by intros [_ ?]).
           apply elem_of_cons in Hin as [->|?]; [apply lookup_delete_eq|done].
      * rewrite (bool_decide_eq_false_2 (pd = d ∧ pn ∈ b :: D)) by done.
        rewrite bool_decide_eq_false_2.
        -- apply lookup_delete_ne. intros [= <- <-]. apply Hn.
           split; [done|apply list_elem_of_here].
        -- intros [-> ?]. apply Hn. split; [done|by apply list_elem_of_further].
Qed.

#[global] Instance str_ge_antisym : AntiSymm eq (flip str_le).
Proof. intros a b Hab Hba. by apply (anti_symm str_le). Qed.

(** [cleanupBackups keepCount] leaves the [keepCount] backups of the
    greatest names and removes the others; no other file is touched. *)
Lemma cleanupBackups_keeps_latest u w keepCount l :
  backupDir u ∈ dirs w → listBackups u w = (w, Ok l) →
  ∃ w', cleanupBackups u keepCount w = (w', Ok tt)
        ∧ listBackups u w' = (w', Ok (take keepCount l))
        ∧ ∀ p, p.1 ≠ backupDir u → files w' !! p = files w !! p.
Proof.
  intros Hd Hl. destruct (listBackups_descending _ _ _ Hd Hl) as (Hsorted & Hnd & Hmem).
  unfold cleanupBackups, try_catch, bind. rewrite Hl.
  case_bool_decide as Hlen.
  - destruct (unlink_all (backupDir u) (drop keepCount l) w)
      as (w' & Hrun & Hdirs & _ & Hfiles).
    { eapply sublist_NoDup; [exact Hnd|apply sublist_drop]. }
    { intros b Hb. apply Hmem. eapply elem_of_sublist; [exact Hb|apply sublist_drop]. }
    exists w'. rewrite Hrun. split; [done|]. split.
    + assert (Hd' : backupDir u ∈ dirs w') by (by rewrite Hdirs).
      destruct (listBackups u w') as [w2 r] eqn:El'.
      rewrite (listBackups_run _ _ Hd') in El'. injection El' as <- <-.
      f_equal. f_equal.
      destruct (listBackups_descending u w' _ Hd' (listBackups_run _ _ Hd'))
        as (Hsorted' & Hnd' & Hmem').
      apply (StronglySorted_unique (flip str_le)); [done| |].
      * rewrite <- (take_drop keepCount l) in Hsorted.
        by apply StronglySorted_app_1_l in Hsorted.
      * apply NoDup_Permutation; [done| |].
        { eapply sublist_NoDup; [exact Hnd|apply sublist_take]. }
        intros x. rewrite Hmem', Hfiles. simpl.
        rewrite <- (take_drop keepCount l) in Hnd, Hmem.
        apply NoDup_app in Hnd as (_ & Hdisj & _). split.
        -- case_bool_decide as Hx; [by intros [_ [? ?]]|]. intros Hin.
           apply Hmem in Hin. apply elem_of_app in Hin as [?|Hin]; [done|].
           exfalso. by apply Hx.
        -- intros Hx. rewrite bool_decide_eq_false_2 by (intros [_ ?]; by eapply Hdisj).
           apply Hmem. apply elem_of_app. by left.
    + intros p Hp. rewrite Hfiles. by rewrite bool_decide_eq_false_2 by (by intros [? _]).
  - exists w. split; [done|]. split; [|done]. rewrite take_ge; [done|lia].
Qed.

(** C1, amended: [saveStorage] replaces the file of tasks and neither adds
    a backup nor removes one. A copy of the file as it is goes into the
    directory of backups, under a name made of the time, when [createBackup]
    is called; and when [cleanupBackups] is called, the backups with the
    [keepCount] (10 when not given) greatest names remain and the others
    are removed. *)
Theorem backups_only_on_request u w c :
  files w !! tasksFile u = Some c → backupDir u ∈ dirs w →
  (∀ data,
     (saveStorage u data w).2 = Ok tt
     ∧ stored u data (saveStorage u data w).1
     ∧ ∀ backup, files (saveStorage u data w).1 !! (backupDir u, backup)
                 = files w !! (backupDir u, backup))
  ∧ (∀ iso, ∃ w',
       createBackup u iso w = (w', Ok (backupDir u, backupName iso))
       ∧ files w' !! (backupDir u, backupName iso) = Some c
       ∧ files w' !! tasksFile u = Some c)
  ∧ (∀ l, listBackups u w = (w, Ok l) →
       StronglySorted (flip str_le) l
       ∧ (∀ keepCount, ∃ w',
            cleanupBackups u keepCount w = (w', Ok tt)
            ∧ listBackups u w' = (w', Ok (take keepCount l))
            ∧ files w' !! tasksFile u = Some c)
       ∧ ∃ w', cleanupBackups_default u w = (w', Ok tt)
               ∧ listBackups u w' = (w', Ok (take 10 l))).
Proof.
  intros Hc Hd. pose proof (backupDir_neq_userDir u) as Hne. split; [|split].
  - intros data. rewrite saveStorage_run. simpl.
    split; [done|]. split; [apply after_save_stored|]. intros backup.
    apply after_save_backups.
  - intros iso. eexists. split; [by apply createBackup_copies|]. simpl.
    split; [apply lookup_insert_eq|].
    rewrite lookup_insert_ne; [done|]. unfold tasksFile. congruence.
  - intros l Hl. split; [by apply (listBackups_descending u w l)|]. split.
    + intros keepCount.
      destruct (cleanupBackups_keeps_latest u w keepCount l Hd Hl)
        as (w' & Hrun & Hlist & Hother).
      exists w'. split; [done|]. split; [done|].
      rewrite Hother; [done|]. simpl. congruence.
    + destruct (cleanupBackups_keeps_latest u w 10 l Hd Hl) as (w' & Hrun & Hlist & _).
      by exists w'.
Qed.

Lemma backups_only_on_request_witness :
  let c := StorageJson DEFAULT_STORAGE_DATA_init in
  let w := mkWorld {[ tasksFile "u" := c;
                      (backupDir "u", "tasks-2024-01-01.json") := c;
                      (backupDir "u", "tasks-2024-03-01.json") := c;
                      (backupDir "u", "tasks-2024-02-01.json") := c;
                      (backupDir "u", "notes.txt") := c ]}
                   {[ userDir "u"; backupDir "u" ]} DEFAULT_STORAGE_DATA_init in
  ∃ w', cleanupBackups "u" 2 w = (w', Ok tt)
        ∧ listBackups "u" w'
          = (w', Ok ["tasks-2024-03-01.json"; "tasks-2024-02-01.json"]).
Proof.
  intros c w.
  destruct (backups_only_on_request "u" w c) as (_ & _ & Hclean).
  - by vm_compute.
  - apply (bool_decide_unpack _). by vm_compute.
  - destruct (Hclean ["tasks-2024-03-01.json"; "tasks-2024-02-01.json";
                      "tasks-2024-01-01.json"]) as (_ & Hkeep & _).
    + by vm_compute.
    + destruct (Hkeep 2%nat) as (w' & Hrun & Hlist & _). exists w'.
      split; [exact Hrun|exact Hlist].
Defined.

(* ===================================================================== *)
(** * Further properties: ids and states *)
(* ===================================================================== *)

(** X1: whatever the array holds (repetitions, negative numbers), the id
    [generateTaskId] returns is not in it, and lies between 0 and the length
    of the array. *)
Theorem generateTaskId_unused_and_small (l : list Z) :
  validateUniqueId (generateTaskId l) l = true
  ∧ 0 ≤ generateTaskId l ≤ Z.of_nat (length l).
Proof.
  split.
  - unfold validateUniqueId. apply negb_true_iff, includes_false, generateTaskId_fresh.
  - unfold generateTaskId. case_bool_decide; [lia|]. case_bool_decide; [lia|].
    destruct (scan_gap_enough l 0) as [r Hr]. rewrite Hr. simpl.
    apply scan_gap_Some in Hr as (Hr0 & _ & Hbelow). split; [done|].
    assert (Hsub : seqZ 0 r ⊆+ l).
    { apply NoDup_submseteq; [apply NoDup_seqZ|]. intros x Hx%elem_of_seqZ.
      apply Hbelow. lia. }
    apply submseteq_length in Hsub. rewrite length_seqZ in Hsub. lia.
Qed.

Lemma findIndex_None s sts : findIndex s sts = None ↔ validateState s sts = false.
Proof.
  induction sts as [|x r IH]; simpl; [done|].
  case_bool_decide; simpl; [done|]. rewrite fmap_None. exact IH.
Qed.

Lemma findIndex_Some s sts k :
  findIndex s sts = Some k → ∃ sk, sts !! k = Some sk ∧ Some (name sk) = s.
Proof.
  revert k. induction sts as [|x r IH]; intros k; simpl; [done|].
  case_bool_decide as Hx.
  - intros [= <-]. by exists x.
  - intros (k' & Hk' & ->)%fmap_Some. by apply IH.
Qed.

Lemma getStateInfo_None s sts : getStateInfo s sts = None ↔ validateState s sts = false.
Proof.
  unfold getStateInfo, validateState. induction sts as [|x r IH]; simpl; [done|].
  by destruct (bool_decide _).
Qed.

(** X2: the lookups of a state agree: [validateState] answers true exactly
    when [getStateInfo] finds the state and exactly when [getNextState] does
    not throw; [getNextState] never reads past the end of the sequence and
    returns a configured state; and [getStateIcon] is never empty, the
    question mark for a state that is not configured. *)
Theorem state_lookups_agree (s : option string) (sts : list TaskState) :
  (validateState s sts = true ↔ is_Some (getStateInfo s sts))
  ∧ (validateState s sts = false ↔ getNextState s sts = NextUnknown)
  ∧ getNextState s sts ≠ NextTypeError
  ∧ (∀ n, getNextState s sts = NextName n → validateState (Some n) sts = true)
  ∧ getStateIcon s sts ≠ ""
  ∧ (validateState s sts = false → getStateIcon s sts = "?").
Proof.
  split; [|split; [|split; [|split; [|split]]]].
  - rewrite <- not_eq_None_Some, getStateInfo_None. by destruct (validateState s sts).
  - unfold getNextState. destruct (findIndex s sts) as [k|] eqn:Ek.
    + assert (validateState s sts ≠ false) by (by rewrite <- findIndex_None, Ek).
      apply findIndex_Some in Ek as (sk & Hk%lookup_lt_Some & _).
      case_bool_decide; [done|].
      destruct (lookup_lt_is_Some_2 sts (S k)) as [x ->]; [lia|]. done.
    + split; [done|]. intros _. by apply findIndex_None.
  - unfold getNextState. destruct (findIndex s sts) as [k|] eqn:Ek; [|done].
    apply findIndex_Some in Ek as (sk & Hk%lookup_lt_Some & _).
    case_bool_decide; [done|].
    destruct (lookup_lt_is_Some_2 sts (S k)) as [x ->]; [lia|]. done.
  - intros n. unfold getNextState. destruct (findIndex s sts) as [k|]; [|done].
    case_bool_decide; [done|]. destruct (sts !! S k) as [x|] eqn:Ex; [|done].
    intros [= <-]. by eapply validateState_member.
  - unfold getStateIcon. destruct (getStateInfo s sts) as [x|]; [|done].
    destruct (String.eqb_spec (icon x) ""); done.
  - intros Hv%getStateInfo_None. unfold getStateIcon. by rewrite Hv.
Qed.

(** X3: when the states have distinct names, a configured state is the
    final one exactly when [getNextState] returns [null] for it. *)
Theorem isFinalState_iff_no_next (s : option string) (sts : list TaskState) :
  NoDup (name <$> sts) → validateState s sts = true →
  (isFinalState s sts = Some true ↔ getNextState s sts = NextNull)
  ∧ (isFinalState s sts = Some false ↔ ∃ n, getNextState s sts = NextName n).
Proof.
  intros Hnd Hvalid.
  destruct (findIndex s sts) as [k|] eqn:Ek.
  2:{ apply findIndex_None in Ek. congruence. }
  pose proof Ek as Ek'. apply findIndex_Some in Ek' as (sk & Hk & <-).
  assert (Hlt := lookup_lt_Some _ _ _ Hk).
  destruct (last sts) as [f|] eqn:Ef.
  2:{ apply last_None in Ef. subst. done. }
  assert (Hf : sts !! (length sts - 1)%nat = Some f).
  { rewrite <- Ef. by rewrite last_lookup, Nat.sub_1_r. }
  assert (Hlast : name sk = name f ↔ S k = length sts).
  { split.
    - intros E. pose proof (findIndex_NoDup _ _ _ Hnd Hf) as H1.
      rewrite <- E, Ek in H1. injection H1 as ->. lia.
    - intros E. replace (length sts - 1)%nat with k in Hf by lia. congruence. }
  unfold isFinalState, getFinalState, getNextState. rewrite Ef, Ek. simpl.
  split.
  - split.
    + intros [= Hb]. apply bool_decide_eq_true in Hb. injection Hb as Hb.
      by rewrite bool_decide_eq_true_2 by (by apply Hlast).
    + case_bool_decide as Hl; [|by destruct (sts !! S k)].
      intros _. f_equal. apply bool_decide_eq_true. f_equal. by apply Hlast.
  - split.
    + intros [= Hb]. apply bool_decide_eq_false in Hb.
      rewrite bool_decide_eq_false_2.
      * destruct (lookup_lt_is_Some_2 sts (S k)) as [x ->]; [|by eexists].
        assert (S k ≠ length sts) by (intros E; apply Hb; f_equal; by apply Hlast). lia.
      * intros E. apply Hb. f_equal. by apply Hlast.
    + intros [n Hn]. case_bool_decide as Hl; [done|].
      f_equal. apply bool_decide_eq_false. intros [= E]. by apply Hl, Hlast.
Qed.

Lemma isFinalState_iff_no_next_witness :
  isFinalState (Some "done") DEFAULT_TASK_STATES = Some true
  ↔ getNextState (Some "done") DEFAULT_TASK_STATES = NextNull.
Proof.
  apply (isFinalState_iff_no_next (Some "done") DEFAULT_TASK_STATES).
  - apply (bool_decide_unpack _). by vm_compute.
  - reflexivity.
Defined.

(* ===================================================================== *)
(** * Further properties: the storage of a user *)
(* ===================================================================== *)

Lemma initialize_run u w :
  initialize u w
  = (mkWorld (match files w !! tasksFile u with
              | Some _ => files w
              | None => <[tasksFile u := StorageJson (DEFAULT_STORAGE_DATA w)]> (files w)
              end)
             ({[ backupDir u ]} ∪ ({[ userDir u ]} ∪ dirs w))
             (DEFAULT_STORAGE_DATA w),
     Ok tt).
Proof.
  unfold initialize, fs_mkdir, fs_access, fs_writeFile. run.
  destruct (files w !! tasksFile u); simpl; [done|].
  rewrite bool_decide_eq_true_2 by set_solver. done.
Qed.

(** [loadStorage] by what the file of tasks holds. *)
Lemma loadStorage_run u w :
  loadStorage u w
  = match files w !! tasksFile u with
    | None =>
        (mkWorld (<[tasksFile u := StorageJson (DEFAULT_STORAGE_DATA w)]> (files w))
                 ({[ backupDir u ]} ∪ ({[ userDir u ]} ∪ dirs w))
                 (DEFAULT_STORAGE_DATA w),
         Ok TheDefault)
    | Some BadJson => (w, Throw LoadFailed)
    | Some (StorageJson sf) => (w, Ok (Parsed sf))
    | Some (OtherJson data) =>
        if invalid_structure data then (w, Throw LoadFailed)
        else (w, Ok (ParsedOther data))
    end.
Proof.
  destruct (files w !! tasksFile u) as [c|] eqn:Ec; [|by apply loadStorage_missing].
  unfold loadStorage, fs_readFile. run. rewrite Ec. simpl.
  destruct c as [|j|sf]; simpl; [done| |done].
  destruct (invalid_structure j) eqn:Ei; destruct j; simpl; try rewrite Ei; done.
Qed.

(** X4: on a file of tasks that exists [loadStorage] writes nothing; it
    fails exactly when the file is not JSON or does not hold a document of
    the expected shape, and then with "Failed to load tasks"; a stored
    document is returned as it is. *)
Theorem loadStorage_fails_only_on_unreadable_file u w c :
  files w !! tasksFile u = Some c →
  ∃ r, loadStorage u w = (w, r)
       ∧ (∀ e, r = Throw e →
               e = LoadFailed
               ∧ (c = BadJson
                  ∨ ∃ data, c = OtherJson data ∧ invalid_structure data = true))
       ∧ (c = BadJson ∨ (∃ data, c = OtherJson data ∧ invalid_structure data = true) →
          r = Throw LoadFailed)
       ∧ (∀ sf, c = StorageJson sf → r = Ok (Parsed sf)).
Proof.
  intros Hc. rewrite loadStorage_run, Hc.
  destruct c as [|data|sf].
  - eexists. split; [done|]. split; [|split]; [|done|done].
    intros e [= <-]. eauto.
  - destruct (invalid_structure data) eqn:Ei.
    + eexists. split; [done|]. split; [|split]; [|done|done].
      intros e [= <-]. eauto 10.
    + eexists. split; [done|]. split; [done|]. split; [|done].
      intros [?|(data' & [= <-] & Hinv)]; [done|congruence].
  - eexists. split; [done|]. split; [done|]. split.
    + intros [?|(? & ? & ?)]; discriminate.
    + by intros sf' [= <-].
Qed.

Lemma loadStorage_fails_only_on_unreadable_file_witness :
  let w := mkWorld {[ tasksFile "u" := BadJson ]} {[ userDir "u" ]}
                   DEFAULT_STORAGE_DATA_init in
  loadStorage "u" w = (w, Throw LoadFailed).
Proof.
  intros w.
  destruct (loadStorage_fails_only_on_unreadable_file "u" w BadJson eq_refl)
    as (r & Hrun & _ & Hbad & _).
  rewrite Hrun. f_equal. apply Hbad. by left.
Defined.

(** X5: what [saveStorage] writes is what the next [loadStorage] returns,
    whatever the file held before (nothing, text that is not JSON, another
    forest), and the temporary file is gone. *)
Theorem saveStorage_then_loadStorage u data w :
  (saveStorage u data ;;; storageData <- loadStorage u ;; deref storageData) w
  = (after_save u data w, Ok data)
  ∧ files (after_save u data w) !! tempFile u = None.
Proof.
  split.
  - unfold bind at 1. rewrite saveStorage_run.
    unfold bind. rewrite (loadStorage_stored u data); [done|apply after_save_stored].
  - simpl. rewrite lookup_insert_ne by (apply not_eq_sym, tempFile_neq_tasksFile).
    apply lookup_delete_eq.
Qed.

(** X6: when [initialize] succeeds, it has left a file of tasks that
    existed as it was (also one that cannot be read) and has written the
    default document when there was none; both directories exist; and run
    again in the world it left, it succeeds and changes nothing. *)
Theorem initialize_creates_once u w w' :
  initialize u w = (w', Ok tt) →
  (∀ c, files w !! tasksFile u = Some c → files w' = files w)
  ∧ (files w !! tasksFile u = None →
     files w' = <[tasksFile u := StorageJson (DEFAULT_STORAGE_DATA w)]> (files w))
  ∧ userDir u ∈ dirs w' ∧ backupDir u ∈ dirs w'
  ∧ initialize u w' = (w', Ok tt).
Proof.
  rewrite initialize_run. intros [= <-]. split; [|split; [|split; [|split]]].
  - intros c Hc. simpl. by rewrite Hc.
  - intros Hc. simpl. by rewrite Hc.
  - simpl. apply elem_of_union_r, elem_of_union_l. by apply elem_of_singleton.
  - simpl. apply elem_of_union_l. by apply elem_of_singleton.
  - rewrite initialize_run. simpl. f_equal.
    rewrite (assoc_L (∪) _ _ ({[backupDir u]} ∪ _)), (subseteq_union_1_L _ ({[backupDir u]} ∪ _))
      by (rewrite (assoc_L (∪)); apply union_subseteq_l).
    f_equal.
    destruct (files w !! tasksFile u) as [c|] eqn:Ec.
    + by rewrite Ec.
    + by rewrite lookup_insert_eq.
Qed.

Lemma initialize_creates_once_witness :
  let w' := (initialize "u" fresh_world).1 in
  initialize "u" fresh_world = (w', Ok tt)
  ∧ files w' !! tasksFile "u" = Some (StorageJson DEFAULT_STORAGE_DATA_init)
  ∧ initialize "u" w' = (w', Ok tt).
Proof.
  intros w'.
  assert (Hrun : initialize "u" fresh_world = (w', Ok tt)) by reflexivity.
  destruct (initialize_creates_once "u" fresh_world w' Hrun)
    as (_ & Hnew & _ & _ & Hagain).
  split; [exact Hrun|]. split; [|exact Hagain].
  rewrite (Hnew eq_refl). reflexivity.
Defined.

Lemma restoreFromBackup_run u p c w :
  files w !! p = Some c → userDir u ∈ dirs w →
  restoreFromBackup u p w = (set_files (insert (tasksFile u) c) w, Ok tt).
Proof.
  intros Hp Hd. unfold restoreFromBackup, fs_copyFile, fs_readFile, fs_writeFile. run.
  rewrite Hp. simpl. by rewrite bool_decide_eq_true_2.
Qed.

(** X7: a backup made before the file is overwritten brings the old contents
    back when it is restored; restoring from a path that holds no file fails
    with "Failed to restore from backup" and writes nothing. *)
Theorem restoreFromBackup_brings_back u w c iso data :
  files w !! tasksFile u = Some c → backupDir u ∈ dirs w →
  (∃ w', (backup <- createBackup u iso ;;
          saveStorage u data ;;;
          restoreFromBackup u backup) w = (w', Ok tt)
         ∧ files w' !! tasksFile u = Some c)
  ∧ (∀ p, files w !! p = None → restoreFromBackup u p w = (w, Throw RestoreFailed)).
Proof.
  intros Hc Hd. split.
  - unfold bind at 1. rewrite (createBackup_copies u w c iso Hc Hd).
    unfold bind. rewrite saveStorage_run.
    set (w1 := set_files _ w).
    rewrite (restoreFromBackup_run u _ c).
    + eexists. split; [done|]. apply lookup_insert_eq.
    + rewrite after_save_backups. apply lookup_insert_eq.
    + simpl. set_solver.
  - intros p Hp. unfold restoreFromBackup, fs_copyFile, fs_readFile. run.
    by rewrite Hp.
Qed.

Lemma restoreFromBackup_brings_back_witness :
  let sf := mkStorageFile (mkMeta DEFAULT_TASK_STATES) [sample_task 1 "todo"] in
  let w := sample_world "u" DEFAULT_TASK_STATES [sample_task 1 "todo"] in
  ∃ w', (backup <- createBackup "u" "2024-01-01T10:00:00.000Z" ;;
         saveStorage "u" DEFAULT_STORAGE_DATA_init ;;;
         restoreFromBackup "u" backup) w = (w', Ok tt)
        ∧ files w' !! tasksFile "u" = Some (StorageJson sf).
Proof.
  intros sf w.
  destruct (restoreFromBackup_brings_back "u" w (StorageJson sf)
              "2024-01-01T10:00:00.000Z" DEFAULT_STORAGE_DATA_init)
    as [(w' & Hrun & Hfile) _].
  - reflexivity.
  - apply (bool_decide_unpack _). by vm_compute.
  - exists w'. split; [exact Hrun|exact Hfile].
Defined.

(** X8: with no file of tasks, [createBackup] writes the default document
    as the backup and creates no file of tasks; and in a directory of
    backups that does not exist it fails with "Failed to create backup",
    whatever the file of tasks is, and writes nothing. *)
Theorem createBackup_without_file_or_directory u w iso :
  (files w !! tasksFile u = None → backupDir u ∈ dirs w →
   createBackup u iso w
   = (set_files (insert (backupDir u, backupName iso)
                        (StorageJson (DEFAULT_STORAGE_DATA w))) w,
      Ok (backupDir u, backupName iso)))
  ∧ (backupDir u ∉ dirs w → createBackup u iso w = (w, Throw BackupFailed)).
Proof.
  split.
  - intros Hc Hd. unfold createBackup, fs_copyFile, fs_readFile, fs_writeFile. run.
    rewrite Hc. simpl. by rewrite bool_decide_eq_true_2.
  - intros Hd. unfold createBackup, fs_copyFile, fs_readFile, fs_writeFile. run.
    destruct (files w !! tasksFile u); simpl;
      rewrite bool_decide_eq_false_2 by done; simpl;
      rewrite ?bool_decide_eq_false_2 by done; done.
Qed.

Lemma listBackups_missing u w : backupDir u ∉ dirs w → listBackups u w = (w, Ok []).
Proof.
  intros Hd. unfold listBackups, fs_readdir. run. by rewrite bool_decide_eq_false_2.
Qed.

(** X9: [listBackups] never fails and never writes; the list it returns is
    in descending order of names, has no repetition, and holds exactly the
    names [tasks-*.json] of the files of the directory of backups, none when
    the directory does not exist. *)
Theorem listBackups_total u w :
  ∃ l, listBackups u w = (w, Ok l)
       ∧ StronglySorted (flip str_le) l ∧ NoDup l
       ∧ ∀ n, n ∈ l ↔ backupDir u ∈ dirs w ∧ isBackupName n
                       ∧ is_Some (files w !! (backupDir u, n)).
Proof.
  destruct (decide (backupDir u ∈ dirs w)) as [Hd|Hd].
  - eexists. split; [by apply listBackups_run|].
    destruct (listBackups_descending u w _ Hd (listBackups_run u w Hd)) as (Hs & Hn & Hm).
    split; [done|]. split; [done|]. intros n. rewrite Hm. tauto.
  - exists []. split; [by apply listBackups_missing|].
    split; [constructor|]. split; [constructor|].
    intros n. split; [by intros ?%elem_of_nil|tauto].
Qed.

(** X10: for every natural number [keepCount], [cleanupBackups] does not
    fail; it removes only files [tasks-*.json] of the directory of backups
    (so never the file of tasks, nor a backup of the configuration, which
    lives in the same directory), and a second run with the same count
    removes nothing. *)
Theorem cleanupBackups_idempotent u keepCount w :
  ∃ w', cleanupBackups u keepCount w = (w', Ok tt)
        ∧ cleanupBackups u keepCount w' = (w', Ok tt)
        ∧ (∀ p, ¬ (p.1 = backupDir u ∧ isBackupName p.2 = true) →
                files w' !! p = files w !! p).
Proof.
  destruct (decide (backupDir u ∈ dirs w)) as [Hd|Hd].
  2:{ exists w. unfold cleanupBackups. run. rewrite (listBackups_missing u w Hd). simpl.
      done. }
  pose proof (listBackups_run u w Hd) as Hl.
  destruct (listBackups_descending u w _ Hd Hl) as (Hsorted & Hnd & Hmem).
  set (l := reverse _) in *.
  destruct (unlink_all (backupDir u) (drop keepCount l) w) as (w1 & Hrun & Hdirs & _ & Hfiles).
  { eapply sublist_NoDup; [exact Hnd|apply sublist_drop]. }
  { intros b Hb. apply Hmem. eapply elem_of_sublist; [exact Hb|apply sublist_drop]. }
  destruct (cleanupBackups_keeps_latest u w keepCount l Hd Hl) as (w' & Hc & Hl' & _).
  assert (Hw' : ∀ p, ¬ (p.1 = backupDir u ∧ isBackupName p.2 = true) →
                     files w' !! p = files w !! p).
  { intros p Hp. revert Hc. unfold cleanupBackups. run. rewrite Hl. simpl.
    case_bool_decide.
    - rewrite Hrun. intros [= <-]. rewrite Hfiles. case_bool_decide as Hin; [|done].
      destruct Hin as [Hp1 Hp2]. exfalso. apply Hp. split; [done|].
      assert (p.2 ∈ l) as Hin by (eapply elem_of_sublist; [exact Hp2|apply sublist_drop]).
      apply Hmem in Hin as [Hb _]. by destruct (isBackupName p.2).
    - by intros [= <-]. }
  exists w'. split; [exact Hc|]. split; [|exact Hw'].
  unfold cleanupBackups. run. rewrite Hl'. simpl.
  rewrite bool_decide_eq_false_2; [done|]. rewrite length_take. lia.
Qed.

(** X11: [isEmpty] never fails. On a stored forest it tells whether the
    forest has no task and writes nothing; on a file it cannot read it
    answers true; with no file it creates the file from the shared default
    object and answers by that object. *)
Theorem isEmpty_never_fails u w :
  ∃ w' b, isEmpty u w = (w', Ok b)
    ∧ (∀ sf, stored u sf w → w' = w ∧ b = bool_decide (datas sf = []))
    ∧ (∀ c, files w !! tasksFile u = Some c →
            c = BadJson ∨ (∃ data, c = OtherJson data ∧ invalid_structure data = true) →
            w' = w ∧ b = true)
    ∧ (files w !! tasksFile u = None →
       b = bool_decide (datas (DEFAULT_STORAGE_DATA w) = [])
       ∧ stored u (DEFAULT_STORAGE_DATA w) w').
Proof.
  unfold isEmpty, try_catch, bind. rewrite loadStorage_run.
  destruct (files w !! tasksFile u) as [[|data|sf]|] eqn:Ec.
  - exists w, true. split; [done|]. split; [intros sf' Hst; unfold stored in Hst; congruence|]. done.
  - destruct (invalid_structure data) eqn:Ei.
    + exists w, true. split; [done|]. split; [intros sf' Hst; unfold stored in Hst; congruence|]. done.
    + pose proof Ei as (m & sts & ds & _ & _ & Hds)%invalid_structure_false.
      rewrite Hds. exists w, (bool_decide (ds = [])). split; [done|].
      split; [intros sf' Hst; unfold stored in Hst; congruence|]. split; [|done].
      intros c [= <-] [?|(data' & [= <-] & Hinv)]; [done|congruence].
  - exists w, (bool_decide (datas sf = [])). split; [done|]. split; [|split; [|done]].
    + intros sf' Hst. unfold stored in Hst. rewrite Ec in Hst. by injection Hst as <-.
    + intros c [= <-] [?|(? & ? & ?)]; discriminate.
  - unfold get_world, ret. simpl. eexists _, _. split; [done|].
    split; [intros sf' Hst; unfold stored in Hst; congruence|]. split; [done|].
    intros _. split; [done|]. unfold stored. simpl. apply lookup_insert_eq.
Qed.

(* ===================================================================== *)
(** * Further properties: reading the forest *)
(* ===================================================================== *)

Lemma getTask_stored u sf w taskId :
  stored u sf w →
  getTask u taskId w
  = (w, match findTaskById taskId (datas sf) with
        | Some task => Ok task
        | None => Throw (TaskNotFoundError taskId)
        end).
Proof.
  intros Hst. unfold getTask. unfold bind at 1.
  rewrite (loadStorage_stored _ _ _ Hst). run. by destruct (findTaskById _ _).
Qed.

Lemma getSubtasks_stored u sf w parentId :
  stored u sf w →
  getSubtasks u parentId w
  = (w, match findTaskById parentId (datas sf) with
        | Some parent => Ok (default [] (task_subtasks parent))
        | None => Throw (TaskNotFoundError parentId)
        end).
Proof.
  intros Hst. unfold getSubtasks, bind. rewrite (getTask_stored _ _ _ _ Hst).
  by destruct (findTaskById _ _).
Qed.

(** X12: on a stored forest [getTask] writes nothing, succeeds exactly on
    the ids that [extractAllIds] lists and fails with [TaskNotFoundError] on
    the others; what it returns is a task of the forest with the id asked
    for, and when the ids are unique it is the only such task. *)
Theorem getTask_finds_the_listed_ids u sf w taskId :
  stored u sf w →
  (taskId ∈ extractAllIds (datas sf) ↔ ∃ t, getTask u taskId w = (w, Ok t))
  ∧ (taskId ∉ extractAllIds (datas sf)
     ↔ getTask u taskId w = (w, Throw (TaskNotFoundError taskId)))
  ∧ (∀ t, getTask u taskId w = (w, Ok t) →
          task_id t = Some taskId ∧ in_forest t (datas sf))
  ∧ (unique_ids (datas sf) →
     ∀ t, in_forest t (datas sf) → task_id t = Some taskId →
          getTask u taskId w = (w, Ok t)).
Proof.
  intros Hst. rewrite (getTask_stored _ _ _ _ Hst).
  rewrite <- findTaskById_None, <- findTaskById_is_Some.
  destruct (findTaskById taskId (datas sf)) as [x|] eqn:Ex.
  - apply findTaskById_Some in Ex as [Hin Hid].
    split; [split; eauto|]. split; [split; [by intros ?|by intros ?]|].
    split; [by intros t [= <-]|].
    intros Hu t Ht Htid. do 2 f_equal. by eapply in_forest_unique.
  - split; [split; [by intros [? ?]|by intros [? ?]]|]. split; [done|].
    split; [done|]. intros _ t Ht Htid. exfalso.
    apply findTaskById_None in Ex. apply Ex.
    eapply in_forest_ids; [exact Ht|]. by apply own_id_listed.
Qed.

Lemma getTask_finds_the_listed_ids_witness :
  let w := sample_world "u" DEFAULT_TASK_STATES
             [sample_node 1 "todo" [sample_task 2 "done"]] in
  (2 ∈ [1; 2] ↔ ∃ t, getTask "u" 2 w = (w, Ok t))
  ∧ getTask "u" 2 w = (w, Ok (sample_task 2 "done")).
Proof.
  intros w.
  destruct (getTask_finds_the_listed_ids "u"
              (mkStorageFile (mkMeta DEFAULT_TASK_STATES)
                 [sample_node 1 "todo" [sample_task 2 "done"]]) w 2 eq_refl)
    as (Hiff & _ & _ & _).
  split; [exact Hiff|reflexivity].
Defined.

(* ===================================================================== *)
(** * Further properties: adding, deleting, editing, moving *)
(* ===================================================================== *)

Lemma first_some_app {A B} (body : A → option B) l k :
  first_some body (l ++ k)
  = match first_some body l with Some y => Some y | None => first_some body k end.
Proof. induction l as [|x l IH]; simpl; [done|]. by destruct (body x). Qed.

Lemma findInTask_own id t : task_id t = Some id → findInTask id t = Some t.
Proof. intros Hid. destruct t. simpl in *. by rewrite bool_decide_eq_true_2. Qed.

Lemma findTaskById_app_fresh id ts t :
  id ∉ extractAllIds ts → task_id t = Some id → findTaskById id (ts ++ [t]) = Some t.
Proof.
  intros Hfresh Hid. unfold findTaskById. rewrite first_some_app.
  apply findTaskById_None in Hfresh. unfold findTaskById in Hfresh. rewrite Hfresh.
  simpl. by rewrite (findInTask_own _ _ Hid).
Qed.

Lemma not_in_subtasks id t subs :
  id ∉ extractFromTask t → task_subtasks t = Some subs →
  task_id t ≠ Some id ∧ id ∉ extractAllIds subs.
Proof.
  intros Hnot Hsubs. rewrite extractFromTask_unfold, Hsubs in Hnot. simpl in Hnot.
  apply not_elem_of_app in Hnot as [Hown Hsub]. split; [|done].
  intros E. rewrite E in Hown. apply Hown. by left.
Qed.

Lemma not_in_leaf id t :
  id ∉ extractFromTask t → task_id t ≠ Some id.
Proof.
  intros Hnot E. apply Hnot. by apply own_id_listed.
Qed.

(** The task pushed under a parent is found by its id, when the id is new. *)
Lemma findInTask_pushed id pid task t t' :
  id ∉ extractFromTask t → task_id task = Some id →
  modifyInTask pid (push_subtask task) t = Some t' →
  findInTask id t' = Some task.
Proof.
  revert t'. induction t as [t IH] using Task_nested_ind. intros t' Hnot Hid.
  pose proof (not_in_leaf _ _ Hnot) as Hown.
  destruct t as [n d i subs ts st pr]. simpl in *.
  case_bool_decide as Hpid.
  - intros [= <-]. unfold push_subtask. simpl.
    rewrite bool_decide_eq_false_2 by done.
    rewrite first_some_app.
    assert (Hsubs : first_some (findInTask id) (default [] subs) = None).
    { destruct subs as [subs|]; [|done].
      apply (findTaskById_None id subs).
      by apply (not_in_subtasks id (mkTask n d i (Some subs) ts st pr) subs). }
    rewrite Hsubs. simpl. by rewrite (findInTask_own _ _ Hid).
  - destruct subs as [subs|]; [|done]. intros Hmod.
    apply fmap_Some in Hmod as (subs' & Hmod & ->). simpl.
    rewrite bool_decide_eq_false_2 by done.
    specialize (IH _ eq_refl).
    destruct (not_in_subtasks id (mkTask n d i (Some subs) ts st pr) subs Hnot eq_refl)
      as [_ Hnsubs].
    apply modify_first_Some in Hmod as (pre & c & c' & post & -> & -> & Hc & Hpre).
    rewrite extractAllIds_app, extractAllIds_cons in Hnsubs.
    apply not_elem_of_app in Hnsubs as [Hnpre Hnc].
    apply not_elem_of_app in Hnc as [Hnc _].
    apply Forall_app in IH as [_ IH]. apply Forall_cons in IH as [IHc _].
    rewrite first_some_app.
    apply findTaskById_None in Hnpre. unfold findTaskById in Hnpre. rewrite Hnpre.
    simpl. by rewrite (IHc _ Hnc Hid Hc).
Qed.

Lemma findTaskById_pushed id pid task ts ts' :
  id ∉ extractAllIds ts → task_id task = Some id →
  modifyTaskById pid (push_subtask task) ts = Some ts' →
  findTaskById id ts' = Some task.
Proof.
  unfold modifyTaskById, findTaskById. intros Hnot Hid Hmod.
  apply modify_first_Some in Hmod as (pre & c & c' & post & -> & -> & Hc & Hpre).
  rewrite extractAllIds_app, extractAllIds_cons in Hnot.
  apply not_elem_of_app in Hnot as [Hnpre Hnc].
  apply not_elem_of_app in Hnc as [Hnc _].
  rewrite first_some_app.
  apply findTaskById_None in Hnpre. unfold findTaskById in Hnpre. rewrite Hnpre.
  simpl. by rewrite (findInTask_pushed _ _ _ _ _ Hnc Hid Hc).
Qed.

Lemma getAllTasks_stored u sf w : stored u sf w → getAllTasks u w = (w, Ok (datas sf)).
Proof.
  intros Hst. unfold getAllTasks. unfold bind at 1.
  by rewrite (loadStorage_stored _ _ _ Hst).
Qed.

(** X13: [addTask] with task data that carries no id returns the id
    [generateTaskId] gives for the ids of the forest; [getTask] on that id
    then returns the new task, which has this id, the timestamp of the call
    unless the data carry one, and a configured state; and the task is the
    last one of the forest, or the last subtask of the parent asked for. *)
Theorem addTask_then_getTask u sf w now taskData parentId w' id :
  stored u sf w → p_id taskData = None →
  addTask u now taskData parentId w = (w', Ok id) →
  id = generateTaskId (extractAllIds (datas sf))
  ∧ ∃ task,
      getTask u id w' = (w', Ok task)
      ∧ task_id task = Some id
      ∧ task_timestamp task = override (Some now) (p_timestamp taskData)
      ∧ validateState (task_state task) (states (meta sf)) = true
      ∧ match parentId with
        | None => getAllTasks u w' = (w', Ok (datas sf ++ [task]))
        | Some pid =>
            ∃ parent, findTaskById pid (datas sf) = Some parent
                      ∧ getSubtasks u pid w'
                        = (w', Ok (default [] (task_subtasks parent) ++ [task]))
        end.
Proof.
  intros Hst Hnoid. rewrite (addTask_stored _ _ _ _ _ _ Hst). unfold add_step.
  assert (Hid : choose_id taskData (extractAllIds (datas sf))
                = generateTaskId (extractAllIds (datas sf))).
  { unfold choose_id. by rewrite Hnoid. }
  rewrite Hid. set (g := generateTaskId _).
  destruct (state_or_default taskData (states (meta sf))) as [state0|e]; [|done].
  set (task := task_literal g now state0 taskData).
  destruct (validateState (task_state task) (states (meta sf))) eqn:Ev; [|done].
  assert (Htid : task_id task = Some g) by (unfold task; simpl; by rewrite Hnoid).
  assert (Hfresh : g ∉ extractAllIds (datas sf)) by apply generateTaskId_fresh.
  simpl. destruct parentId as [pid|].
  - destruct (modifyTaskById pid (push_subtask task) (datas sf)) as [ds|] eqn:Em; [|done].
    intros [= <- <-]. split; [done|]. exists task.
    pose proof (after_save_stored u (set_datas ds sf) w) as Hst'.
    rewrite (getTask_stored _ _ _ _ Hst'). simpl.
    rewrite (findTaskById_pushed _ _ _ _ _ Hfresh Htid Em).
    split; [done|]. split; [done|]. split; [done|]. split; [done|].
    destruct (findTaskById pid (datas sf)) as [parent|] eqn:Ep.
    2:{ apply (modifyTaskById_None pid (push_subtask task)) in Ep. congruence. }
    exists parent. split; [done|].
    rewrite (getSubtasks_stored _ _ _ _ Hst'). simpl.
    rewrite (findTaskById_modify _ _ _ _ _ Ep Em).
    + done.
    + simpl. by apply findTaskById_Some in Ep as [_ ?].
  - intros [= <- <-]. split; [done|]. exists task.
    pose proof (after_save_stored u (set_datas (datas sf ++ [task]) sf) w) as Hst'.
    rewrite (getTask_stored _ _ _ _ Hst'). simpl.
    rewrite (findTaskById_app_fresh _ _ _ Hfresh Htid).
    split; [done|]. split; [done|]. split; [done|]. split; [done|].
    by rewrite (getAllTasks_stored _ _ _ Hst').
Qed.

Lemma addTask_then_getTask_witness :
  let w := sample_world "u" DEFAULT_TASK_STATES
             [sample_node 0 "todo" [sample_task 1 "done"]] in
  let r := addTask "u" "02/01/2024" (named "B") (Some 0) w in
  r.2 = Ok 2
  ∧ ∃ task, getTask "u" 2 r.1 = (r.1, Ok task)
            ∧ getSubtasks "u" 0 r.1 = (r.1, Ok [sample_task 1 "done"; task]).
Proof.
  intros w r.
  assert (Hrun : addTask "u" "02/01/2024" (named "B") (Some 0) w = (r.1, Ok 2))
    by reflexivity.
  destruct (addTask_then_getTask "u"
              (mkStorageFile (mkMeta DEFAULT_TASK_STATES)
                 [sample_node 0 "todo" [sample_task 1 "done"]])
              w "02/01/2024" (named "B") (Some 0) r.1 2 eq_refl eq_refl Hrun)
    as (_ & task & Hget & _ & _ & _ & parent & Hparent & Hsubs).
  split; [reflexivity|]. exists task. split; [exact Hget|].
  injection Hparent as <-. exact Hsubs.
Defined.

Lemma delete_step_of_found id ts x :
  findTaskById id ts = Some x → ∃ ds, delete_step ts id = Ok ds.
Proof.
  intros Hfind. destruct (delete_step ts id) as [ds|e] eqn:Ed; [by eexists|].
  apply delete_step_Throw in Ed as [_ Hnot]. exfalso. apply Hnot.
  apply findTaskById_is_Some. by eexists.
Qed.

(** X14: deleting one task of a forest with unique ids removes the task
    with everything under it and nothing else: afterwards [getTask] fails
    on each id of the subtree and still succeeds on every other id. *)
Theorem deleteTask_removes_the_subtree_only u sf w taskId t :
  stored u sf w → unique_ids (datas sf) →
  findTaskById taskId (datas sf) = Some t →
  ∃ w', deleteTask u [taskId] w = (w', Ok tt)
        ∧ ∀ i, (i ∈ extractFromTask t →
                getTask u i w' = (w', Throw (TaskNotFoundError i)))
               ∧ (i ∈ extractAllIds (datas sf) → i ∉ extractFromTask t →
                  ∃ x, getTask u i w' = (w', Ok x) ∧ task_id x = Some i).
Proof.
  intros Hst Hnd Hfind. rewrite (deleteTask_stored _ _ _ _ Hst). simpl.
  destruct (delete_step_of_found _ _ _ Hfind) as [ds Ed]. rewrite Ed.
  pose proof (delete_step_found _ _ _ _ Hnd Hfind Ed) as Hperm.
  eexists. split; [done|]. intros i.
  rewrite (getTask_stored _ _ _ _ (after_save_stored u (set_datas ds sf) w)). simpl.
  unfold unique_ids in Hnd. rewrite Hperm in Hnd.
  apply NoDup_app in Hnd as (_ & Hdisj & _). split.
  - intros Hi. by rewrite (proj2 (findTaskById_None i ds) (Hdisj _ Hi)).
  - intros Hi Hnot. rewrite Hperm in Hi. apply elem_of_app in Hi as [?|Hi]; [done|].
    apply findTaskById_is_Some in Hi as [x Hx]. rewrite Hx. exists x.
    split; [done|]. by apply findTaskById_Some in Hx as [_ ?].
Qed.

Lemma deleteTask_removes_the_subtree_only_witness :
  let w := sample_world "u" DEFAULT_TASK_STATES
             [sample_node 1 "todo" [sample_task 2 "todo"]; sample_task 5 "todo"] in
  ∃ w', deleteTask "u" [1] w = (w', Ok tt)
        ∧ getTask "u" 2 w' = (w', Throw (TaskNotFoundError 2))
        ∧ ∃ x, getTask "u" 5 w' = (w', Ok x) ∧ task_id x = Some 5.
Proof.
  intros w.
  destruct (deleteTask_removes_the_subtree_only "u"
              (mkStorageFile (mkMeta DEFAULT_TASK_STATES)
                 [sample_node 1 "todo" [sample_task 2 "todo"]; sample_task 5 "todo"])
              w 1 (sample_node 1 "todo" [sample_task 2 "todo"]))
    as (w' & Hrun & Hall).
  - reflexivity.
  - apply (bool_decide_unpack _). by vm_compute.
  - reflexivity.
  - exists w'. split; [exact Hrun|]. split.
    + apply (proj1 (Hall 2)). apply (bool_decide_unpack _). by vm_compute.
    + apply (proj2 (Hall 5)); apply (bool_decide_unpack _); by vm_compute.
Defined.




Lemma apply_updates_true updates t :
  p_subtasks updates = None →
  apply_updates updates true t = applyUpdatesRecursive updates t.
Proof.
  intros Hs. unfold apply_updates. simpl. case_bool_decide as Hsub; [done|].
  destruct t as [n d i subs ts st pr]. simpl in *. rewrite Hs.
  destruct subs; [|done]. exfalso. apply Hsub. by eexists.
Qed.

Lemma applyUpdatesRecursive_subtasks updates t :
  p_subtasks updates = None →
  task_subtasks (applyUpdatesRecursive updates t)
  = map (applyUpdatesRecursive updates) <$> task_subtasks t.
Proof.
  intros Hs. destruct t as [n d i subs ts st pr]. simpl. rewrite Hs.
  destruct subs; simpl; [done|]. by rewrite Hs.
Qed.

Lemma applyUpdatesRecursive_forward updates t d :
  p_subtasks updates = None → subtask_of d t →
  subtask_of (applyUpdatesRecursive updates d) (applyUpdatesRecursive updates t).
Proof.
  intros Hs. induction 1 as [|c t subs Hsubs Hc Hd IH]; [constructor|].
  eapply subtask_below;
    [|apply (list_elem_of_fmap_2 (applyUpdatesRecursive updates) _ _ Hc)|exact IH].
  rewrite (applyUpdatesRecursive_subtasks _ _ Hs), Hsubs. done.
Qed.

Lemma applyUpdatesRecursive_backward updates t d' :
  p_subtasks updates = None → subtask_of d' (applyUpdatesRecursive updates t) →
  ∃ d, subtask_of d t ∧ d' = applyUpdatesRecursive updates d.
Proof.
  intros Hs. revert d'. induction t as [t IH] using Task_nested_ind. intros d' Hd'.
  inversion Hd' as [E|c t0 subs' Hsubs' Hc Hsub E]; subst.
  - exists t. split; [constructor|done].
  - rewrite (applyUpdatesRecursive_subtasks _ _ Hs) in Hsubs'.
    apply fmap_Some in Hsubs' as (subs & Hsubs & ->).
    apply list_elem_of_fmap in Hc as (c0 & -> & Hc0).
    specialize (IH _ Hsubs). rewrite Forall_forall in IH.
    destruct (IH _ Hc0 _ Hsub) as (d & Hd & ->).
    exists d. split; [|done]. by eapply subtask_below.
Qed.

Lemma editTask_single_run u sf w taskId t updates recursive :
  stored u sf w → findTaskById taskId (datas sf) = Some t →
  p_id updates = None → shares_subtasks updates = false →
  (truthy_str (prop (p_state updates)) = true →
   validateState (prop (p_state updates)) (states (meta sf)) = true) →
  ∃ ds, editTask u [taskId] updates recursive w
        = (after_save u (set_datas ds sf) w, Ok tt)
        ∧ findTaskById taskId ds = Some (apply_updates updates recursive t).
Proof.
  intros Hst Hfind Hnoid Hshare Hstate.
  rewrite (editTask_stored _ _ _ _ _ _ Hst Hshare). simpl.
  unfold edit_step. rewrite Hfind.
  assert (Hgo : truthy_str (prop (p_state updates))
                && negb (validateState (prop (p_state updates)) (states (meta sf)))
                = false).
  { destruct (truthy_str (prop (p_state updates))); [|done]. by rewrite Hstate. }
  rewrite Hgo.
  destruct (modifyTaskById taskId _ (datas sf)) as [ds|] eqn:Em.
  2:{ apply modifyTaskById_None in Em. congruence. }
  exists ds. split; [done|].
  eapply findTaskById_modify; [exact Hfind|exact Em|].
  rewrite apply_updates_id, Hnoid. simpl. by apply findTaskById_Some in Hfind as [_ ?].
Qed.

(** X16: [editTask] on one task that exists, with updates that carry no id
    and no subtasks and a state that is configured or empty, succeeds, and
    [getTask] then returns the task with the updates assigned; without
    [recursive] the subtasks are as they were, with [recursive] every task
    under it has been assigned the updates as well, nothing else is under
    it, and a state the updates carry is the state of all of them. *)
Theorem editTask_recursive_reaches_every_subtask u sf w taskId t updates :
  stored u sf w → findTaskById taskId (datas sf) = Some t →
  p_id updates = None → p_subtasks updates = None →
  (truthy_str (prop (p_state updates)) = true →
   validateState (prop (p_state updates)) (states (meta sf)) = true) →
  (∃ w', editTask u [taskId] updates false w = (w', Ok tt)
         ∧ getTask u taskId w' = (w', Ok (Object_assign t updates))
         ∧ task_subtasks (Object_assign t updates) = task_subtasks t)
  ∧ (∃ w' t', editTask u [taskId] updates true w = (w', Ok tt)
              ∧ getTask u taskId w' = (w', Ok t')
              ∧ (∀ d, subtask_of d t → subtask_of (applyUpdatesRecursive updates d) t')
              ∧ (∀ d', subtask_of d' t' →
                       ∃ d, subtask_of d t ∧ d' = applyUpdatesRecursive updates d)
              ∧ (∀ s d', p_state updates = Some s → subtask_of d' t' →
                         task_state d' = s)).
Proof.
  intros Hst Hfind Hnoid Hnosub Hstate.
  assert (Hshare : shares_subtasks updates = false)
    by (unfold shares_subtasks; by rewrite Hnosub).
  pose proof (fun recursive =>
    editTask_single_run u sf w taskId t updates recursive Hst Hfind Hnoid Hshare Hstate)
    as Hrun.
  split.
  - destruct (Hrun false) as (ds & -> & Hds). eexists. split; [done|].
    rewrite (getTask_stored _ _ _ _ (after_save_stored u (set_datas ds sf) w)). simpl.
    rewrite Hds. split; [done|]. simpl. by rewrite Hnosub.
  - destruct (Hrun true) as (ds & -> & Hds). rewrite (apply_updates_true _ _ Hnosub) in Hds.
    eexists _, _. split; [done|].
    rewrite (getTask_stored _ _ _ _ (after_save_stored u (set_datas ds sf) w)). simpl.
    rewrite Hds. split; [done|]. split; [|split].
    + intros d Hd. by apply applyUpdatesRecursive_forward.
    + intros d' Hd'. by apply applyUpdatesRecursive_backward.
    + intros s d' Hs Hd'.
      apply (applyUpdatesRecursive_backward _ _ _ Hnosub) in Hd' as (d & _ & ->).
      destruct (applyUpdatesRecursive_fields d updates) as [_ ->]. by rewrite Hs.
Qed.

Lemma editTask_recursive_reaches_every_subtask_witness :
  let w := sample_world "u" DEFAULT_TASK_STATES
             [sample_node 1 "todo" [sample_node 2 "todo" [sample_task 3 "todo"]]] in
  ∃ w' t', editTask "u" [1] (state_update "done") true w = (w', Ok tt)
           ∧ getTask "u" 1 w' = (w', Ok t')
           ∧ ∀ d', subtask_of d' t' → task_state d' = Some "done".
Proof.
  intros w.
  destruct (editTask_recursive_reaches_every_subtask "u"
              (mkStorageFile (mkMeta DEFAULT_TASK_STATES)
                 [sample_node 1 "todo" [sample_node 2 "todo" [sample_task 3 "todo"]]])
              w 1 (sample_node 1 "todo" [sample_node 2 "todo" [sample_task 3 "todo"]])
              (state_update "done"))
    as [_ (w' & t' & Hrun & Hget & _ & _ & Hstate)].
  - reflexivity.
  - reflexivity.
  - reflexivity.
  - reflexivity.
  - intros _. reflexivity.
  - exists w', t'. split; [exact Hrun|]. split; [exact Hget|].
    intros d' Hd'. exact (Hstate (Some "done") d' eq_refl Hd').
Defined.

(** X17: [completeTask] on a task that exists puts it in the final state,
    and [incrementTask] on it then fails with [NoFurtherStateError] and
    writes nothing. *)
Theorem completeTask_reaches_the_final_state u sf w taskId t recursive :
  stored u sf w → NoDup (name <$> states (meta sf)) →
  findTaskById taskId (datas sf) = Some t →
  states (meta sf) ≠ [] →
  ∃ w' t',
    completeTask u [taskId] recursive w = (w', Ok tt)
    ∧ getTask u taskId w' = (w', Ok t')
    ∧ task_state t' = getFinalState (states (meta sf))
    ∧ ∀ recursive',
        incrementTask u [taskId] recursive' w' = (w', Throw (NoFurtherStateError taskId)).
Proof.
  intros Hst Hnd Hfind Hne.
  destruct (last (states (meta sf))) as [sl|] eqn:El.
  2:{ by apply last_None in El. }
  assert (Hk : states (meta sf) !! (length (states (meta sf)) - 1)%nat = Some sl).
  { rewrite <- El. by rewrite last_lookup, Nat.sub_1_r. }
  assert (Hlen : S (length (states (meta sf)) - 1) = length (states (meta sf))).
  { apply lookup_lt_Some in Hk. lia. }
  unfold completeTask. unfold bind at 1. rewrite (loadStorage_stored _ _ _ Hst). run.
  unfold getFinalState. rewrite El. simpl.
  destruct (editTask_single_run u sf w taskId t (state_update (name sl)) recursive
              Hst Hfind eq_refl eq_refl) as (ds & -> & Hds).
  { intros _. simpl. by eapply validateState_member. }
  pose proof (after_save_stored u (set_datas ds sf) w) as Hst'.
  eexists _, _. split; [done|].
  rewrite (getTask_stored _ _ _ _ Hst'). simpl. rewrite Hds.
  split; [done|]. split; [by rewrite apply_updates_state|].
  intros recursive'.
  eapply (incrementTask_at_last u (set_datas ds sf)); [exact Hst'|exact Hnd|exact Hds| | |].
  - exact Hk.
  - exact Hlen.
  - by rewrite apply_updates_state.
Qed.

Lemma completeTask_reaches_the_final_state_witness :
  let w := sample_world "u" DEFAULT_TASK_STATES [sample_task 1 "todo"] in
  ∃ w' t', completeTask "u" [1] false w = (w', Ok tt)
           ∧ getTask "u" 1 w' = (w', Ok t')
           ∧ task_state t' = Some "done"
           ∧ incrementTask "u" [1] false w' = (w', Throw (NoFurtherStateError 1)).
Proof.
  intros w.
  destruct (completeTask_reaches_the_final_state "u"
              (mkStorageFile (mkMeta DEFAULT_TASK_STATES) [sample_task 1 "todo"])
              w 1 (sample_task 1 "todo") false)
    as (w' & t' & Hrun & Hget & Hstate & Hinc).
  - reflexivity.
  - apply (bool_decide_unpack _). by vm_compute.
  - reflexivity.
  - discriminate.
  - exists w', t'. split; [exact Hrun|]. split; [exact Hget|].
    split; [exact Hstate|exact (Hinc false)].
Defined.

Lemma incrementTask_turn_stale u sf0 w taskId recursive t k sk sk' :
  NoDup (name <$> states (meta sf0)) →
  findTaskById taskId (datas sf0) = Some t →
  states (meta sf0) !! k = Some sk → states (meta sf0) !! S k = Some sk' →
  task_state t = Some (name sk) → name sk' ≠ "" →
  incrementTask_turn u (Parsed sf0) recursive taskId w
  = editTask u [taskId] (state_update (name sk')) recursive w.
Proof.
  intros Hnd Hfind Hk Hk' Hstate Hne. unfold incrementTask_turn. run.
  rewrite Hfind, Hstate, (getNextState_step _ _ _ _ Hnd Hk Hk').
  by rewrite (proj2 (String.eqb_neq _ _) Hne).
Qed.

(** X18: a batch of [incrementTask] that names one task twice moves it one
    state forward, not two: every turn reads the state of the task in the
    forest loaded before the loop. *)
Theorem incrementTask_repeated_id_advances_once u sf w taskId recursive t k sk sk' :
  stored u sf w → NoDup (name <$> states (meta sf)) →
  findTaskById taskId (datas sf) = Some t →
  states (meta sf) !! k = Some sk → states (meta sf) !! S k = Some sk' →
  task_state t = Some (name sk) → name sk' ≠ "" →
  ∃ w' t', incrementTask u [taskId; taskId] recursive w = (w', Ok tt)
           ∧ getTask u taskId w' = (w', Ok t')
           ∧ task_state t' = Some (name sk').
Proof.
  intros Hst Hnd Hfind Hk Hk' Hstate Hne.
  unfold incrementTask. unfold bind at 1. rewrite (loadStorage_stored _ _ _ Hst).
  cbn [for_of]. unfold bind at 1.
  rewrite (incrementTask_turn_stale u sf w taskId recursive t k sk sk'
             Hnd Hfind Hk Hk' Hstate Hne).
  assert (Hvalid : truthy_str (prop (p_state (state_update (name sk')))) = true →
                   validateState (prop (p_state (state_update (name sk'))))
                                 (states (meta sf)) = true).
  { intros _. simpl. by eapply validateState_member. }
  destruct (editTask_single_run u sf w taskId t (state_update (name sk')) recursive
              Hst Hfind eq_refl eq_refl Hvalid) as (ds & -> & Hds).
  pose proof (after_save_stored u (set_datas ds sf) w) as Hst1.
  unfold bind at 1.
  rewrite (incrementTask_turn_stale u sf _ taskId recursive t k sk sk'
             Hnd Hfind Hk Hk' Hstate Hne).
  destruct (editTask_single_run u (set_datas ds sf) _ taskId _
              (state_update (name sk')) recursive Hst1 Hds eq_refl eq_refl Hvalid)
    as (ds2 & -> & Hds2).
  pose proof (after_save_stored u (set_datas ds2 (set_datas ds sf))
                (after_save u (set_datas ds sf) w)) as Hst2.
  eexists _, _. split; [done|].
  rewrite (getTask_stored _ _ _ _ Hst2). simpl. rewrite Hds2.
  split; [done|]. by rewrite apply_updates_state.
Qed.

Lemma incrementTask_repeated_id_advances_once_witness :
  let w := sample_world "u" DEFAULT_TASK_STATES [sample_task 1 "todo"] in
  ∃ w' t', incrementTask "u" [1; 1] false w = (w', Ok tt)
           ∧ getTask "u" 1 w' = (w', Ok t')
           ∧ task_state t' = Some "currently_doing".
Proof.
  intros w.
  destruct (incrementTask_repeated_id_advances_once "u"
              (mkStorageFile (mkMeta DEFAULT_TASK_STATES) [sample_task 1 "todo"])
              w 1 false (sample_task 1 "todo") 0
              (mkTaskState "todo" "#ff8f00" "☐")
              (mkTaskState "currently_doing" "#ab47bc" "✹"))
    as (w' & t' & Hrun & Hget & Hstate).
  - reflexivity.
  - apply (bool_decide_unpack _). by vm_compute.
  - reflexivity.
  - reflexivity.
  - reflexivity.
  - reflexivity.
  - discriminate.
  - exists w', t'. split; [exact Hrun|]. split; [exact Hget|exact Hstate].
Defined.

Lemma modifyInTask_ids_perm id f extra t t' :
  (∀ x, extractFromTask (f x) ≡ₚ extractFromTask x ++ extra) →
  modifyInTask id f t = Some t' →
  extractFromTask t' ≡ₚ extractFromTask t ++ extra.
Proof.
  intros Hf. revert t'. induction t as [t IH] using Task_nested_ind. intros t'.
  destruct t as [n d i subs ts st pr]. simpl in *.
  case_bool_decide as Hid; [by intros [= <-]|].
  destruct subs as [subs|]; [|done]. intros Hmod.
  apply fmap_Some in Hmod as (subs' & Hmod & ->).
  unfold with_subtasks. simpl. rewrite <- app_assoc. apply Permutation_app_head.
  specialize (IH _ eq_refl).
  apply modify_first_Some in Hmod as (pre & c & c' & post & -> & -> & Hc & _).
  apply Forall_app in IH as [_ IH]. apply Forall_cons in IH as [IHc _].
  rewrite !flat_map_app. simpl. rewrite <- !app_assoc. apply Permutation_app_head.
  rewrite (IHc _ Hc). rewrite <- !app_assoc. apply Permutation_app_head.
  apply Permutation_app_comm.
Qed.

Lemma modifyTaskById_ids_perm id f extra ts ts' :
  (∀ x, extractFromTask (f x) ≡ₚ extractFromTask x ++ extra) →
  modifyTaskById id f ts = Some ts' →
  extractAllIds ts' ≡ₚ extractAllIds ts ++ extra.
Proof.
  intros Hf Hmod.
  apply modify_first_Some in Hmod as (pre & c & c' & post & -> & -> & Hc & _).
  rewrite !extractAllIds_app, !extractAllIds_cons, <- !app_assoc.
  apply Permutation_app_head.
  rewrite (modifyInTask_ids_perm _ _ _ _ _ Hf Hc). rewrite <- !app_assoc.
  apply Permutation_app_head, Permutation_app_comm.
Qed.

(** X19: moving one task of a forest with unique ids under a task that is
    not in its own subtree succeeds: the forest keeps its ids, [getTask]
    still returns the task unchanged, and the task is the last subtask of
    the new parent. *)
Theorem moveTask_relocates_the_subtree u sf w taskId newParentId t :
  stored u sf w → unique_ids (datas sf) →
  findTaskById taskId (datas sf) = Some t →
  newParentId ∈ extractAllIds (datas sf) → newParentId ∉ extractFromTask t →
  ∃ w' sf' parent' subs,
    moveTask u [taskId] newParentId w = (w', Ok tt)
    ∧ stored u sf' w' ∧ meta sf' = meta sf
    ∧ extractAllIds (datas sf') ≡ₚ extractAllIds (datas sf)
    ∧ getTask u taskId w' = (w', Ok t)
    ∧ getTask u newParentId w' = (w', Ok parent')
    ∧ task_subtasks parent' = Some (subs ++ [t]).
Proof.
  intros Hst Hnd Hfind Hin Hout.
  rewrite (moveTask_stored _ _ _ _ _ Hst).
  destruct (findTaskById newParentId (datas sf)) as [p0|] eqn:Ep0.
  2:{ by apply findTaskById_None in Ep0. }
  cbn [for_of]. unfold bind at 1.
  rewrite (moveTask_turn_stored _ _ _ _ _ _ Hst), Hfind.
  destruct (delete_step_of_found _ _ _ Hfind) as [ds Ed]. rewrite Ed.
  pose proof (delete_step_found _ _ _ _ Hnd Hfind Ed) as Hperm.
  pose proof Hnd as Hnd'. unfold unique_ids in Hnd'. rewrite Hperm in Hnd'.
  apply NoDup_app in Hnd' as (_ & Hdisj & _).
  assert (Hp : newParentId ∈ extractAllIds ds).
  { rewrite Hperm in Hin. by apply elem_of_app in Hin as [?|?]. }
  apply findTaskById_is_Some in Hp as [p Hp].
  destruct (modifyTaskById newParentId (push_subtask t) ds) as [ds'|] eqn:Em.
  2:{ apply modifyTaskById_None in Em. congruence. }
  set (w' := after_save u (set_datas ds' sf) _).
  assert (Hst' : stored u (set_datas ds' sf) w') by apply after_save_stored.
  assert (Htid : task_id t = Some taskId) by (by apply findTaskById_Some in Hfind as [_ ?]).
  exists w', (set_datas ds' sf), (push_subtask t p), (default [] (task_subtasks p)).
  split; [done|]. split; [done|]. split; [done|]. split; [|split; [|split]].
  - simpl.
    assert (Hpush : ∀ x, extractFromTask (push_subtask t x)
                         ≡ₚ extractFromTask x ++ extractFromTask t)
      by (intros x; by rewrite push_subtask_ids).
    rewrite (modifyTaskById_ids_perm _ _ _ _ _ Hpush Em).
    by rewrite Hperm, Permutation_app_comm.
  - rewrite (getTask_stored _ _ _ _ Hst'). simpl.
    rewrite (findTaskById_pushed taskId newParentId t ds ds'); [done| |done|done].
    apply Hdisj. by apply own_id_listed.
  - rewrite (getTask_stored _ _ _ _ Hst'). simpl.
    rewrite (findTaskById_modify _ _ _ _ _ Hp Em); [done|].
    simpl. by apply findTaskById_Some in Hp as [_ ?].
  - done.
Qed.

Lemma moveTask_relocates_the_subtree_witness :
  let w := sample_world "u" DEFAULT_TASK_STATES
             [sample_node 1 "todo" [sample_task 2 "todo"]; sample_task 5 "todo"] in
  ∃ w' parent' subs,
    moveTask "u" [1] 5 w = (w', Ok tt)
    ∧ getTask "u" 5 w' = (w', Ok parent')
    ∧ task_subtasks parent' = Some (subs ++ [sample_node 1 "todo" [sample_task 2 "todo"]]).
Proof.
  intros w.
  destruct (moveTask_relocates_the_subtree "u"
              (mkStorageFile (mkMeta DEFAULT_TASK_STATES)
                 [sample_node 1 "todo" [sample_task 2 "todo"]; sample_task 5 "todo"])
              w 1 5 (sample_node 1 "todo" [sample_task 2 "todo"]))
    as (w' & sf' & parent' & subs & Hrun & _ & _ & _ & _ & Hget & Hsubs).
  - reflexivity.
  - apply (bool_decide_unpack _). by vm_compute.
  - reflexivity.
  - apply (bool_decide_unpack _). by vm_compute.
  - apply (bool_decide_unpack _). by vm_compute.
  - exists w', parent', subs. split; [exact Hrun|]. split; [exact Hget|exact Hsubs].
Defined.

(* ===================================================================== *)
(** * Further properties: statistics and search *)
(* ===================================================================== *)

Lemma extractFromTask_all_of_task t :
  extractFromTask t = omap task_id (all_of_task t).
Proof.
  induction t as [t IH] using Task_nested_ind.
  destruct t as [n d i subs ts st pr]. simpl in *.
  assert (Hsubs : match subs with Some subs => flat_map extractFromTask subs | None => [] end
                  = omap task_id (match subs with
                                  | Some subs => flat_map all_of_task subs
                                  | None => []
                                  end)).
  { destruct subs as [subs|]; [|done]. specialize (IH _ eq_refl).
    induction IH as [|c r Hc _ IHr]; simpl; [done|].
    by rewrite omap_app, Hc, IHr. }
  rewrite Hsubs. by destruct i.
Qed.

Lemma extractAllIds_all_tasks ts : extractAllIds ts = omap task_id (all_tasks ts).
Proof.
  unfold extractAllIds, all_tasks. induction ts as [|t r IH]; simpl; [done|].
  by rewrite omap_app, extractFromTask_all_of_task, IH.
Qed.

Lemma length_omap_le {A B} (f : A → option B) (l : list A) :
  (length (omap f l) ≤ length l)%nat.
Proof.
  induction l as [|x l IH]; simpl; [done|]. unfold omap in IH.
  destruct (f x); simpl; lia.
Qed.

Lemma length_omap_all {A B} (f : A → option B) (l : list A) :
  Forall (fun x => is_Some (f x)) l → length (omap f l) = length l.
Proof.
  induction 1 as [|x l [y Hy] _ IH]; simpl; [done|]. rewrite Hy. simpl.
  unfold omap in IH. by rewrite IH.
Qed.

Lemma filter_none {A} (P : A → Prop) `{∀ x, Decision (P x)} (l : list A) :
  (∀ x, ¬ P x) → filter P l = [].
Proof.
  intros Hno. induction l as [|x l IH]; [done|].
  rewrite filter_cons, decide_False by apply Hno. exact IH.
Qed.

Lemma countInTask_all_of_task t acc :
  countInTask acc t = fold_left count_step (all_of_task t) acc.
Proof.
  revert acc. induction t as [t IH] using Task_nested_ind. intros acc.
  destruct t as [n d i subs ts st pr]. simpl in *.
  destruct subs as [subs|]; [|done]. specialize (IH _ eq_refl).
  fold (count_step acc (mkTask n d i (Some subs) ts st pr)).
  generalize (count_step acc (mkTask n d i (Some subs) ts st pr)). clear acc.
  induction IH as [|c r Hc _ IHr]; intros acc; simpl; [done|].
  by rewrite fold_left_app, <- Hc, IHr.
Qed.

Lemma fold_countInTask_all_tasks ts acc :
  fold_left countInTask ts acc = fold_left count_step (all_tasks ts) acc.
Proof.
  unfold all_tasks. revert acc. induction ts as [|t r IH]; intros acc; simpl; [done|].
  by rewrite fold_left_app, <- countInTask_all_of_task, IH.
Qed.

Lemma count_step_total l acc :
  (fold_left count_step l acc).2 = (length l + acc.2)%nat.
Proof.
  revert acc. induction l as [|t l IH]; intros acc; simpl; [done|].
  rewrite IH. simpl. lia.
Qed.

Lemma bump_other m x s c :
  s ≠ "__proto__" → s ∉ Object_prototype_keys →
  m !! s = as_stat c →
  bump m x !! s = as_stat (if bool_decide (x = s) then S c else c).
Proof.
  intros Hproto Hkeys Hm. unfold bump.
  destruct (String.eqb_spec x "__proto__") as [->|Hx].
  { by rewrite bool_decide_eq_false_2 by done. }
  destruct (decide (x = s)) as [->|Hxs].
  - rewrite (bool_decide_eq_true_2 (s = s)) by done. rewrite Hm.
    destruct c as [|c]; simpl.
    + rewrite bool_decide_eq_false_2 by done. by rewrite lookup_insert_eq.
    + by rewrite lookup_insert_eq.
  - rewrite (bool_decide_eq_false_2 (x = s)) by done.
    destruct (m !! x) as [[k|]|]; [| |case_bool_decide];
      by rewrite lookup_insert_ne.
Qed.

Lemma count_step_state s l m k c :
  s ≠ "__proto__" → s ∉ Object_prototype_keys →
  m !! s = as_stat c →
  (fold_left count_step l (m, k)).1 !! s
  = as_stat (length (filter (fun t => state_or_unknown t = s) l) + c).
Proof.
  intros Hproto Hkeys. revert m k c.
  induction l as [|t l IH]; intros m k c Hm; simpl; [done|].
  unfold count_step at 2. simpl.
  rewrite (IH _ _ _ (bump_other m (state_or_unknown t) s c Hproto Hkeys Hm)).
  f_equal. rewrite filter_cons. case_bool_decide as Hts.
  - rewrite decide_True by done. simpl. lia.
  - by rewrite decide_False by done.
Qed.

(** X20: on a stored forest [getStats] writes nothing; [total] is the
    number of tasks of the forest at every depth, which is the number of
    ids [extractAllIds] lists when every task has an id; and under every
    name of a state (other than [total] and the names every JavaScript
    object has) stands the number of tasks in that state, with the tasks
    without a state under [unknown], and no property when there is none. *)
Theorem getStats_counts_every_task u sf w :
  stored u sf w →
  ∃ stats, getStats u w = (w, Ok stats)
    ∧ stats !! "total" = Some (Count (length (all_tasks (datas sf))))
    ∧ (length (extractAllIds (datas sf)) ≤ length (all_tasks (datas sf)))%nat
    ∧ (Forall (fun t => is_Some (task_id t)) (all_tasks (datas sf)) →
       length (extractAllIds (datas sf)) = length (all_tasks (datas sf)))
    ∧ ∀ s, s ≠ "total" → s ≠ "__proto__" → s ∉ Object_prototype_keys →
           stats !! s = as_stat (length (tasks_in_state s (datas sf))).
Proof.
  intros Hst. unfold getStats. unfold bind at 1.
  rewrite (loadStorage_stored _ _ _ Hst). run.
  rewrite fold_countInTask_all_tasks.
  destruct (fold_left count_step (all_tasks (datas sf)) (∅, 0%nat)) as [stats total] eqn:Ef.
  eexists. split; [done|]. split; [|split; [|split]].
  - rewrite lookup_insert_eq. do 2 f_equal.
    pose proof (count_step_total (all_tasks (datas sf)) (∅, 0%nat)) as Ht.
    rewrite Ef in Ht. simpl in Ht. lia.
  - rewrite extractAllIds_all_tasks. apply length_omap_le.
  - intros Hall. rewrite extractAllIds_all_tasks.
    by apply length_omap_all.
  - intros s Htotal Hproto Hkeys. rewrite lookup_insert_ne by done.
    pose proof (count_step_state s (all_tasks (datas sf)) ∅ 0%nat 0%nat Hproto Hkeys
                  (lookup_empty _)) as Hs.
    rewrite Ef in Hs. simpl in Hs. rewrite Hs. unfold tasks_in_state. f_equal. lia.
Qed.

Lemma getStats_counts_every_task_witness :
  let w := sample_world "u" DEFAULT_TASK_STATES
             [sample_node 1 "todo" [sample_task 2 "done"; sample_task 3 "todo"]] in
  ∃ stats, getStats "u" w = (w, Ok stats)
           ∧ stats !! "total" = Some (Count 3)
           ∧ stats !! "todo" = Some (Count 2)
           ∧ stats !! "currently_doing" = None.
Proof.
  intros w.
  destruct (getStats_counts_every_task "u"
              (mkStorageFile (mkMeta DEFAULT_TASK_STATES)
                 [sample_node 1 "todo" [sample_task 2 "done"; sample_task 3 "todo"]])
              w eq_refl)
    as (stats & Hrun & Htotal & _ & _ & Hstate).
  exists stats. split; [exact Hrun|]. split; [exact Htotal|]. split.
  - apply (Hstate "todo"); [discriminate|discriminate|].
    apply (bool_decide_unpack _). by vm_compute.
  - apply (Hstate "currently_doing"); [discriminate|discriminate|].
    apply (bool_decide_unpack _). by vm_compute.
Defined.

Section search_properties.
Variable toLowerCase : string → string.

Lemma matches_of_no_terms includeDescriptions t :
  matches_of toLowerCase [] includeDescriptions t = [].
Proof.
  unfold matches_of, some_term_in.
  destruct (task_name t), (task_description t), includeDescriptions; simpl;
    by rewrite ?andb_false_r.
Qed.

Lemma searchInTask_unfold terms includeDescriptions path t :
  searchInTask toLowerCase terms includeDescriptions path t
  = (match matches_of toLowerCase terms includeDescriptions t with
     | [] => []
     | m :: ms => [mkSearchResult t path (m :: ms)]
     end)
    ++ flat_map (searchInTask toLowerCase terms includeDescriptions (path ++ [task_id t]))
                (default [] (task_subtasks t)).
Proof. destruct t as [n d i [subs|] ts st pr]; reflexivity. Qed.

Lemma all_of_task_unfold t :
  all_of_task t = t :: flat_map all_of_task (default [] (task_subtasks t)).
Proof. destruct t as [n d i [subs|] ts st pr]; reflexivity. Qed.

Lemma subtasks_Forall (P : Task → Prop) t :
  (∀ subs, task_subtasks t = Some subs → Forall P subs) →
  Forall P (default [] (task_subtasks t)).
Proof. intros H. destruct (task_subtasks t) as [subs|]; [by apply H|constructor]. Qed.

Lemma searchInTask_tasks terms includeDescriptions path t :
  result_task <$> searchInTask toLowerCase terms includeDescriptions path t
  = filter (fun t => matches_of toLowerCase terms includeDescriptions t ≠ [])
           (all_of_task t).
Proof.
  revert path. induction t as [t IH] using Task_nested_ind. intros path.
  apply subtasks_Forall in IH.
  rewrite searchInTask_unfold, all_of_task_unfold, fmap_app, filter_cons.
  assert (Hsubs :
    result_task <$> flat_map (searchInTask toLowerCase terms includeDescriptions
                                (path ++ [task_id t])) (default [] (task_subtasks t))
    = filter (fun t => matches_of toLowerCase terms includeDescriptions t ≠ [])
             (flat_map all_of_task (default [] (task_subtasks t)))).
  { generalize (path ++ [task_id t]). intros q.
    induction IH as [|c r Hc _ IHr]; simpl; [done|].
    by rewrite fmap_app, filter_app, Hc, IHr. }
  rewrite Hsubs.
  destruct (matches_of toLowerCase terms includeDescriptions t) as [|m ms] eqn:Em.
  - by rewrite decide_False by (by intros ?).
  - by rewrite decide_True by done.
Qed.

Lemma searchInTask_result terms includeDescriptions path t r :
  r ∈ searchInTask toLowerCase terms includeDescriptions path t →
  result_matches r = matches_of toLowerCase terms includeDescriptions (result_task r)
  ∧ result_matches r ≠ []
  ∧ ∃ p, result_path r = path ++ p ∧ located (result_task r) p t.
Proof.
  revert path. induction t as [t IH] using Task_nested_ind. intros path.
  rewrite searchInTask_unfold. intros [Hr|Hr]%elem_of_app.
  - destruct (matches_of toLowerCase terms includeDescriptions t) as [|m ms] eqn:Em.
    { by apply elem_of_nil in Hr. }
    apply list_elem_of_singleton in Hr as ->. simpl. rewrite Em.
    split; [done|]. split; [done|]. exists []. split; [by rewrite app_nil_r|constructor].
  - destruct (task_subtasks t) as [subs|] eqn:Esubs; [|by apply elem_of_nil in Hr].
    apply elem_of_flat_map in Hr as (c & Hc & Hr).
    specialize (IH _ eq_refl). rewrite Forall_forall in IH.
    destruct (IH _ Hc _ Hr) as (Hm & Hne & p & Hp & Hloc).
    split; [done|]. split; [done|]. exists (task_id t :: p).
    split; [by rewrite Hp, <- app_assoc|]. by eapply located_below.
Qed.

Lemma split_char_blank s :
  Forall (fun c => c = " "%char) (list_ascii_of_string s) →
  Forall (fun piece => piece = "") (split_char " " s).
Proof.
  induction s as [|c s IH]; simpl; [by repeat constructor|].
  intros [-> Hs]%Forall_cons. simpl. constructor; [done|]. by apply IH.
Qed.

Lemma searchTerms_blank query :
  Forall (fun c => c = " "%char) (list_ascii_of_string (toLowerCase query)) →
  searchTerms toLowerCase query = [].
Proof.
  intros Hb%split_char_blank. unfold searchTerms.
  induction Hb as [|x l -> _ IH]; simpl; [done|]. exact IH.
Qed.

(** X21: on a stored forest [searchTasks] writes nothing and returns, in
    the order of the forest (a task before its subtasks), exactly the tasks
    whose name, or description when descriptions are searched, contains one
    of the words of the query, each with the fields that matched; a query
    of nothing but spaces returns no task, and without the descriptions the
    only field reported is the name. *)
Theorem searchTasks_returns_the_matching_tasks u sf w query includeDescriptions :
  stored u sf w →
  ∃ results,
    searchTasks toLowerCase u query includeDescriptions w = (w, Ok results)
    ∧ result_task <$> results
      = filter (fun t => matches_of toLowerCase (searchTerms toLowerCase query)
                                    includeDescriptions t ≠ [])
               (all_tasks (datas sf))
    ∧ (∀ r, r ∈ results →
            result_matches r
            = matches_of toLowerCase (searchTerms toLowerCase query)
                         includeDescriptions (result_task r)
            ∧ (includeDescriptions = false → result_matches r = ["name"]))
    ∧ (Forall (fun c => c = " "%char) (list_ascii_of_string (toLowerCase query)) →
       results = []).
Proof.
  intros Hst. unfold searchTasks. unfold bind at 1.
  rewrite (loadStorage_stored _ _ _ Hst). run.
  eexists. split; [done|]. split; [|split].
  - unfold all_tasks. induction (datas sf) as [|t r IH]; simpl; [done|].
    by rewrite fmap_app, filter_app, searchInTask_tasks, IH.
  - intros r (t & _ & Hr)%elem_of_flat_map.
    apply searchInTask_result in Hr as (Hm & Hne & _). split; [done|].
    intros ->. rewrite Hm in Hne |- *. unfold matches_of in *. simpl in *.
    rewrite app_nil_r in Hne |- *. by destruct (some_term_in _ _ _).
  - intros Hb. rewrite (searchTerms_blank _ Hb).
    assert (Hnone : ∀ path t, searchInTask toLowerCase [] includeDescriptions path t = []).
    { intros path t. apply fmap_nil_inv with (f := result_task).
      rewrite searchInTask_tasks. apply filter_none.
      intros x Hx. apply Hx, matches_of_no_terms. }
    induction (datas sf) as [|t r IH]; simpl; [done|]. by rewrite Hnone, IH.
Qed.

(** X22: the path [searchTasks] reports for a task is the list of the ids
    of the tasks above it, from a task at the top of the forest down to the
    one that holds it; it is empty for a task at the top. *)
Theorem searchTasks_paths_lead_to_the_task u sf w query includeDescriptions results :
  stored u sf w →
  searchTasks toLowerCase u query includeDescriptions w = (w, Ok results) →
  ∀ r, r ∈ results →
       ∃ root, root ∈ datas sf ∧ located (result_task r) (result_path r) root.
Proof.
  intros Hst. unfold searchTasks. unfold bind at 1.
  rewrite (loadStorage_stored _ _ _ Hst). run. intros [= <-] r.
  intros (t & Ht & Hr)%elem_of_flat_map.
  apply searchInTask_result in Hr as (_ & _ & p & Hp & Hloc).
  exists t. split; [done|]. by rewrite Hp.
Qed.
End search_properties.

Lemma searchTasks_returns_the_matching_tasks_witness :
  let ds := [titled 1 "Buy milk" (Some [titled 2 "Milk the cow" None]);
             titled 3 "Call Bob" None] in
  let w := sample_world "u" DEFAULT_TASK_STATES ds in
  ∃ results,
    searchTasks ascii_lower "u" "MILK  now" true w = (w, Ok results)
    ∧ result_task <$> results
      = [titled 1 "Buy milk" (Some [titled 2 "Milk the cow" None]);
         titled 2 "Milk the cow" None].
Proof.
  intros ds w.
  destruct (searchTasks_returns_the_matching_tasks ascii_lower "u"
              (mkStorageFile (mkMeta DEFAULT_TASK_STATES) ds) w "MILK  now" true eq_refl)
    as (results & Hrun & Htasks & _).
  exists results. split; [exact Hrun|].
  etrans; [exact Htasks|]. by vm_compute.
Defined.

Lemma searchTasks_paths_lead_to_the_task_witness :
  let ds := [titled 1 "Buy milk" (Some [titled 2 "Milk the cow" None]);
             titled 3 "Call Bob" None] in
  let w := sample_world "u" DEFAULT_TASK_STATES ds in
  let results := [mkSearchResult (titled 2 "Milk the cow" None) [Some 1] ["name"]] in
  searchTasks ascii_lower "u" "cow" true w = (w, Ok results)
  ∧ ∀ r, r ∈ results → ∃ root, root ∈ ds ∧ located (result_task r) (result_path r) root.
Proof.
  intros ds w results.
  assert (Hrun : searchTasks ascii_lower "u" "cow" true w = (w, Ok results))
    by (by vm_compute).
  split; [exact Hrun|].
  exact (searchTasks_paths_lead_to_the_task ascii_lower "u"
           (mkStorageFile (mkMeta DEFAULT_TASK_STATES) ds) w "cow" true results
           eq_refl Hrun).
Defined.

(* ===================================================================== *)
(** * Further properties: the configuration of a user *)
(* ===================================================================== *)

Ltac runC :=
  unfold bindC, try_catchC, retC, throwC, fsC, get_config, set_config in *; simpl in *.

Lemma configBackups_spec u w :
  StronglySorted (flip str_le) (configBackups u w) ∧ NoDup (configBackups u w)
  ∧ ∀ n, n ∈ configBackups u w
         ↔ isConfigBackupName n ∧ is_Some (files w !! (backupDir u, n)).
Proof.
  unfold configBackups. split; [|split].
  - apply StronglySorted_reverse, StronglySorted_merge_sort; apply _.
  - rewrite reverse_Permutation, merge_sort_Permutation.
    apply NoDup_filter, NoDup_dir_names.
  - intros n. rewrite elem_of_reverse, merge_sort_Permutation.
    rewrite list_elem_of_filter. by rewrite elem_of_dir_names.
Qed.

(** Removing all but the first [k] names of the listing leaves the first
    [k] as the listing. *)
Lemma configBackups_pruned u k w w' :
  (∀ p, files w' !! p
        = if bool_decide (p.1 = backupDir u ∧ p.2 ∈ drop k (configBackups u w))
          then None else files w !! p) →
  configBackups u w' = take k (configBackups u w).
Proof.
  intros Hfiles.
  destruct (configBackups_spec u w) as (Hsorted & Hnd & Hmem).
  destruct (configBackups_spec u w') as (Hsorted' & Hnd' & Hmem').
  apply (StronglySorted_unique (flip str_le)); [done| |].
  - rewrite <- (take_drop k (configBackups u w)) in Hsorted.
    by apply StronglySorted_app_1_l in Hsorted.
  - apply NoDup_Permutation; [done| |].
    { eapply sublist_NoDup; [exact Hnd|apply sublist_take]. }
    intros x. rewrite Hmem', Hfiles. simpl.
    pose proof Hnd as Hnd2. rewrite <- (take_drop k (configBackups u w)) in Hnd2.
    apply NoDup_app in Hnd2 as (_ & Hdisj & _). split.
    + case_bool_decide as Hx; [by intros [_ [? ?]]|]. intros Hin.
      apply Hmem in Hin. rewrite <- (take_drop k (configBackups u w)) in Hin.
      apply elem_of_app in Hin as [?|Hin]; [done|]. exfalso. by apply Hx.
    + intros Hx. rewrite bool_decide_eq_false_2 by (intros [_ ?]; by eapply Hdisj).
      apply Hmem. rewrite <- (take_drop k (configBackups u w)).
      apply elem_of_app. by left.
Qed.

Lemma cleanupConfigBackups_run u c w :
  backupDir u ∈ dirs w →
  ∃ w', cleanupConfigBackups u c w = ((c, w'), OkC tt)
        ∧ dirs w' = dirs w
        ∧ configBackups u w' = take 5 (configBackups u w)
        ∧ ∀ p, files w' !! p
               = if bool_decide (p.1 = backupDir u ∧ p.2 ∈ drop 5 (configBackups u w))
                 then None else files w !! p.
Proof.
  intros Hd. destruct (configBackups_spec u w) as (Hsorted & Hnd & Hmem).
  destruct (unlink_all (backupDir u) (drop 5 (configBackups u w)) w)
    as (w' & Hrun & Hdirs & _ & Hfiles).
  { eapply sublist_NoDup; [exact Hnd|apply sublist_drop]. }
  { intros b Hb. apply Hmem. eapply elem_of_sublist; [exact Hb|apply sublist_drop]. }
  exists w'. split; [|split; [done|split; [|done]]].
  - unfold cleanupConfigBackups, try_catchC, bindC, fsC.
    rewrite (fs_readdir_run _ _ Hd). fold (configBackups u w). by rewrite Hrun.
  - by apply configBackups_pruned.
Qed.

Lemma configFile_neq_temp u : configTempFile u ≠ configFile u.
Proof. intros H. apply (f_equal snd) in H. discriminate H. Qed.

Lemma configFile_not_backup u n : (backupDir u, n) ≠ configFile u.
Proof. intros H. exact (backupDir_neq_userDir u (f_equal fst H)). Qed.

Lemma configTempFile_not_backup u n : (backupDir u, n) ≠ configTempFile u.
Proof. intros H. exact (backupDir_neq_userDir u (f_equal fst H)). Qed.

Lemma rev_app_append a b acc :
  String.rev_app (a +:+ b) acc = String.rev_app b (String.rev_app a acc).
Proof. revert acc. induction a as [|ch a IH]; intros acc; simpl; [done|]. apply IH. Qed.

Lemma prefix_append a x : String.prefix a (a +:+ x) = true.
Proof.
  induction a as [|ch a IH]; simpl; [by destruct x|].
  by destruct (ascii_dec ch ch).
Qed.

Lemma configBackupName_is_backup millis :
  isConfigBackupName (configBackupName millis) = true.
Proof.
  unfold isConfigBackupName, configBackupName, startsWith, endsWith, String.rev.
  apply andb_true_iff. split; [apply prefix_append|].
  rewrite !rev_app_append. apply (prefix_append "nosj.").
Qed.

(** [saveConfig] where the directories exist, step by step. *)
Lemma saveConfig_run u now millis c w :
  userDir u ∈ dirs w → backupDir u ∈ dirs w →
  let wb := with_config_backup u millis (files w !! configFile u) w in
  ∃ w', saveConfig u now millis c w = ((c, w'), OkC tt)
        ∧ dirs w' = dirs w
        ∧ configBackups u w' = take 5 (configBackups u wb)
        ∧ ∀ p, files w' !! p
               = if bool_decide (p = configFile u) then Some (configDocument c now)
                 else if bool_decide (p = configTempFile u) then None
                 else if bool_decide (p.1 = backupDir u ∧ p.2 ∈ drop 5 (configBackups u wb))
                 then None else files wb !! p.
Proof.
  intros Hu Hb wb.
  set (ws := set_files (fun fs => <[configFile u := configDocument c now]>
                                    (delete (configTempFile u)
                                       (<[configTempFile u := configDocument c now]> fs))) wb).
  assert (Hdb : dirs wb = dirs w).
  { unfold wb, with_config_backup. by destruct (files w !! configFile u). }
  assert (Hsame : ∀ n, files ws !! (backupDir u, n) = files wb !! (backupDir u, n)).
  { intros n. unfold ws. simpl.
    rewrite lookup_insert_ne by (apply not_eq_sym, configFile_not_backup).
    rewrite lookup_delete_ne by (apply not_eq_sym, configTempFile_not_backup).
    by rewrite lookup_insert_ne by (apply not_eq_sym, configTempFile_not_backup). }
  assert (Hlist : configBackups u ws = configBackups u wb).
  { destruct (configBackups_spec u ws) as (Hs1 & Hn1 & Hm1).
    destruct (configBackups_spec u wb) as (Hs2 & Hn2 & Hm2).
    apply (StronglySorted_unique (flip str_le)); [done|done|].
    apply NoDup_Permutation; [done|done|]. intros x. by rewrite Hm1, Hm2, Hsame. }
  destruct (cleanupConfigBackups_run u c ws) as (w' & Hclean & Hdirs & Hkept & Hfiles).
  { unfold ws. simpl. by rewrite Hdb. }
  exists w'. split; [|split; [|split]].
  - unfold saveConfig. unfold try_catchC at 1. unfold bindC at 1. unfold get_config.
    assert (Hstep1 :
      try_catchC
        (bindC (fsC (fs_access (configFile u)))
           (fun _ => fsC (fs_copyFile (configFile u) (backupDir u, configBackupName millis))))
        (fun _ => retC tt) c w = ((c, wb), OkC tt)).
    { unfold wb, with_config_backup, fs_access, fs_copyFile, fs_readFile, fs_writeFile.
      runC. run. destruct (files w !! configFile u) as [old|] eqn:Eold; simpl; [|done].
      rewrite Eold. simpl. by rewrite bool_decide_eq_true_2. }
    unfold bindC at 1. rewrite Hstep1.
    assert (Hstep2 :
      bindC (fsC (fs_writeFile (configTempFile u) (configDocument c now)))
        (fun _ => bindC (fsC (fs_rename (configTempFile u) (configFile u)))
                    (fun _ => cleanupConfigBackups u)) c wb
      = cleanupConfigBackups u c ws).
    { unfold fs_writeFile, fs_rename. runC. run.
      rewrite bool_decide_eq_true_2 by (by rewrite Hdb). simpl.
      rewrite lookup_insert_eq. simpl.
      rewrite bool_decide_eq_true_2 by (by rewrite Hdb). done. }
    rewrite Hstep2, Hclean. done.
  - rewrite Hdirs. unfold ws. simpl. exact Hdb.
  - by rewrite Hkept, Hlist.
  - intros p. rewrite Hfiles, Hlist. unfold ws. simpl.
    destruct (decide (p = configFile u)) as [->|Hp1].
    { rewrite (bool_decide_eq_true_2 (configFile u = configFile u)) by done.
      rewrite bool_decide_eq_false_2; [apply lookup_insert_eq|].
      intros [H _]. symmetry in H. by apply backupDir_neq_userDir in H. }
    rewrite (bool_decide_eq_false_2 (p = configFile u)) by done.
    destruct (decide (p = configTempFile u)) as [->|Hp2].
    { rewrite (bool_decide_eq_true_2 (configTempFile u = configTempFile u)) by done.
      rewrite bool_decide_eq_false_2.
      - rewrite lookup_insert_ne by (apply not_eq_sym, configFile_neq_temp).
        apply lookup_delete_eq.
      - intros [H _]. symmetry in H. by apply backupDir_neq_userDir in H. }
    rewrite (bool_decide_eq_false_2 (p = configTempFile u)) by done.
    case_bool_decide; [done|].
    rewrite lookup_insert_ne by done. rewrite lookup_delete_ne by done.
    by rewrite lookup_insert_ne by done.
Qed.

(** What the callers of [saveConfig] rely on. *)
Lemma saveConfig_written u now millis c w :
  userDir u ∈ dirs w → backupDir u ∈ dirs w →
  ∃ w', saveConfig u now millis c w = ((c, w'), OkC tt)
        ∧ dirs w' = dirs w
        ∧ files w' !! configFile u = Some (configDocument c now)
        ∧ (∀ old, files w !! configFile u = Some old →
                  configBackupName millis ∈ configBackups u w' →
                  files w' !! (backupDir u, configBackupName millis) = Some old).
Proof.
  intros Hu Hb.
  destruct (saveConfig_run u now millis c w Hu Hb) as (w' & Hrun & Hdirs & Hkept & Hfiles).
  set (wb := with_config_backup u millis (files w !! configFile u) w) in *.
  destruct (configBackups_spec u wb) as (_ & Hnd & _).
  exists w'. split; [done|]. split; [done|]. split.
  - rewrite Hfiles. by rewrite bool_decide_eq_true_2.
  - intros old Hold Hin. rewrite Hfiles.
    rewrite bool_decide_eq_false_2 by apply configFile_not_backup.
    rewrite bool_decide_eq_false_2 by apply configTempFile_not_backup.
    rewrite bool_decide_eq_false_2.
    + unfold wb. rewrite Hold. simpl. apply lookup_insert_eq.
    + intros [_ Hdrop]. simpl in Hdrop. rewrite Hkept in Hin.
      rewrite <- (take_drop 5 (configBackups u wb)) in Hnd.
      apply NoDup_app in Hnd as (_ & Hdisj & _). by eapply Hdisj.
Qed.

(** X23: where the directories of the user exist, [saveConfig] succeeds and
    leaves [this.config] as it is; the file holds the configuration, the
    temporary file is gone; the file found before the call has been copied
    to a backup named after the clock, and of the backups of the
    configuration the five greatest names remain; no other file is touched
    (so no backup of the tasks, which are in the same directory). *)
Theorem saveConfig_backs_up_and_prunes u now millis c w :
  userDir u ∈ dirs w → backupDir u ∈ dirs w →
  ∃ w', saveConfig u now millis c w = ((c, w'), OkC tt)
        ∧ files w' !! configFile u = Some (configDocument c now)
        ∧ files w' !! configTempFile u = None
        ∧ configBackups u w'
          = take 5 (configBackups u
                      (with_config_backup u millis (files w !! configFile u) w))
        ∧ (length (configBackups u w') ≤ 5)%nat
        ∧ (∀ old, files w !! configFile u = Some old →
                  configBackupName millis ∈ configBackups u w' →
                  files w' !! (backupDir u, configBackupName millis) = Some old)
        ∧ (∀ p, p ≠ configFile u → p ≠ configTempFile u →
                ¬ (p.1 = backupDir u ∧ isConfigBackupName p.2 = true) →
                files w' !! p = files w !! p).
Proof.
  intros Hu Hb.
  destruct (saveConfig_run u now millis c w Hu Hb) as (w' & Hrun & Hdirs & Hkept & Hfiles).
  set (wb := with_config_backup u millis (files w !! configFile u) w) in *.
  destruct (configBackups_spec u wb) as (_ & Hnd & Hmem).
  exists w'. split; [done|]. split; [|split; [|split; [done|split; [|split]]]].
  - rewrite Hfiles. by rewrite bool_decide_eq_true_2.
  - rewrite Hfiles. rewrite bool_decide_eq_false_2 by apply configFile_neq_temp.
    by rewrite bool_decide_eq_true_2.
  - rewrite Hkept, length_take. lia.
  - intros old Hold Hin. rewrite Hfiles.
    rewrite bool_decide_eq_false_2 by apply configFile_not_backup.
    rewrite bool_decide_eq_false_2 by apply configTempFile_not_backup.
    rewrite bool_decide_eq_false_2.
    + unfold wb. rewrite Hold. simpl. apply lookup_insert_eq.
    + intros [_ Hdrop]. simpl in Hdrop. rewrite Hkept in Hin.
      rewrite <- (take_drop 5 (configBackups u wb)) in Hnd.
      apply NoDup_app in Hnd as (_ & Hdisj & _). by eapply Hdisj.
  - intros p Hp1 Hp2 Hp3. rewrite Hfiles.
    rewrite bool_decide_eq_false_2 by done. rewrite bool_decide_eq_false_2 by done.
    rewrite bool_decide_eq_false_2.
    + unfold wb, with_config_backup.
      destruct (files w !! configFile u) as [old|]; [|done]. simpl.
      apply lookup_insert_ne. intros <-. apply Hp3. split; [done|].
      apply configBackupName_is_backup.
    + intros [Hd Hin]. apply Hp3. split; [done|].
      assert (p.2 ∈ configBackups u wb) as Hin'
        by (eapply elem_of_sublist; [exact Hin|apply sublist_drop]).
      apply Hmem in Hin' as [Hn _]. by destruct (isConfigBackupName p.2).
Qed.


Lemma saveConfig_backs_up_and_prunes_witness :
  let old := configDocument DEFAULT_USER_CONFIG "01/01/2024" in
  let w := mkWorld {[ configFile "u" := old;
                      (backupDir "u", "config-1001.json") := BadJson;
                      (backupDir "u", "config-1002.json") := BadJson;
                      (backupDir "u", "config-1003.json") := BadJson;
                      (backupDir "u", "config-1004.json") := BadJson;
                      (backupDir "u", "config-1005.json") := BadJson;
                      (backupDir "u", "tasks-2024-01-01.json") := BadJson ]}
                   {[ userDir "u"; backupDir "u" ]} DEFAULT_STORAGE_DATA_init in
  ∃ w', saveConfig "u" "02/01/2024" 1006 DEFAULT_USER_CONFIG w
        = ((DEFAULT_USER_CONFIG, w'), OkC tt)
        ∧ configBackups "u" w'
          = ["config-1006.json"; "config-1005.json"; "config-1004.json";
             "config-1003.json"; "config-1002.json"]
        ∧ files w' !! (backupDir "u", "tasks-2024-01-01.json") = Some BadJson.
Proof.
  intros old w.
  destruct (saveConfig_backs_up_and_prunes "u" "02/01/2024" 1006 DEFAULT_USER_CONFIG w)
    as (w' & Hrun & _ & _ & Hkept & _ & _ & Hother).
  - apply (bool_decide_unpack _). by vm_compute.
  - apply (bool_decide_unpack _). by vm_compute.
  - exists w'. split; [exact Hrun|]. split.
    + etrans; [exact Hkept|]. by vm_compute.
    + etrans; [apply (Hother (backupDir "u", "tasks-2024-01-01.json"))|].
      * discriminate.
      * discriminate.
      * intros [_ Hname]. discriminate Hname.
      * by vm_compute.
Defined.

Lemma loadConfig_of_document u c now c0 w :
  files w !! configFile u = Some (configDocument c now) →
  loadConfig u c0 w = ((c ∪ DEFAULT_USER_CONFIG, w), OkC tt).
Proof.
  intros Hf. unfold loadConfig, fs_readFile. runC. run. rewrite Hf. simpl.
  by rewrite list_to_map_to_list.
Qed.

(** X24: the configuration [saveConfig] writes is the one [loadConfig]
    reads back, in this or another [UserConfig] of the user, completed with
    the defaults for the keys it does not have. *)
Theorem saveConfig_then_loadConfig u now millis c c0 w :
  userDir u ∈ dirs w → backupDir u ∈ dirs w →
  ∃ w', saveConfig u now millis c w = ((c, w'), OkC tt)
        ∧ loadConfig u c0 w' = ((c ∪ DEFAULT_USER_CONFIG, w'), OkC tt)
        ∧ (∀ k v, c !! k = Some v → (c ∪ DEFAULT_USER_CONFIG) !! k = Some v)
        ∧ (c !! "hideCompleted" = None →
           (c ∪ DEFAULT_USER_CONFIG) !! "hideCompleted" = Some (JBool false)).
Proof.
  intros Hu Hb.
  destruct (saveConfig_run u now millis c w Hu Hb) as (w' & Hrun & _ & _ & Hfiles).
  exists w'. split; [done|]. split; [|split].
  - apply (loadConfig_of_document u c now). rewrite Hfiles.
    by rewrite bool_decide_eq_true_2.
  - intros k v Hk. by apply lookup_union_Some_l.
  - intros Hk. rewrite lookup_union_r by done. reflexivity.
Qed.

Lemma saveConfig_then_loadConfig_witness :
  let c : Config := {[ "hideCompleted" := JBool true ]} in
  ∃ w', saveConfig "u" "02/01/2024" 1006 c (sample_world "u" DEFAULT_TASK_STATES [])
        = ((c, w'), OkC tt)
        ∧ loadConfig "u" DEFAULT_USER_CONFIG w' = ((c ∪ DEFAULT_USER_CONFIG, w'), OkC tt)
        ∧ (c ∪ DEFAULT_USER_CONFIG) !! "hideCompleted" = Some (JBool true).
Proof.
  intros c.
  destruct (saveConfig_then_loadConfig "u" "02/01/2024" 1006 c DEFAULT_USER_CONFIG
              (sample_world "u" DEFAULT_TASK_STATES []))
    as (w' & Hsave & Hload & Hkeys & _).
  - apply (bool_decide_unpack _). by vm_compute.
  - apply (bool_decide_unpack _). by vm_compute.
  - exists w'. split; [exact Hsave|]. split; [exact Hload|].
    apply Hkeys. reflexivity.
Defined.

Lemma updateConfig_unfold u updates now millis c w :
  updateConfig u updates now millis c w = saveConfig u now millis (updates ∪ c) w.
Proof. reflexivity. Qed.

Lemma toggleHideCompleted_unfold u now millis c w :
  toggleHideCompleted u now millis c w
  = let newValue := negb (truthy (c !! "hideCompleted")) in
    match saveConfig u now millis (<["hideCompleted" := JBool newValue]> c) w with
    | (cw, OkC _) => (cw, OkC newValue)
    | (cw, ThrowC e) => (cw, ThrowC e)
    end.
Proof.
  unfold toggleHideCompleted, setHideCompleted. unfold bindC at 1. unfold get_config.
  unfold bindC at 1. rewrite updateConfig_unfold, <- insert_union_singleton_l.
  simpl. by destruct (saveConfig _ _ _ _ _) as [[c' w'] [[]|e]].
Qed.

(** X25: where the directories of the user exist, [toggleHideCompleted]
    returns the negation of the setting, keeps it in memory and writes it;
    a second call returns and stores the setting of before (as a boolean),
    and the other keys of the configuration are as they were. *)
Theorem toggleHideCompleted_twice u now1 millis1 now2 millis2 c w :
  userDir u ∈ dirs w → backupDir u ∈ dirs w →
  let h := truthy (c !! "hideCompleted") in
  ∃ c1 w1 c2 w2,
    toggleHideCompleted u now1 millis1 c w = ((c1, w1), OkC (negb h))
    ∧ c1 = <["hideCompleted" := JBool (negb h)]> c
    ∧ files w1 !! configFile u = Some (configDocument c1 now1)
    ∧ toggleHideCompleted u now2 millis2 c1 w1 = ((c2, w2), OkC h)
    ∧ c2 = <["hideCompleted" := JBool h]> c
    ∧ files w2 !! configFile u = Some (configDocument c2 now2)
    ∧ (configBackupName millis2 ∈ configBackups u w2 →
       files w2 !! (backupDir u, configBackupName millis2)
       = Some (configDocument c1 now1)).
Proof.
  intros Hu Hb h.
  set (c1 := <["hideCompleted" := JBool (negb h)]> c).
  destruct (saveConfig_run u now1 millis1 c1 w Hu Hb) as (w1 & Hrun1 & Hdirs1 & _ & Hfiles1).
  assert (Hf1 : files w1 !! configFile u = Some (configDocument c1 now1)).
  { rewrite Hfiles1. by rewrite bool_decide_eq_true_2. }
  assert (Ht1 : truthy (c1 !! "hideCompleted") = negb h).
  { unfold c1. rewrite lookup_insert_eq. simpl. by destruct h. }
  set (c2 := <["hideCompleted" := JBool h]> c).
  assert (Hc2 : <["hideCompleted" := JBool (negb (negb h))]> c1 = c2).
  { unfold c1, c2. rewrite insert_insert_eq. by rewrite negb_involutive. }
  destruct (saveConfig_written u now2 millis2 c2 w1)
    as (w2 & Hrun2 & _ & Hf2 & Hbackup).
  { by rewrite Hdirs1. }
  { by rewrite Hdirs1. }
  exists c1, w1, c2, w2. split; [|split; [done|split; [done|split; [|split; [done|split]]]]].
  - rewrite toggleHideCompleted_unfold. cbv zeta. subst c1 h. by rewrite Hrun1.
  - rewrite toggleHideCompleted_unfold. cbv zeta. rewrite Ht1, Hc2, Hrun2.
    by rewrite negb_involutive.
  - exact Hf2.
  - by apply Hbackup.
Qed.

Lemma toggleHideCompleted_twice_witness :
  let w := sample_world "u" DEFAULT_TASK_STATES [] in
  ∃ c1 w1 c2 w2,
    toggleHideCompleted "u" "02/01/2024" 1006 DEFAULT_USER_CONFIG w = ((c1, w1), OkC true)
    ∧ toggleHideCompleted "u" "03/01/2024" 1007 c1 w1 = ((c2, w2), OkC false)
    ∧ c2 = DEFAULT_USER_CONFIG.
Proof.
  intros w.
  destruct (toggleHideCompleted_twice "u" "02/01/2024" 1006 "03/01/2024" 1007
              DEFAULT_USER_CONFIG w)
    as (c1 & w1 & c2 & w2 & Hrun1 & _ & _ & Hrun2 & Hc2 & _).
  - apply (bool_decide_unpack _). by vm_compute.
  - apply (bool_decide_unpack _). by vm_compute.
  - exists c1, w1, c2, w2. split; [exact Hrun1|]. split; [exact Hrun2|].
    etrans; [exact Hc2|]. apply insert_id. reflexivity.
Defined.

Lemma initializeConfig_unfold u now millis c w :
  initializeConfig u now millis c w
  = match loadConfig u c (set_dirs (fun ds => {[backupDir u]} ∪ ds)
                            (set_dirs (fun ds => {[userDir u]} ∪ ds) w)) with
    | (cw, OkC a) => (cw, OkC a)
    | ((c', w'), ThrowC _) =>
        match saveConfig u now millis c' w' with
        | (cw, OkC a) => (cw, OkC a)
        | (cw, ThrowC _) => (cw, ThrowC FailedToInitializeConfig)
        end
    end.
Proof.
  unfold initializeConfig, fs_mkdir. unfold try_catchC at 1. unfold bindC at 1 2.
  unfold fsC at 1 2. unfold modify_world. unfold try_catchC at 1.
  destruct (loadConfig u c _) as [[c' w'] [[]|e]]; [done|].
  by destruct (saveConfig u now millis c' w') as [[c2 w2] [[]|e2]].
Qed.

(** X26: when [initialize] of a [UserConfig] succeeds, there is a
    configuration file: a file that parses to an object has been read into
    [this.config] over the defaults and no file has been written; with no
    file, or one that is not JSON, [this.config] has stayed and has been
    written, and the file that was not JSON is kept as a backup. *)
Theorem initializeConfig_loads_or_creates u now millis c w c' w' :
  initializeConfig u now millis c w = ((c', w'), OkC tt) →
  is_Some (files w' !! configFile u)
  ∧ (∀ kv, files w !! configFile u = Some (OtherJson (JObj kv)) →
           c' = spread (get_prop (JObj kv) "config") ∪ DEFAULT_USER_CONFIG
           ∧ files w' = files w)
  ∧ (files w !! configFile u = None →
     c' = c ∧ files w' !! configFile u = Some (configDocument c now))
  ∧ (files w !! configFile u = Some BadJson →
     c' = c ∧ files w' !! configFile u = Some (configDocument c now)
     ∧ (configBackupName millis ∈ configBackups u w' →
        files w' !! (backupDir u, configBackupName millis) = Some BadJson)).
Proof.
  rewrite initializeConfig_unfold.
  set (w0 := set_dirs (fun ds => {[backupDir u]} ∪ ds)
               (set_dirs (fun ds => {[userDir u]} ∪ ds) w)).
  assert (Hu : userDir u ∈ dirs w0).
  { simpl. apply elem_of_union_r, elem_of_union_l. by apply elem_of_singleton. }
  assert (Hb : backupDir u ∈ dirs w0).
  { simpl. apply elem_of_union_l. by apply elem_of_singleton. }
  destruct (saveConfig_written u now millis c w0 Hu Hb)
    as (ws & Hsave & _ & Hfile & Hbackup).
  destruct (files w !! configFile u) as [content|] eqn:Ef.
  - assert (Hf0 : files w0 !! configFile u = Some content) by done.
    destruct content as [|j|sf].
    + assert (Hload : loadConfig u c w0 = ((c, w0), ThrowC FailedToLoadConfig)).
      { unfold loadConfig, fs_readFile. runC. run. by rewrite Ef. }
      rewrite Hload, Hsave. intros [= <- <-]. split; [by eexists|].
      split; [done|]. split; [done|]. intros _. split; [done|]. split; [done|].
      by apply Hbackup.
    + assert (Hload : loadConfig u c w0
                      = match j with
                        | JNull => ((c, w0), ThrowC FailedToLoadConfig)
                        | _ => ((spread (get_prop j "config") ∪ DEFAULT_USER_CONFIG, w0),
                                OkC tt)
                        end).
      { unfold loadConfig, fs_readFile. runC. run. rewrite Ef. simpl. by destruct j. }
      rewrite Hload.
      destruct j; try (intros [= <- <-]; split; [by eexists|];
                       split; [by intros kv' [= <-]|]; split; done).
      rewrite Hsave. intros [= <- <-]. split; [by eexists|].
      split; [done|]. split; [done|]. done.
    + assert (Hload : loadConfig u c w0
                      = ((spread None ∪ DEFAULT_USER_CONFIG, w0), OkC tt)).
      { unfold loadConfig, fs_readFile. runC. run. by rewrite Ef. }
      rewrite Hload. intros [= <- <-]. split; [by eexists|].
      split; [done|]. split; [done|]. done.
  - assert (Hload : loadConfig u c w0 = ((c, w0), ThrowC FailedToLoadConfig)).
    { unfold loadConfig, fs_readFile. runC. run. by rewrite Ef. }
    rewrite Hload, Hsave. intros [= <- <-]. split; [by eexists|].
    split; [done|]. split; [done|]. done.
Qed.

Lemma initializeConfig_loads_or_creates_witness :
  let r := initializeConfig "u" "02/01/2024" 1006 DEFAULT_USER_CONFIG fresh_world in
  r.2 = OkC tt
  ∧ r.1.1 = DEFAULT_USER_CONFIG
  ∧ files r.1.2 !! configFile "u"
    = Some (configDocument DEFAULT_USER_CONFIG "02/01/2024").
Proof.
  intros r.
  assert (Hrun : initializeConfig "u" "02/01/2024" 1006 DEFAULT_USER_CONFIG fresh_world
                 = ((r.1.1, r.1.2), OkC tt)) by (vm_compute; reflexivity).
  destruct (initializeConfig_loads_or_creates "u" "02/01/2024" 1006 DEFAULT_USER_CONFIG
              fresh_world r.1.1 r.1.2 Hrun) as (_ & _ & Hnew & _).
  destruct (Hnew eq_refl) as [Hc Hf].
  split; [vm_compute; reflexivity|]. split; [exact Hc|exact Hf].
Defined.

(** X27: [updateConfig] changes [this.config] before it saves and does not
    take the change back: where the directory of the user does not exist
    the call fails with "Failed to save config", nothing is written, and
    the configuration in memory holds the update. *)
Theorem updateConfig_failed_save_keeps_the_update u updates now millis c w :
  userDir u ∉ dirs w → files w !! configFile u = None →
  updateConfig u updates now millis c w
  = ((updates ∪ c, w), ThrowC FailedToSaveConfig)
  ∧ (∀ k v, updates !! k = Some v → (updates ∪ c) !! k = Some v)
  ∧ getConfig (updates ∪ c) w = ((updates ∪ c, w), OkC (updates ∪ c)).
Proof.
  intros Hu Hf. split; [|split].
  - rewrite updateConfig_unfold.
    unfold saveConfig, fs_access, fs_copyFile, fs_readFile, fs_writeFile. runC. run.
    rewrite Hf. simpl. by rewrite bool_decide_eq_false_2.
  - intros k v Hk. by apply lookup_union_Some_l.
  - reflexivity.
Qed.

Lemma updateConfig_failed_save_keeps_the_update_witness :
  updateConfig "u" {[ "hideCompleted" := JBool true ]} "02/01/2024" 1006
               DEFAULT_USER_CONFIG fresh_world
  = (({[ "hideCompleted" := JBool true ]} ∪ DEFAULT_USER_CONFIG, fresh_world),
     ThrowC FailedToSaveConfig).
Proof.
  destruct (updateConfig_failed_save_keeps_the_update "u"
              {[ "hideCompleted" := JBool true ]} "02/01/2024" 1006
              DEFAULT_USER_CONFIG fresh_world) as (Hrun & _ & _).
  - apply (bool_decide_unpack _). by vm_compute.
  - reflexivity.
  - exact Hrun.
Defined.

Lemma mkdir_existing u w :
  userDir u ∈ dirs w → backupDir u ∈ dirs w →
  set_dirs (fun ds => {[backupDir u]} ∪ ds) (set_dirs (fun ds => {[userDir u]} ∪ ds) w) = w.
Proof.
  intros Hu Hb. destruct w as [fs ds def]. unfold set_dirs. simpl in *. f_equal.
  rewrite (subseteq_union_1_L {[userDir u]} ds) by (by apply singleton_subseteq_l).
  by rewrite (subseteq_union_1_L {[backupDir u]} ds) by (by apply singleton_subseteq_l).
Qed.

(** X28: a setting written by [setHideCompleted] is the one the getter
    returns, and the one a new [UserConfig] of the user returns after its
    [initialize], which then writes nothing; after [resetToDefaults] the
    getter returns false and the file holds the defaults. *)
Theorem setHideCompleted_survives_restart u value now millis now' millis' c w :
  userDir u ∈ dirs w → backupDir u ∈ dirs w →
  ∃ c1 w1 c2,
    setHideCompleted u value now millis c w = ((c1, w1), OkC tt)
    ∧ hideCompleted c1 w1 = ((c1, w1), OkC (Some (JBool value)))
    ∧ initializeConfig u now' millis' DEFAULT_USER_CONFIG w1 = ((c2, w1), OkC tt)
    ∧ hideCompleted c2 w1 = ((c2, w1), OkC (Some (JBool value)))
    ∧ ∃ w3, resetToDefaults u now' millis' c2 w1 = ((DEFAULT_USER_CONFIG, w3), OkC tt)
            ∧ hideCompleted DEFAULT_USER_CONFIG w3
              = ((DEFAULT_USER_CONFIG, w3), OkC (Some (JBool false)))
            ∧ files w3 !! configFile u
              = Some (configDocument DEFAULT_USER_CONFIG now').
Proof.
  intros Hu Hb.
  set (c1 := <["hideCompleted" := JBool value]> c).
  destruct (saveConfig_run u now millis c1 w Hu Hb) as (w1 & Hrun1 & Hdirs1 & _ & Hfiles1).
  assert (Hu1 : userDir u ∈ dirs w1) by (by rewrite Hdirs1).
  assert (Hb1 : backupDir u ∈ dirs w1) by (by rewrite Hdirs1).
  assert (Hf1 : files w1 !! configFile u = Some (configDocument c1 now)).
  { rewrite Hfiles1. by rewrite bool_decide_eq_true_2. }
  destruct (saveConfig_run u now' millis' DEFAULT_USER_CONFIG w1 Hu1 Hb1)
    as (w3 & Hrun3 & _ & _ & Hfiles3).
  exists c1, w1, (c1 ∪ DEFAULT_USER_CONFIG).
  split; [|split; [|split; [|split; [|exists w3; split; [|split]]]]].
  - unfold setHideCompleted. rewrite updateConfig_unfold, <- insert_union_singleton_l.
    exact Hrun1.
  - unfold hideCompleted, bindC, get_config, retC. unfold c1.
    by rewrite lookup_insert_eq.
  - rewrite initializeConfig_unfold, (mkdir_existing u w1 Hu1 Hb1).
    by rewrite (loadConfig_of_document u c1 now).
  - unfold hideCompleted, bindC, get_config, retC. do 2 f_equal.
    apply lookup_union_Some_l. unfold c1. by rewrite lookup_insert_eq.
  - exact Hrun3.
  - reflexivity.
  - rewrite Hfiles3. by rewrite bool_decide_eq_true_2.
Qed.

Lemma setHideCompleted_survives_restart_witness :
  let w := sample_world "u" DEFAULT_TASK_STATES [] in
  ∃ c1 w1 c2,
    setHideCompleted "u" true "02/01/2024" 1006 DEFAULT_USER_CONFIG w = ((c1, w1), OkC tt)
    ∧ initializeConfig "u" "03/01/2024" 1007 DEFAULT_USER_CONFIG w1 = ((c2, w1), OkC tt)
    ∧ hideCompleted c2 w1 = ((c2, w1), OkC (Some (JBool true))).
Proof.
  intros w.
  destruct (setHideCompleted_survives_restart "u" true "02/01/2024" 1006 "03/01/2024" 1007
              DEFAULT_USER_CONFIG w)
    as (c1 & w1 & c2 & Hset & _ & Hinit & Hget & _).
  - apply (bool_decide_unpack _). by vm_compute.
  - apply (bool_decide_unpack _). by vm_compute.
  - exists c1, w1, c2. split; [exact Hset|]. split; [exact Hinit|exact Hget].
Defined.

(* ===================================================================== *)
(** * Further properties: the Telegram utilities *)
(* ===================================================================== *)

Section escaping.
Variable special : ascii → bool.
Hypothesis backslash_plain : special backslash = false.

Lemma escape_matches_head text :
  match escape_matches special text with
  | EmptyString => text = EmptyString
  | String d _ => special d = false
  end.
Proof.
  destruct text as [|c r]; simpl; [done|].
  destruct (special c) eqn:Ec; [exact backslash_plain|exact Ec].
Qed.

Lemma unescape_escape text : unescape special (escape_matches special text) = text.
Proof.
  induction text as [|c r IH]; [done|].
  cbn [escape_matches]. destruct (special c) eqn:Ec.
  - cbn [unescape]. rewrite Ascii.eqb_refl, Ec. simpl. by rewrite IH.
  - pose proof (escape_matches_head r) as Hhead. cbn [unescape].
    destruct (escape_matches special r) as [|d rest] eqn:Er.
    + by rewrite Hhead.
    + rewrite Hhead, andb_false_r. by rewrite IH.
Qed.

Lemma escape_matches_length text :
  String.length (escape_matches special text)
  = (String.length text + count_matches special text)%nat.
Proof.
  induction text as [|c r IH]; simpl; [done|].
  destruct (special c); simpl; rewrite IH; lia.
Qed.

Lemma escape_matches_plain text :
  count_matches special text = O → escape_matches special text = text.
Proof.
  induction text as [|c r IH]; simpl; [done|].
  destruct (special c); [done|]. simpl. intros H. by rewrite IH.
Qed.

Lemma escape_matches_preceded text i c :
  list_ascii_of_string (escape_matches special text) !! i = Some c →
  special c = true →
  ∃ j, i = S j
       ∧ list_ascii_of_string (escape_matches special text) !! j = Some backslash.
Proof.
  revert i. induction text as [|x r IH]; intros i; simpl; [done|].
  destruct (special x) eqn:Ex; simpl.
  - destruct i as [|[|i]]; simpl.
    + intros [= <-]. by rewrite backslash_plain.
    + intros _ _. by exists O.
    + intros Hi Hc. destruct (IH _ Hi Hc) as (j & -> & Hj). by exists (S (S j)).
  - destruct i as [|i]; simpl.
    + intros [= <-]. by rewrite Ex.
    + intros Hi Hc. destruct (IH _ Hi Hc) as (j & -> & Hj). by exists (S j).
Qed.
End escaping.

(** X29: [escapeMarkdownV2] and [escapeMarkdown] put one backslash before
    every character of their class and change nothing else: in the result
    every such character stands right after a backslash, the result is
    longer by the number of these characters, a text without them is
    returned as it is, and dropping the backslashes that stand before
    such a character gives the text back, so no two texts are escaped to
    the same one. *)
Theorem escapeMarkdown_can_be_read_back (text : string) :
  unescape markdownV2_special (escapeMarkdownV2 text) = text
  ∧ unescape markdown_special (escapeMarkdown text) = text
  ∧ String.length (escapeMarkdownV2 text)
    = (String.length text + count_matches markdownV2_special text)%nat
  ∧ (count_matches markdownV2_special text = O → escapeMarkdownV2 text = text)
  ∧ (∀ i c, list_ascii_of_string (escapeMarkdownV2 text) !! i = Some c →
            markdownV2_special c = true →
            ∃ j, i = S j
                 ∧ list_ascii_of_string (escapeMarkdownV2 text) !! j = Some backslash)
  ∧ (∀ other, escapeMarkdownV2 text = escapeMarkdownV2 other → text = other).
Proof.
  assert (H2 : markdownV2_special backslash = false) by reflexivity.
  assert (H1 : markdown_special backslash = false) by reflexivity.
  split; [by apply unescape_escape|]. split; [by apply unescape_escape|].
  split; [apply escape_matches_length|]. split; [apply escape_matches_plain|].
  split; [intros i c; by apply escape_matches_preceded|].
  intros other Heq.
  rewrite <- (unescape_escape markdownV2_special H2 text).
  rewrite <- (unescape_escape markdownV2_special H2 other).
  unfold escapeMarkdownV2 in Heq. by rewrite Heq.
Qed.

Lemma length_rev_app s acc :
  String.length (String.rev_app s acc) = (String.length s + String.length acc)%nat.
Proof.
  revert acc. induction s as [|c s IH]; intros acc; simpl; [done|].
  rewrite IH. simpl. lia.
Qed.

Lemma length_trimStart s : (String.length (trimStart s) ≤ String.length s)%nat.
Proof. induction s as [|c s IH]; simpl; [done|]. destruct (is_space c); simpl; lia. Qed.

Lemma js_length_trim s : js_length (trim s) ≤ js_length s.
Proof.
  unfold js_length, trim, trimEnd, String.rev. rewrite length_rev_app. simpl.
  pose proof (length_trimStart (String.rev_app (trimStart s) "")) as H1.
  rewrite length_rev_app in H1. simpl in H1.
  pose proof (length_trimStart s) as H2. lia.
Qed.

Lemma js_length_app a b : js_length (a +:+ b) = js_length a + js_length b.
Proof. unfold js_length. rewrite string_length_app. lia. Qed.

Lemma length_substring_to n word : 0 ≤ n → js_length (substring_to n word) ≤ n.
Proof.
  intros Hn. unfold substring_to, js_length.
  assert (H : ∀ k s, (String.length (substring 0 k s) ≤ k)%nat).
  { induction k as [|k IH]; intros s; destruct s; simpl; try lia.
    specialize (IH s). lia. }
  specialize (H (Z.to_nat n) word). lia.
Qed.

Lemma js_length_nonneg s : 0 ≤ js_length s.
Proof. unfold js_length. lia. Qed.

Lemma push_trimmed_fits maxLength parts current :
  Forall (fun part => js_length part ≤ maxLength) parts →
  js_length current ≤ maxLength →
  Forall (fun part => js_length part ≤ maxLength) (push_trimmed parts current).
Proof.
  intros Hparts Hcur. unfold push_trimmed. destruct (nonempty current); [|done].
  apply Forall_app. split; [done|]. constructor; [|constructor].
  pose proof (js_length_trim current). lia.
Qed.

Lemma separator_length (current sep : string) :
  js_length sep ≤ 1 →
  js_length (if nonempty current then sep else "") ≤ 1.
Proof. intros Hs. destruct (nonempty current); [done|]. by vm_compute. Qed.

Lemma word_step_fits maxLength acc word :
  3 ≤ maxLength →
  Forall (fun part => js_length part ≤ maxLength) acc.1 →
  js_length acc.2 ≤ maxLength →
  Forall (fun part => js_length part ≤ maxLength) (word_step maxLength acc word).1
  ∧ js_length (word_step maxLength acc word).2 ≤ maxLength.
Proof.
  intros Hmax Hparts Hcur. destruct acc as [parts currentLine]. simpl in *.
  destruct (Z.gtb_spec (js_length currentLine + js_length word + 1) maxLength) as [Hgt|Hle];
    simpl.
  - split; [|unfold js_length; simpl; lia].
    apply Forall_app. split; [by apply push_trimmed_fits|].
    constructor; [|constructor].
    destruct (Z.gtb_spec (js_length word) maxLength) as [Hw|Hw]; [|done].
    rewrite js_length_app.
    pose proof (length_substring_to (maxLength - 3) word). 
    assert (js_length "..." = 3) by reflexivity. lia.
  - split; [done|]. rewrite !js_length_app.
    pose proof (separator_length currentLine " "). 
    assert (js_length " " ≤ 1) by (by vm_compute). lia.
Qed.

Lemma fold_word_step_fits maxLength words acc :
  3 ≤ maxLength →
  Forall (fun part => js_length part ≤ maxLength) acc.1 →
  js_length acc.2 ≤ maxLength →
  Forall (fun part => js_length part ≤ maxLength)
         (fold_left (word_step maxLength) words acc).1
  ∧ js_length (fold_left (word_step maxLength) words acc).2 ≤ maxLength.
Proof.
  intros Hmax. revert acc. induction words as [|word words IH]; intros acc Hp Hc;
    simpl; [done|].
  destruct (word_step_fits maxLength acc word Hmax Hp Hc) as [Hp' Hc']. by apply IH.
Qed.

Lemma line_step_fits maxLength acc line :
  3 ≤ maxLength →
  Forall (fun part => js_length part ≤ maxLength) acc.1 →
  js_length acc.2 ≤ maxLength →
  Forall (fun part => js_length part ≤ maxLength) (line_step maxLength acc line).1
  ∧ js_length (line_step maxLength acc line).2 ≤ maxLength.
Proof.
  intros Hmax Hparts Hcur. destruct acc as [parts currentPart]. simpl in *.
  destruct (Z.gtb_spec (js_length currentPart + js_length line + 1) maxLength) as [Hgt|Hle];
    simpl.
  - destruct (Z.gtb_spec (js_length line) maxLength) as [Hl|Hl]; simpl.
    + apply fold_word_step_fits; [done| |].
      * simpl. by apply push_trimmed_fits.
      * simpl. unfold js_length. simpl. lia.
    + split; [by apply push_trimmed_fits|done].
  - split; [done|]. rewrite !js_length_app.
    pose proof (separator_length currentPart (String newline EmptyString)).
    assert (js_length (String newline EmptyString) ≤ 1) by (by vm_compute). lia.
Qed.

Lemma fold_line_step_fits maxLength lines acc :
  3 ≤ maxLength →
  Forall (fun part => js_length part ≤ maxLength) acc.1 →
  js_length acc.2 ≤ maxLength →
  Forall (fun part => js_length part ≤ maxLength)
         (fold_left (line_step maxLength) lines acc).1
  ∧ js_length (fold_left (line_step maxLength) lines acc).2 ≤ maxLength.
Proof.
  intros Hmax. revert acc. induction lines as [|line lines IH]; intros acc Hp Hc;
    simpl; [done|].
  destruct (line_step_fits maxLength acc line Hmax Hp Hc) as [Hp' Hc']. by apply IH.
Qed.

(** X30: with a limit of at least 3, no part [splitLongMessage] returns is
    longer than the limit, whatever the text (lines and words longer than
    the limit included); there is always at least one part; and a text
    within the limit is returned as it is, as the only part. With the
    default limit every part is within the 4096 characters of Telegram. *)
Theorem splitLongMessage_parts_fit (text : string) (maxLength : Z) :
  3 ≤ maxLength →
  Forall (fun part => js_length part ≤ maxLength) (splitLongMessage text maxLength)
  ∧ splitLongMessage text maxLength ≠ []
  ∧ (js_length text ≤ maxLength → splitLongMessage text maxLength = [text])
  ∧ (maxLength = 4000 →
     Forall (fun part => js_length part ≤ 4096) (splitLongMessage_default text)).
Proof.
  intros Hmax.
  assert (Hfit : Forall (fun part => js_length part ≤ maxLength)
                        (splitLongMessage text maxLength)).
  { unfold splitLongMessage.
    destruct (Z.leb_spec (js_length text) maxLength) as [Hle|Hgt].
    { constructor; [done|constructor]. }
    destruct (fold_line_step_fits maxLength (split_char newline text) ([], EmptyString) Hmax)
      as [Hparts Hcur].
    { constructor. }
    { simpl. unfold js_length. simpl. lia. }
    destruct (fold_left _ _ _) as [parts currentPart]. simpl in *.
    pose proof (push_trimmed_fits maxLength parts currentPart Hparts Hcur) as Hall.
    destruct (push_trimmed parts currentPart) as [|p ps]; [|done].
    constructor; [|constructor]. unfold js_length. simpl. lia. }
  split; [done|]. split; [|split].
  - unfold splitLongMessage. destruct (js_length text <=? maxLength); [done|].
    destruct (fold_left _ _ _) as [parts currentPart].
    by destruct (push_trimmed parts currentPart).
  - intros Hle. unfold splitLongMessage.
    by destruct (Z.leb_spec (js_length text) maxLength) as [?|?]; [|lia].
  - intros ->. unfold splitLongMessage_default.
    eapply Forall_impl; [exact Hfit|]. intros part Hp. simpl in Hp. lia.
Qed.

Lemma splitLongMessage_parts_fit_witness :
  splitLongMessage "alpha beta gamma" 6 = ["alpha"; "beta"; "gamma"]
  ∧ Forall (fun part => js_length part ≤ 6) (splitLongMessage "alpha beta gamma" 6).
Proof.
  destruct (splitLongMessage_parts_fit "alpha beta gamma" 6) as (Hfit & _).
  - lia.
  - split; [by vm_compute|exact Hfit].
Defined.
